(** * ecij: static extraction of css tagged templates

    A shallow embedding of [src/index.ts] (the rolldown/vite plugin
    [ecij]) together with the properties of its specification.

    Conventions of the embedding.
    - A JavaScript string is a list of code units.  Code units are
      restricted to the range 0..255 and written as [ascii]; offsets into
      the text ([node.start], [node.end]) are indices into that list.
    - [Map<string, V>] objects are [gmap str V]; only [get], [has] and
      [set] are used by the source, so insertion order is irrelevant.
    - The parser ([oxc-parser]), the host resolver and the host file
      system are collaborators: they are the fields of the class [Host].
    - [async] functions are run to completion one after the other; the
      mutable caches are threaded as explicit state. *)

From Stdlib Require Import ZArith Ascii String List Lia DecimalString DecimalNat.
From stdpp Require Import base option list gmap strings sorting.

#[local] Set Warnings "-clear-no-such-hyp".

Local Open Scope list_scope.

(** ** Text *)

Abbreviation str := (list ascii).

(** String literals of the source are written [$"..."]. *)
Notation "$ s" := (list_ascii_of_string s%string) (at level 1, s at level 0, format "$ s").

Definition code_unit (c : ascii) : Z := Z.of_N (N_of_ascii c).

(** [WhiteSpace] and [LineTerminator] code units below 256, the class
    [\s] of regular expressions and the characters removed by [trim]:
    TAB, LF, VT, FF, CR, SP and NBSP. *)
Definition is_space (c : ascii) : bool :=
  let n := code_unit c in
  ((9 <=? n) && (n <=? 13) || (n =? 32) || (n =? 160))%Z.

Fixpoint trimStart (s : str) : str :=
  match s with
  | c :: s' => if is_space c then trimStart s' else s
  | [] => []
  end.

Definition trimEnd (s : str) : str := rev (trimStart (rev s)).

(** [String.prototype.trim] *)
Definition trim (s : str) : str := trimEnd (trimStart s).

Fixpoint startsWith (p s : str) : bool :=
  match p, s with
  | [], _ => true
  | a :: p', b :: s' => if ascii_dec a b then startsWith p' s' else false
  | _ :: _, [] => false
  end.

(** [String.prototype.includes] *)
Fixpoint includes (s p : str) : bool :=
  startsWith p s ||
  match s with
  | [] => false
  | _ :: s' => includes s' p
  end.

(** [s.indexOf(c)] for a single code unit; [None] stands for [-1]. *)
Fixpoint indexOf (s : str) (c : ascii) : option nat :=
  match s with
  | [] => None
  | a :: s' => if ascii_dec a c then Some 0 else S <$> indexOf s' c
  end.

(** [s.slice(i, j)] and [s.slice(i)] for offsets that are natural numbers. *)
Definition slice (s : str) (i j : nat) : str := take (j - i) (drop i s).
Definition slice_from (s : str) (i : nat) : str := drop i s.

(** [s.replaceAll(a, b)] for single code units. *)
Definition replaceAll (s : str) (a b : ascii) : str :=
  map (fun c => if ascii_dec c a then b else c) s.

(** [String(n)] and template interpolation of a non-negative integer. *)
Definition decimal (n : nat) : str :=
  list_ascii_of_string (NilEmpty.string_of_uint (Nat.to_uint n)).

(** [blocks.join(sep)] *)
Fixpoint join (sep : str) (l : list str) : str :=
  match l with
  | [] => []
  | [x] => x
  | x :: l' => x ++ sep ++ join sep l'
  end.

(** ** MD5 (node:crypto [createHash('md5')]) on the UTF-8 encoding *)

Module Md5.
Local Open Scope Z_scope.

Definition wrap32 (x : Z) : Z := Z.land x 0xffffffff.

Definition rotl32 (x c : Z) : Z :=
  wrap32 (Z.lor (Z.shiftl x c) (Z.shiftr x (32 - c))).

Definition not32 (x : Z) : Z := Z.lxor x 0xffffffff.

Definition shifts : list Z :=
  [7; 12; 17; 22; 7; 12; 17; 22; 7; 12; 17; 22; 7; 12; 17; 22;
   5; 9; 14; 20; 5; 9; 14; 20; 5; 9; 14; 20; 5; 9; 14; 20;
   4; 11; 16; 23; 4; 11; 16; 23; 4; 11; 16; 23; 4; 11; 16; 23;
   6; 10; 15; 21; 6; 10; 15; 21; 6; 10; 15; 21; 6; 10; 15; 21].

Definition sines : list Z :=
  [0xd76aa478; 0xe8c7b756; 0x242070db; 0xc1bdceee;
   0xf57c0faf; 0x4787c62a; 0xa8304613; 0xfd469501;
   0x698098d8; 0x8b44f7af; 0xffff5bb1; 0x895cd7be;
   0x6b901122; 0xfd987193; 0xa679438e; 0x49b40821;
   0xf61e2562; 0xc040b340; 0x265e5a51; 0xe9b6c7aa;
   0xd62f105d; 0x02441453; 0xd8a1e681; 0xe7d3fbc8;
   0x21e1cde6; 0xc33707d6; 0xf4d50d87; 0x455a14ed;
   0xa9e3e905; 0xfcefa3f8; 0x676f02d9; 0x8d2a4c8a;
   0xfffa3942; 0x8771f681; 0x6d9d6122; 0xfde5380c;
   0xa4beea44; 0x4bdecfa9; 0xf6bb4b60; 0xbebfbc70;
   0x289b7ec6; 0xeaa127fa; 0xd4ef3085; 0x04881d05;
   0xd9d4d039; 0xe6db99e5; 0x1fa27cf8; 0xc4ac5665;
   0xf4292244; 0x432aff97; 0xab9423a7; 0xfc93a039;
   0x655b59c3; 0x8f0ccc92; 0xffeff47d; 0x85845dd1;
   0x6fa87e4f; 0xfe2ce6e0; 0xa3014314; 0x4e0811a1;
   0xf7537e82; 0xbd3af235; 0x2ad7d2bb; 0xeb86d391].

(** [n] bytes of [x], least significant first. *)
Fixpoint le_bytes (n : nat) (x : Z) : list Z :=
  match n with
  | O => []
  | S n' => Z.land x 0xff :: le_bytes n' (Z.shiftr x 8)
  end.

Fixpoint le_word (bs : list Z) : Z :=
  match bs with
  | [] => 0
  | b :: bs' => Z.lor b (Z.shiftl (le_word bs') 8)
  end.

Definition pad (msg : list Z) : list Z :=
  let len := Z.of_nat (length msg) in
  msg ++ [0x80] ++ repeat 0 (Z.to_nat ((55 - len) mod 64))
      ++ le_bytes 8 (Z.land (8 * len) 0xffffffffffffffff).

(** The sixteen little-endian words of a 64-byte block. *)
Fixpoint words (n : nat) (block : list Z) : list Z :=
  match n with
  | O => []
  | S n' => le_word (take 4 block) :: words n' (drop 4 block)
  end.

Record state := State { sa : Z; sb : Z; sc : Z; sd : Z }.

Definition init : state :=
  State 0x67452301 0xefcdab89 0x98badcfe 0x10325476.

Definition step (m : list Z) (st : state) (i : nat) : state :=
  let '(State a b c d) := st in
  let iz := Z.of_nat i in
  let '(f, g) :=
    if iz <? 16 then
      (Z.lor (Z.land b c) (Z.land (not32 b) d), iz)
    else if iz <? 32 then
      (Z.lor (Z.land d b) (Z.land (not32 d) c), (5 * iz + 1) mod 16)
    else if iz <? 48 then
      (Z.lxor (Z.lxor b c) d, (3 * iz + 5) mod 16)
    else
      (Z.lxor c (Z.lor b (not32 d)), (7 * iz) mod 16) in
  let f' := wrap32 (f + a + nth i sines 0 + nth (Z.to_nat g) m 0) in
  State d (wrap32 (b + rotl32 f' (nth i shifts 0))) b c.

Definition compress (st : state) (block : list Z) : state :=
  let m := words 16 block in
  let '(State a b c d) := foldl (step m) st (seq 0 64) in
  State (wrap32 (sa st + a)) (wrap32 (sb st + b))
        (wrap32 (sc st + c)) (wrap32 (sd st + d)).

Fixpoint blocks (n : nat) (st : state) (bytes : list Z) : state :=
  match n with
  | O => st
  | S n' => blocks n' (compress st (take 64 bytes)) (drop 64 bytes)
  end.

(** The sixteen bytes of the digest. *)
Definition digest (msg : list Z) : list Z :=
  let p := pad msg in
  let '(State a b c d) := blocks (length p / 64)%nat init p in
  le_bytes 4 a ++ le_bytes 4 b ++ le_bytes 4 c ++ le_bytes 4 d.

Definition hex_digit (n : Z) : ascii :=
  nth (Z.to_nat n) $"0123456789abcdef" "0"%char.

Definition hex (bytes : list Z) : str :=
  flat_map (fun b => [hex_digit (Z.shiftr b 4); hex_digit (Z.land b 0xf)]) bytes.
End Md5.

(** UTF-8 encoding of a string whose code units are below 256. *)
Definition utf8 (s : str) : list Z :=
  flat_map (fun c =>
    let n := code_unit c in
    if (n <? 128)%Z then [n]
    else [Z.lor 0xc0 (Z.shiftr n 6); Z.lor 0x80 (Z.land n 0x3f)]) s.

(** [createHash('md5').update(text).digest('hex').slice(0, 8)] *)
Definition hashText (text : str) : str :=
  slice (Md5.hex (Md5.digest (utf8 text))) 0 8.

(** ** The regular expression of [removeImport]

    The pattern is: import, white space, an opening brace, optional
    white space, css, optional white space, a closing brace, white space,
    from, white space, a single or double quote, ecij, a single or double
    quote, an optional semicolon, optional white space; flag g.  Every
    quantified white-space run is followed by a code unit that is not white
    space (or by the end of the pattern), so the greedy choice is the only
    one that can succeed and the matcher never backtracks. *)

Definition DQUOTE : ascii := "034"%char.
Definition LF : ascii := "010"%char.

Definition lit (p : str) (s : str) : option str :=
  if startsWith p s then Some (drop (length p) s) else None.

(** zero or more white-space code units *)
Definition spaces (s : str) : option str := Some (trimStart s).

(** one or more white-space code units *)
Definition spaces1 (s : str) : option str :=
  match s with
  | c :: s' => if is_space c then Some (trimStart s') else None
  | [] => None
  end.

(** a single or a double quote *)
Definition quote_mark (s : str) : option str :=
  match s with
  | c :: s' =>
      if ascii_dec c "'"%char then Some s'
      else if ascii_dec c DQUOTE then Some s'
      else None
  | [] => None
  end.

(** an optional semicolon *)
Definition semicolon_opt (s : str) : option str :=
  match s with
  | c :: s' => if ascii_dec c ";"%char then Some s' else Some s
  | [] => Some s
  end.

(** A match of the whole pattern at the head of [s]; the result is the
    text after the match. *)
Definition import_pattern : list (str -> option str) :=
  [lit $"import"; spaces1; lit $"{"; spaces; lit $"css"; spaces; lit $"}";
   spaces1; lit $"from"; spaces1; quote_mark; lit $"ecij"; quote_mark;
   semicolon_opt; spaces].

Definition match_import (s : str) : option str :=
  foldl (fun r atom => r ≫= atom) (Some s) import_pattern.

(** [code.replace(re, '')] with the [g] flag: matches are found from left
    to right and deleted; [skip] counts the code units of the current
    match still to be dropped. *)
Fixpoint delete_matches (skip : nat) (s : str) : str :=
  match s with
  | [] => []
  | c :: s' =>
      match skip with
      | S k => delete_matches k s'
      | O =>
          match match_import s with
          | Some rest =>
              match length s - length rest with
              | S k => delete_matches k s'
              | O => c :: delete_matches 0 s'
              end
          | None => c :: delete_matches 0 s'
          end
      end
  end.

(** Removes the import statement for 'ecij' *)
Definition removeImport (code : str) : str := delete_matches 0 code.

(** ** [JSON.stringify] of a string and [addCssImport] *)

Definition json_escape (c : ascii) : str :=
  let n := code_unit c in
  if ascii_dec c DQUOTE then ["\"%char; DQUOTE]
  else if ascii_dec c "\"%char then $"\\"
  else if (n =? 8)%Z then $"\b"
  else if (n =? 9)%Z then $"\t"
  else if (n =? 10)%Z then $"\n"
  else if (n =? 12)%Z then $"\f"
  else if (n =? 13)%Z then $"\r"
  else if (n <? 32)%Z then
    $"\u00" ++ [Md5.hex_digit (Z.shiftr n 4); Md5.hex_digit (Z.land n 0xf)]
  else [c].

Definition JSON_stringify (s : str) : str :=
  [DQUOTE] ++ flat_map json_escape s ++ [DQUOTE].

(** Adds import for CSS module at the top of the file *)
Definition addCssImport (code cssModuleId : str) : str :=
  $"import " ++ JSON_stringify cssModuleId ++ $";" ++ [LF; LF] ++ code.

(** ** The parser's result

    The syntax tree of [oxc-parser], reduced to the node kinds the plugin
    looks at.  [ref] is the identity of a tagged-template node object: it
    is what [Set<TaggedTemplateExpression>] compares.  [quasis] holds the
    raw text of the template elements. *)

Inductive LiteralValue :=
  | StringValue (value : str)
  | NumberValue (rendered : str) (* the text [String(value)] of a number *)
  | OtherValue.                  (* boolean, null, bigint, regular expression *)

#[local] Unset Elimination Schemes.
Inductive Node :=
  | Identifier (name : str)
  | Literal (value : LiteralValue)
  | TaggedTemplateExpression
      (ref start end_ : nat) (tag : Node) (quasis : list str) (expressions : list Node)
  | VariableDeclarator (id : Node) (init : option Node)
  | Other (children : list Node).
#[local] Set Elimination Schemes.

(** [entry.importName] of a static import entry *)
Inductive ImportImportName :=
  | ImportName (name : str)
  | ImportNamespaceObject
  | ImportDefault.

Record ImportEntry := {
  import_importName : ImportImportName;
  import_localName : str;
}.

Record StaticImport := {
  moduleRequest : str;
  import_entries : list ImportEntry;
}.

(** [entry.importName], [entry.exportName] and [entry.localName] of a
    static export entry *)
Inductive ExportImportName :=
  | ExportImportName_Name (name : str)
  | ExportImportName_All
  | ExportImportName_AllButDefault
  | ExportImportName_None.

Inductive ExportExportName :=
  | ExportExportName_Name (name : str)
  | ExportExportName_Default
  | ExportExportName_None.

Inductive ExportLocalName :=
  | ExportLocalName_Name (name : str)
  | ExportLocalName_Default
  | ExportLocalName_None.

Record ExportEntry := {
  export_importName : ExportImportName;
  export_exportName : ExportExportName;
  export_localName : ExportLocalName;
}.

Record StaticExport := {
  export_entries : list ExportEntry;
}.

Record ParseResult := {
  program : Node;
  staticImports : list StaticImport;
  staticExports : list StaticExport;
}.

Definition node_start (n : Node) : nat :=
  match n with TaggedTemplateExpression _ s _ _ _ _ => s | _ => 0 end.
Definition node_end (n : Node) : nat :=
  match n with TaggedTemplateExpression _ _ e _ _ _ => e | _ => 0 end.
Definition node_quasis (n : Node) : list str :=
  match n with TaggedTemplateExpression _ _ _ _ q _ => q | _ => [] end.
Definition node_expressions (n : Node) : list Node :=
  match n with TaggedTemplateExpression _ _ _ _ _ e => e | _ => [] end.

(** ** Data model of the plugin *)

Record Configuration := {
  classPrefix : str;
}.

Definition defaultConfiguration : Configuration := {| classPrefix := $"css-" |}.

Record Declaration := {
  className : str;
  node : Node;
  hasInterpolations : bool;
}.

Record ImportedIdentifier := {
  source : str;
  imported : str;
}.

Record ParsedFileInfo := {
  declarations : list Declaration;
  localIdentifiers : gmap str str;
  importedIdentifiers : gmap str ImportedIdentifier;
  exportNameToValueMap : gmap str str;
}.

(** The host: project root, path arithmetic, the parser, the file system
    and the module resolver.  [None] from [parseSync] or [readFile] is a
    thrown error; [None] from [resolve] is [null]. *)
Class Host := {
  PROJECT_ROOT : str;
  relative : str -> str -> str;
  parseSync : str -> str -> option ParseResult;
  readFile : str -> option str;
  resolve : str -> str -> option str;
}.

(** ** File analysis: the body of [parseFile] after parsing *)

(** Collect imports *)
Definition collectImports (imports : list StaticImport) : gmap str ImportedIdentifier :=
  foldl (fun m staticImport =>
    foldl (fun m entry =>
      match import_importName entry with
      | ImportName name =>
          <[import_localName entry := {| source := moduleRequest staticImport;
                                         imported := name |}]> m
      | _ => m
      end) m (import_entries staticImport)) ∅ imports.

(** Collect exports: [localNameToExportedNameMap] *)
Definition collectExportEntry (m : gmap str str) (entry : ExportEntry) : gmap str str :=
  match export_importName entry with
  | ExportImportName_None =>
      match export_exportName entry, export_localName entry with
      | ExportExportName_Name exportedName, ExportLocalName_Name localName =>
          <[localName := exportedName]> m
      | _, _ => m
      end
  | _ => m
  end.

Definition collectExports (exports : list StaticExport) : gmap str str :=
  foldl (fun m staticExport => foldl collectExportEntry m (export_entries staticExport))
        ∅ exports.

(** The mutable locals of [parseFile] that the visitor updates. *)
Record Walk := {
  w_declarations : list Declaration;
  w_localIdentifiers : gmap str str;
  w_exportNameToValueMap : gmap str str;
  taggedTemplateExpressionFromVariableDeclarator : gset nat;
}.

Definition emptyWalk : Walk := {|
  w_declarations := [];
  w_localIdentifiers := ∅;
  w_exportNameToValueMap := ∅;
  taggedTemplateExpressionFromVariableDeclarator := ∅;
|}.

(** The text of [localName] in a template: the name, or [undefined]. *)
Definition nameText (localName : option str) : str :=
  match localName with
  | Some name => name
  | None => $"undefined"
  end.

Definition classKey (relativePath : str) (index : nat) (localName : option str) : str :=
  relativePath ++ $":" ++ decimal index ++ $":" ++ nameText localName.

Definition isCssTag (tag : Node) : bool :=
  match tag with
  | Identifier name => bool_decide (name = $"css")
  | _ => false
  end.

Section Analysis.
Context (config : Configuration).
Context (relativePath : str) (localNameToExportedNameMap : gmap str str).

Definition generateClassName (index : nat) (localName : option str) : str :=
  classPrefix config ++ hashText (classKey relativePath index localName).

Definition recordIdentifierWithValue (localName value : str) (w : Walk) : Walk :=
  {| w_declarations := w_declarations w;
     w_localIdentifiers := <[localName := value]> (w_localIdentifiers w);
     w_exportNameToValueMap :=
       match localNameToExportedNameMap !! localName with
       | Some exportedName => <[exportedName := value]> (w_exportNameToValueMap w)
       | None => w_exportNameToValueMap w
       end;
     taggedTemplateExpressionFromVariableDeclarator :=
       taggedTemplateExpressionFromVariableDeclarator w |}.

Definition pushDeclaration (d : Declaration) (w : Walk) : Walk :=
  {| w_declarations := w_declarations w ++ [d];
     w_localIdentifiers := w_localIdentifiers w;
     w_exportNameToValueMap := w_exportNameToValueMap w;
     taggedTemplateExpressionFromVariableDeclarator :=
       taggedTemplateExpressionFromVariableDeclarator w |}.

Definition handleTaggedTemplateExpression
    (localName : option str) (n : Node) (w : Walk) : Walk :=
  match n with
  | TaggedTemplateExpression _ _ _ tag _ expressions =>
      if isCssTag tag then
        let index := length (w_declarations w) in
        let className := generateClassName index localName in
        let w := pushDeclaration
                   {| className := className;
                      node := n;
                      hasInterpolations := bool_decide (0 < length expressions) |} w in
        match localName with
        | Some name => recordIdentifierWithValue name className w
        | None => w
        end
      else w
  | _ => w
  end.

Definition addFromVariableDeclarator (r : nat) (w : Walk) : Walk :=
  {| w_declarations := w_declarations w;
     w_localIdentifiers := w_localIdentifiers w;
     w_exportNameToValueMap := w_exportNameToValueMap w;
     taggedTemplateExpressionFromVariableDeclarator :=
       {[r]} ∪ taggedTemplateExpressionFromVariableDeclarator w |}.

(** The [VariableDeclarator] callback of the visitor. *)
Definition onVariableDeclarator (id : Node) (init : option Node) (w : Walk) : Walk :=
  match init, id with
  | Some init, Identifier localName =>
      match init with
      | TaggedTemplateExpression r _ _ _ _ _ =>
          handleTaggedTemplateExpression (Some localName) init
            (addFromVariableDeclarator r w)
      | Literal (StringValue value) => recordIdentifierWithValue localName value w
      | Literal (NumberValue rendered) => recordIdentifierWithValue localName rendered w
      | _ => w
      end
  | _, _ => w
  end.

(** The [TaggedTemplateExpression] callback of the visitor. *)
Definition onTaggedTemplateExpression (n : Node) (w : Walk) : Walk :=
  match n with
  | TaggedTemplateExpression r _ _ _ _ _ =>
      if bool_decide (r ∈ taggedTemplateExpressionFromVariableDeclarator w) then w
      else handleTaggedTemplateExpression None n w
  | _ => w
  end.

(** [visitor.visit]: every node is entered before its children, and the
    children are walked in source order. *)
Fixpoint visit (n : Node) (w : Walk) : Walk :=
  let visitAll := fix visitAll (l : list Node) (w : Walk) : Walk :=
    match l with
    | [] => w
    | m :: l' => visitAll l' (visit m w)
    end in
  match n with
  | Identifier _ | Literal _ => w
  | TaggedTemplateExpression _ _ _ tag _ expressions =>
      visitAll expressions (visit tag (onTaggedTemplateExpression n w))
  | VariableDeclarator id init =>
      let w := visit id (onVariableDeclarator id init w) in
      match init with
      | Some i => visit i w
      | None => w
      end
  | Other children => visitAll children w
  end.

Definition visitAll : list Node -> Walk -> Walk :=
  fix visitAll (l : list Node) (w : Walk) : Walk :=
    match l with
    | [] => w
    | m :: l' => visitAll l' (visit m w)
    end.
End Analysis.

Definition analyze (config : Configuration) (relativePath : str)
    (parseResult : ParseResult) : ParsedFileInfo :=
  let importedIdentifiers := collectImports (staticImports parseResult) in
  let localNameToExportedNameMap := collectExports (staticExports parseResult) in
  let w := visit config relativePath localNameToExportedNameMap
             (program parseResult) emptyWalk in
  {| declarations := w_declarations w;
     localIdentifiers := w_localIdentifiers w;
     importedIdentifiers := importedIdentifiers;
     exportNameToValueMap := w_exportNameToValueMap w |}.

(** ** Plugin state and the monad of the hooks

    The two [Map]s created by [ecij()] are the state; a computation either
    returns a value or throws, and in both cases leaves a state behind. *)

Record PluginState := {
  parsedFileInfoCache : gmap str ParsedFileInfo;
  extractedCssPerFile : gmap str str;
}.

Definition initialState : PluginState :=
  {| parsedFileInfoCache := ∅; extractedCssPerFile := ∅ |}.

Definition M (A : Type) : Type := PluginState -> option A * PluginState.

#[global] Instance M_ret : MRet M := fun A x st => (Some x, st).

#[global] Instance M_bind : MBind M := fun A B f m st =>
  match m st with
  | (Some x, st') => f x st'
  | (None, st') => (None, st')
  end.

Definition throw {A} : M A := fun st => (None, st).

(** A value of the host that may be a thrown error. *)
Definition orThrow {A} (o : option A) : M A :=
  match o with
  | Some x => mret x
  | None => throw
  end.

Definition cacheGet (filePath : str) : M (option ParsedFileInfo) :=
  fun st => (Some (parsedFileInfoCache st !! filePath), st).

(** [parsedFileInfoCache.set(filePath, info)] *)
Definition setCache (filePath : str) (info : ParsedFileInfo) (st : PluginState) : PluginState :=
  {| parsedFileInfoCache := <[filePath := info]> (parsedFileInfoCache st);
     extractedCssPerFile := extractedCssPerFile st |}.

(** [extractedCssPerFile.set(id, css)] *)
Definition setExtractedCss (id css : str) (st : PluginState) : PluginState :=
  {| parsedFileInfoCache := parsedFileInfoCache st;
     extractedCssPerFile := <[id := css]> (extractedCssPerFile st) |}.

Definition cacheSet (filePath : str) (info : ParsedFileInfo) : M unit :=
  fun st => (Some tt, setCache filePath info st).

Definition extractedCssSet (id css : str) : M unit :=
  fun st => (Some tt, setExtractedCss id css st).

(** [array.sort(cmp)]: the stable sort. *)
Fixpoint insertSorted {A} (cmp : A -> A -> Z) (x : A) (l : list A) : list A :=
  match l with
  | [] => [x]
  | y :: l' => if (cmp x y <=? 0)%Z then x :: l else y :: insertSorted cmp x l'
  end.

Fixpoint sort {A} (cmp : A -> A -> Z) (l : list A) : list A :=
  match l with
  | [] => []
  | x :: l' => insertSorted cmp x (sort cmp l')
  end.

Module CssExtraction.
Record t := {
  className : str;
  cssContent : str;
  sourcePosition : nat;
}.
End CssExtraction.

Module Replacement.
Record t := {
  start : nat;
  end_ : nat;
  className : str;
}.
End Replacement.

(** The two arrays filled by [addProcessedDeclaration]. *)
Record Processed := {
  cssExtractions : list CssExtraction.t;
  replacements : list Replacement.t;
}.

Record Extraction := {
  transformedCode : str;
  hasExtractions : bool;
  cssContent : str;
  hasUnprocessedCssBlocks : bool;
}.

(** Helper to add a processed CSS declaration *)
Definition addProcessedDeclaration (declaration : Declaration) (cssContent : str)
    (acc : Processed) : Processed :=
  {| cssExtractions := cssExtractions acc ++
       [{| CssExtraction.className := className declaration;
           CssExtraction.cssContent := trim cssContent;
           CssExtraction.sourcePosition := node_start (node declaration) |}];
     replacements := replacements acc ++
       [{| Replacement.start := node_start (node declaration);
           Replacement.end_ := node_end (node declaration);
           Replacement.className := className declaration |}] |}.

(** One step of the replacement loop: the text before [start], the quoted
    class name, the text from [end]. *)
Definition splice (transformedCode : str) (r : Replacement.t) : str :=
  slice transformedCode 0 (Replacement.start r)
    ++ $"'" ++ Replacement.className r ++ $"'"
    ++ slice_from transformedCode (Replacement.end_ r).

Definition applyReplacements (code : str) (sorted : list Replacement.t) : str :=
  foldl splice code sorted.

Definition sortReplacements (l : list Replacement.t) : list Replacement.t :=
  sort (fun a b => (Z.of_nat (Replacement.start b) - Z.of_nat (Replacement.start a))%Z) l.

Definition sortExtractions (l : list CssExtraction.t) : list CssExtraction.t :=
  sort (fun a b => (Z.of_nat (CssExtraction.sourcePosition a)
                    - Z.of_nat (CssExtraction.sourcePosition b))%Z) l.

Definition renderBlock (e : CssExtraction.t) : str :=
  $"." ++ CssExtraction.className e ++ $" {" ++ [LF] ++ $"  "
    ++ CssExtraction.cssContent e ++ [LF] ++ $"}".

(** Generate CSS module content *)
Definition cssBlocks (sorted : list CssExtraction.t) : list str :=
  map renderBlock
    (filter (fun e => CssExtraction.cssContent e ≠ []) sorted).

(** Remove query parameters from the ID *)
Definition removeQuery (id : str) : str :=
  match indexOf id "?"%char with
  | None => id
  | Some queryIndex => slice id 0 queryIndex
  end.

Section Plugin.
Context `{Host} (config : Configuration).

(** Convert absolute path to project-relative path and normalize to
    Unix format *)
Definition toRelativePath (filePath : str) : str :=
  replaceAll (relative PROJECT_ROOT filePath) "\"%char "/"%char.

(** Parses a file and extracts all relevant information in a single pass *)
Definition parseFile (filePath : str) (code : option str) : M ParsedFileInfo :=
  cached ← cacheGet filePath;
  match code, cached with
  | None, Some parsedInfo => mret parsedInfo
  | _, _ =>
      let relativePath := toRelativePath filePath in
      sourceText ← match code with
                   | Some code => mret code
                   | None => orThrow (readFile filePath)
                   end;
      parseResult ← orThrow (parseSync filePath sourceText);
      let parsedInfo := analyze config relativePath parseResult in
      _ ← cacheSet filePath parsedInfo;
      mret parsedInfo
  end.

Section Extract.
Context (filePath : str) (info : ParsedFileInfo).

(** Helper to resolve a value from an identifier *)
Definition resolveValue (identifierName : str) : M (option str) :=
  match localIdentifiers info !! identifierName with
  | Some value => mret (Some value)
  | None =>
      match importedIdentifiers info !! identifierName with
      | Some entry =>
          match resolve (source entry) filePath with
          | Some resolvedId =>
              target ← parseFile resolvedId None;
              mret (exportNameToValueMap target !! imported entry)
          | None => mret None
          end
      | None => mret None
      end
  end.

(** The inner loop of pass 2 over [quasis] and [expressions]; the
    result is the content, or [None] when [allResolved] is false. *)
Fixpoint interpolate (quasis : list str) (expressions : list Node)
    (cssContent : str) : M (option str) :=
  match quasis with
  | [] => mret (Some cssContent)
  | quasi :: quasis' =>
      let cssContent := cssContent ++ quasi in
      match expressions with
      | [] => interpolate quasis' [] cssContent
      | Identifier identifierName :: expressions' =>
          resolvedValue ← resolveValue identifierName;
          match resolvedValue with
          | Some value => interpolate quasis' expressions' (cssContent ++ value)
          | None => mret None
          end
      | _ :: _ => mret None
      end
  end.

(** Pass 1: No interpolations *)
Fixpoint pass1 (ds : list Declaration) (acc : Processed) : M Processed :=
  match ds with
  | [] => mret acc
  | declaration :: ds' =>
      if hasInterpolations declaration then pass1 ds' acc
      else
        match node_quasis (node declaration) with
        | quasi :: _ => pass1 ds' (addProcessedDeclaration declaration quasi acc)
        | [] => throw
        end
  end.

(** Pass 2: With interpolations using resolved local references *)
Fixpoint pass2 (ds : list Declaration) (acc : Processed) : M Processed :=
  match ds with
  | [] => mret acc
  | declaration :: ds' =>
      if hasInterpolations declaration then
        resolved ← interpolate (node_quasis (node declaration))
                               (node_expressions (node declaration)) [];
        match resolved with
        | Some cssContent =>
            pass2 ds' (addProcessedDeclaration declaration cssContent acc)
        | None => pass2 ds' acc
        end
      else pass2 ds' acc
  end.
End Extract.

(** The end of [extractCssFromCode], once both passes have run. *)
Definition finishExtraction (code : str) (declarations : list Declaration)
    (acc : Processed) : Extraction :=
  if bool_decide (length (replacements acc) = 0) then
    {| transformedCode := code;
       hasExtractions := false;
       cssContent := [];
       hasUnprocessedCssBlocks := false |}
  else
    {| transformedCode := applyReplacements code (sortReplacements (replacements acc));
       hasExtractions := true;
       cssContent := join [LF; LF] (cssBlocks (sortExtractions (cssExtractions acc)));
       hasUnprocessedCssBlocks :=
         bool_decide (length (replacements acc) < length declarations) |}.

(** Extracts CSS from template literals in the source code *)
Definition extractCssFromCode (code filePath : str) : M Extraction :=
  info ← parseFile filePath (Some code);
  acc ← pass1 (declarations info) {| cssExtractions := []; replacements := [] |};
  acc ← pass2 filePath info (declarations info) acc;
  mret (finishExtraction code (declarations info) acc).

(** [buildEnd]: Clear caches between builds *)
Definition buildEnd : M unit :=
  fun _ => (Some tt, initialState).

(** [resolveId]: [Some id] stands for the object holding [id], [None] for [null]. *)
Definition resolveId (id : str) : M (option str) :=
  fun st => (Some (if bool_decide (is_Some (extractedCssPerFile st !! id))
                   then Some id else None), st).

(** [load] *)
Definition load (id : str) : M (option str) :=
  fun st => (Some (extractedCssPerFile st !! id), st).

(** [transform.handler]; [None] in the result stands for [null]. *)
Definition handler (code id : str) : M (option str) :=
  let cleanId := removeQuery id in
  if negb (includes code $"ecij") then mret None
  else
    r ← extractCssFromCode code cleanId;
    if negb (hasExtractions r) then mret None
    else
      finalCode ←
        (if bool_decide (cssContent r ≠ []) then
           let hash := hashText (cssContent r) in
           let cssModuleId := cleanId ++ $"." ++ hash ++ $".css" in
           _ ← extractedCssSet cssModuleId (cssContent r);
           mret (addCssImport (transformedCode r) cssModuleId)
         else mret (transformedCode r));
      mret (Some (if negb (hasUnprocessedCssBlocks r) then removeImport finalCode
                  else finalCode)).
End Plugin.

(** * Specification-side definitions *)

(** The class name of the declaration at position [i] is the one
    generated for [i] and some variable name. *)
Definition namedByPosition (config : Configuration) (relativePath : str) (w : Walk) : Prop :=
  forall i d, w_declarations w !! i = Some d ->
    exists localName, className d = generateClassName config relativePath i localName.

(** ** Counting the tagged templates of a tree *)

(** The number of tagged-template nodes of [n] whose tag is the
    identifier [css]. *)
Fixpoint cssTaggedCount (n : Node) : nat :=
  match n with
  | Identifier _ | Literal _ => 0
  | TaggedTemplateExpression _ _ _ tag _ expressions =>
      (if isCssTag tag then 1 else 0) + cssTaggedCount tag
        + sum_list (cssTaggedCount <$> expressions)
  | VariableDeclarator id init => cssTaggedCount id + from_option cssTaggedCount 0 init
  | Other children => sum_list (cssTaggedCount <$> children)
  end.

(** The identities of the tagged-template nodes of [n].  In the tree the
    parser builds every node is an object of its own: the identities are
    pairwise different. *)
Fixpoint taggedRefs (n : Node) : list nat :=
  match n with
  | Identifier _ | Literal _ => []
  | TaggedTemplateExpression r _ _ tag _ expressions =>
      r :: taggedRefs tag ++ (expressions ≫= taggedRefs)
  | VariableDeclarator id init => taggedRefs id ++ from_option taggedRefs [] init
  | Other children => children ≫= taggedRefs
  end.

(** ** Example files *)

(** A host over a fixed project: [disk] maps paths to texts, [parses]
    maps texts to what the parser makes of them, [resolutions] maps module
    specifiers to paths.  The files of the examples all lie under the
    root, where [relative] drops the root and the separator after it. *)
Fixpoint assoc {A} (key : str) (table : list (str * A)) : option A :=
  match table with
  | [] => None
  | (k, v) :: table' => if bool_decide (k = key) then Some v else assoc key table'
  end.

Definition projectHost (disk : list (str * str)) (parses : list (str * ParseResult))
    (resolutions : list (str * str)) : Host :=
  {| PROJECT_ROOT := $"/proj";
     relative := fun root filePath => drop (S (length root)) filePath;
     parseSync := fun _ sourceText => assoc sourceText parses;
     readFile := fun filePath => assoc filePath disk;
     resolve := fun specifier _ => assoc specifier resolutions |}.

(** [/proj/src/a.ts]: one declaration without interpolation. *)
Definition basicText : str :=
  $"import { css } from 'ecij';" ++ [LF] ++ $"const a = css`color: red;`;" ++ [LF].

Definition basicFile : ParseResult :=
  {| program :=
       Other [Other [VariableDeclarator (Identifier $"a")
         (Some (TaggedTemplateExpression 1 38 54 (Identifier $"css") [$"color: red;"] []))]];
     staticImports :=
       [{| moduleRequest := $"ecij";
           import_entries := [{| import_importName := ImportName $"css";
                                 import_localName := $"css" |}] |}];
     staticExports := [] |}.

Definition basicHost : Host := projectHost [] [(basicText, basicFile)] [].

(** A file with twenty-three declarations, each in a scope of its own;
    the declarations at positions 15 and 22 are both bound to the name
    [a]. *)
Definition collidingProgram : Node :=
  Other (map (fun i =>
    Other [VariableDeclarator
             (Identifier (if bool_decide (i = 15 \/ i = 22) then $"a"
                          else $"v" ++ decimal i))
             (Some (TaggedTemplateExpression i (100 * i + 10) (100 * i + 20)
                      (Identifier $"css") [$"color: red;"] []))])
    (seq 0 23)).

Definition collidingFile : ParseResult :=
  {| program := collidingProgram; staticImports := []; staticExports := [] |}.

(** ** Manual substitution

    The rewritten text as the specification describes it: reading the
    original text from left to right from [pos] on, with the ranges of
    [ascending] taken in the order of the list, the text between two
    ranges is copied and every range is replaced by its quoted class
    name. *)

Fixpoint substitute (code : str) (pos : nat) (ascending : list Replacement.t) : str :=
  match ascending with
  | [] => slice_from code pos
  | r :: rest =>
      slice code pos (Replacement.start r)
        ++ $"'" ++ Replacement.className r ++ $"'"
        ++ substitute code (Replacement.end_ r) rest
  end.

(** Two ranges that share no offset. *)
Definition disjointRanges (a b : Replacement.t) : Prop :=
  Replacement.end_ a <= Replacement.start b \/ Replacement.end_ b <= Replacement.start a.

(** Ranges of the text that are not empty and pairwise disjoint. *)
Fixpoint pairwiseDisjoint (l : list Replacement.t) : Prop :=
  match l with
  | [] => True
  | r :: l' => Forall (disjointRanges r) l' /\ pairwiseDisjoint l'
  end.

Definition nonOverlapping (code : str) (l : list Replacement.t) : Prop :=
  Forall (fun r => Replacement.start r < Replacement.end_ r <= length code) l /\
  pairwiseDisjoint l.

(** The ranges of [ascending] follow each other from [pos] on. *)
Fixpoint chained (code : str) (pos : nat) (ascending : list Replacement.t) : Prop :=
  match ascending with
  | [] => pos <= length code
  | r :: rest =>
      pos <= Replacement.start r /\ Replacement.start r <= Replacement.end_ r /\
      chained code (Replacement.end_ r) rest
  end.

(** The orders of the two sorts. *)
Definition ascendingStart : relation Replacement.t :=
  fun a b => (Z.of_nat (Replacement.start a) - Z.of_nat (Replacement.start b) <= 0)%Z.

Definition descendingStart : relation Replacement.t :=
  fun a b => (Z.of_nat (Replacement.start b) - Z.of_nat (Replacement.start a) <= 0)%Z.

(** A text with three declarations, recorded out of source order as the
    two passes do. *)
Definition threeSitesText : str :=
  $"const a = css`x`; const b = css`${a}`; const c = css`z`;".

Definition threeSites : list Replacement.t :=
  [{| Replacement.start := 10; Replacement.end_ := 16; Replacement.className := $"css-aaaaaaaa" |};
   {| Replacement.start := 49; Replacement.end_ := 55; Replacement.className := $"css-cccccccc" |};
   {| Replacement.start := 28; Replacement.end_ := 37; Replacement.className := $"css-bbbbbbbb" |}].

(** [src/mixed.ts]: a declaration bound to a variable, one that is not
    bound, one nested in an interpolation of a third, bound by a
    destructuring pattern, and a template with another tag. *)
Definition mixedFile : ParseResult :=
  {| program :=
       Other
         [VariableDeclarator (Identifier $"a")
            (Some (TaggedTemplateExpression 1 10 20 (Identifier $"css") [$"x"] []));
          Other [TaggedTemplateExpression 2 30 40 (Identifier $"css") [$"y"] []];
          VariableDeclarator (Other [Identifier $"b"])
            (Some (TaggedTemplateExpression 3 50 80 (Identifier $"css") [$"p"; $"q"]
                     [TaggedTemplateExpression 4 60 70 (Identifier $"css") [$"z"] []]));
          VariableDeclarator (Identifier $"c")
            (Some (TaggedTemplateExpression 5 90 99 (Identifier $"html") [$"w"] []))];
     staticImports := [];
     staticExports := [] |}.

(** The file exports [name], if at all, through re-exports only. *)
Definition onlyReexported (parseResult : ParseResult) (name : str) : Prop :=
  Forall (fun staticExport =>
    Forall (fun entry =>
      export_exportName entry = ExportExportName_Name name ->
      export_importName entry <> ExportImportName_None)
      (export_entries staticExport))
    (staticExports parseResult).

(** [/proj/src/main.ts] interpolates [x], imported from [./lib];
    [/proj/src/lib.ts] re-exports [x] from [./deep];
    [/proj/src/deep.ts] defines [x]. *)
Definition mainText : str :=
  $"import { css } from 'ecij';" ++ [LF] ++ $"import { x } from './lib';" ++ [LF]
    ++ $"export const m = css`color: ${x};`;" ++ [LF].

Definition mainFile : ParseResult :=
  {| program :=
       Other [Other [VariableDeclarator (Identifier $"m")
         (Some (TaggedTemplateExpression 1 72 89 (Identifier $"css") [$"color: "; $";"]
                  [Identifier $"x"]))]];
     staticImports :=
       [{| moduleRequest := $"ecij";
           import_entries := [{| import_importName := ImportName $"css";
                                 import_localName := $"css" |}] |};
        {| moduleRequest := $"./lib";
           import_entries := [{| import_importName := ImportName $"x";
                                 import_localName := $"x" |}] |}];
     staticExports :=
       [{| export_entries := [{| export_importName := ExportImportName_None;
                                 export_exportName := ExportExportName_Name $"m";
                                 export_localName := ExportLocalName_Name $"m" |}] |}] |}.

Definition libText : str := $"export { x } from './deep';" ++ [LF].

Definition libFile : ParseResult :=
  {| program := Other [];
     staticImports := [];
     staticExports :=
       [{| export_entries := [{| export_importName := ExportImportName_Name $"x";
                                 export_exportName := ExportExportName_Name $"x";
                                 export_localName := ExportLocalName_None |}] |}] |}.

Definition deepText : str := $"export const x = 'red';" ++ [LF].

Definition deepFile : ParseResult :=
  {| program :=
       Other [Other [VariableDeclarator (Identifier $"x") (Some (Literal (StringValue $"red")))]];
     staticImports := [];
     staticExports :=
       [{| export_entries := [{| export_importName := ExportImportName_None;
                                 export_exportName := ExportExportName_Name $"x";
                                 export_localName := ExportLocalName_Name $"x" |}] |}] |}.

Definition reexportHost : Host :=
  projectHost
    [($"/proj/src/lib.ts", libText); ($"/proj/src/deep.ts", deepText)]
    [(mainText, mainFile); (libText, libFile); (deepText, deepFile)]
    [($"./lib", $"/proj/src/lib.ts"); ($"./deep", $"/proj/src/deep.ts")].

(** ** The traversal as a sequence of callbacks

    The callbacks the visitor invokes on a tree, in order. *)
Inductive VisitorEvent :=
  | EnterVariableDeclarator (id : Node) (init : option Node)
  | EnterTaggedTemplateExpression (n : Node).

Fixpoint events (n : Node) : list VisitorEvent :=
  match n with
  | Identifier _ | Literal _ => []
  | TaggedTemplateExpression _ _ _ tag _ expressions =>
      EnterTaggedTemplateExpression n :: events tag ++ (expressions ≫= events)
  | VariableDeclarator id init =>
      EnterVariableDeclarator id init :: events id ++ from_option events [] init
  | Other children => children ≫= events
  end.

Definition dispatch (config : Configuration) (relativePath : str)
    (exported : gmap str str) (w : Walk) (event : VisitorEvent) : Walk :=
  match event with
  | EnterVariableDeclarator id init =>
      onVariableDeclarator config relativePath exported id init w
  | EnterTaggedTemplateExpression n =>
      onTaggedTemplateExpression config relativePath exported n w
  end.

(** The local name for which a callback records a value, if any. *)
Definition recordedName (event : VisitorEvent) : option str :=
  match event with
  | EnterVariableDeclarator (Identifier name) (Some (TaggedTemplateExpression _ _ _ tag _ _)) =>
      if isCssTag tag then Some name else None
  | EnterVariableDeclarator (Identifier name) (Some (Literal (StringValue _))) => Some name
  | EnterVariableDeclarator (Identifier name) (Some (Literal (NumberValue _))) => Some name
  | _ => None
  end.

(** No callback of [after] records a value for [name], or for a local
    that is exported as [exportedName]. *)
Definition notRebound (name : str) (after : list VisitorEvent) : Prop :=
  Forall (fun event => recordedName event <> Some name) after.

Definition notReexported (exported : gmap str str) (exportedName : str)
    (after : list VisitorEvent) : Prop :=
  Forall (fun event => forall localName,
            recordedName event = Some localName ->
            exported !! localName <> Some exportedName) after.

(** [/proj/src/theme.ts] exports a declaration whose interpolation is a
    conditional expression; [/proj/src/card.ts] interpolates the exported
    name. *)
Definition themeText : str :=
  $"import { css } from 'ecij';" ++ [LF]
    ++ $"export const accent = css`color: ${Math.random() > 0.5 ? 'red' : 'blue'};`;" ++ [LF].

Definition themeFile : ParseResult :=
  {| program :=
       Other [Other [VariableDeclarator (Identifier $"accent")
         (Some (TaggedTemplateExpression 1 50 102 (Identifier $"css") [$"color: "; $";"]
                  [Other [Other [Other []; Literal (NumberValue $"0.5")];
                          Literal (StringValue $"red"); Literal (StringValue $"blue")]]))]];
     staticImports :=
       [{| moduleRequest := $"ecij";
           import_entries := [{| import_importName := ImportName $"css";
                                 import_localName := $"css" |}] |}];
     staticExports :=
       [{| export_entries := [{| export_importName := ExportImportName_None;
                                 export_exportName := ExportExportName_Name $"accent";
                                 export_localName := ExportLocalName_Name $"accent" |}] |}] |}.

Definition cardText : str :=
  $"import { css } from 'ecij';" ++ [LF] ++ $"import { accent } from './theme';" ++ [LF]
    ++ $"export const card = css`&.${accent} { margin: 0; }`;" ++ [LF].

Definition cardFile : ParseResult :=
  {| program :=
       Other [Other [VariableDeclarator (Identifier $"card")
         (Some (TaggedTemplateExpression 1 82 113 (Identifier $"css") [$"&."; $" { margin: 0; }"]
                  [Identifier $"accent"]))]];
     staticImports :=
       [{| moduleRequest := $"ecij";
           import_entries := [{| import_importName := ImportName $"css";
                                 import_localName := $"css" |}] |};
        {| moduleRequest := $"./theme";
           import_entries := [{| import_importName := ImportName $"accent";
                                 import_localName := $"accent" |}] |}];
     staticExports :=
       [{| export_entries := [{| export_importName := ExportImportName_None;
                                 export_exportName := ExportExportName_Name $"card";
                                 export_localName := ExportLocalName_Name $"card" |}] |}] |}.

Definition themeHost : Host :=
  projectHost
    [($"/proj/src/theme.ts", themeText); ($"/proj/src/card.ts", cardText)]
    [(themeText, themeFile); (cardText, cardFile)]
    [($"./theme", $"/proj/src/theme.ts")].

(** [/proj/src/theme.ts] in another project: the exported declaration
    is followed by a function with a local variable of the same name. *)
Definition shadowText : str :=
  $"import { css } from 'ecij';" ++ [LF]
    ++ $"export const accent = css`color: red;`;" ++ [LF]
    ++ $"function f() { const accent = 'crimson'; return accent; }" ++ [LF].

Definition shadowFile : ParseResult :=
  {| program :=
       Other [Other [VariableDeclarator (Identifier $"accent")
                (Some (TaggedTemplateExpression 1 50 66 (Identifier $"css")
                         [$"color: red;"] []))];
              Other [Identifier $"f";
                     Other [Other [VariableDeclarator (Identifier $"accent")
                                     (Some (Literal (StringValue $"crimson")))];
                            Other [Identifier $"accent"]]]];
     staticImports :=
       [{| moduleRequest := $"ecij";
           import_entries := [{| import_importName := ImportName $"css";
                                 import_localName := $"css" |}] |}];
     staticExports :=
       [{| export_entries := [{| export_importName := ExportImportName_None;
                                 export_exportName := ExportExportName_Name $"accent";
                                 export_localName := ExportLocalName_Name $"accent" |}] |}] |}.

Definition shadowHost : Host :=
  projectHost
    [($"/proj/src/theme.ts", shadowText); ($"/proj/src/card.ts", cardText)]
    [(shadowText, shadowFile); (cardText, cardFile)]
    [($"./theme", $"/proj/src/theme.ts")].

(** ** The records of the processed declarations *)

Definition extractionOf (d : Declaration) (content : str) : CssExtraction.t :=
  {| CssExtraction.className := className d;
     CssExtraction.cssContent := trim content;
     CssExtraction.sourcePosition := node_start (node d) |}.

Definition replacementOf (d : Declaration) : Replacement.t :=
  {| Replacement.start := node_start (node d);
     Replacement.end_ := node_end (node d);
     Replacement.className := className d |}.

(** The two arrays after [addProcessedDeclaration] has been called on the
    pairs of [processed], in order. *)
Definition recorded (processed : list (Declaration * str)) : Processed :=
  {| cssExtractions := (fun p => extractionOf p.1 p.2) <$> processed;
     replacements := (fun p => replacementOf p.1) <$> processed |}.

(** The declarations pass 1 processes, with their content; [None] when a
    template without interpolation has no template element. *)
Fixpoint literalContents (ds : list Declaration) : option (list (Declaration * str)) :=
  match ds with
  | [] => Some []
  | d :: ds' =>
      if hasInterpolations d then literalContents ds'
      else
        match node_quasis (node d) with
        | quasi :: _ => cons (d, quasi) <$> literalContents ds'
        | [] => None
        end
  end.

(** The rewritten text, the style text and the text before the import is
    dealt with, for the pairs that were processed. *)
Definition splicedOf (code : str) (processed : list (Declaration * str)) : str :=
  applyReplacements code (sortReplacements (replacements (recorded processed))).

Definition styleTextOf (processed : list (Declaration * str)) : str :=
  join [LF; LF] (cssBlocks (sortExtractions (cssExtractions (recorded processed)))).

Definition bodyOf (code cleanId : str) (processed : list (Declaration * str)) : str :=
  if bool_decide (styleTextOf processed <> []) then
    addCssImport (splicedOf code processed)
      (cleanId ++ $"." ++ hashText (styleTextOf processed) ++ $".css")
  else splicedOf code processed.

(** A computation that leaves the registry of style texts as it is. *)
Definition keepsStyles {A} (m : M A) : Prop :=
  forall st, extractedCssPerFile (m st).2 = extractedCssPerFile st.

(** [/proj/src/unused.ts] imports [css] and declares nothing with it. *)
Definition unusedImportText : str :=
  $"import { css } from 'ecij';" ++ [LF] ++ $"export const width = 4;" ++ [LF].

Definition unusedImportFile : ParseResult :=
  {| program :=
       Other [Other [VariableDeclarator (Identifier $"width") (Some (Literal (NumberValue $"4")))]];
     staticImports :=
       [{| moduleRequest := $"ecij";
           import_entries := [{| import_importName := ImportName $"css";
                                 import_localName := $"css" |}] |}];
     staticExports :=
       [{| export_entries := [{| export_importName := ExportImportName_None;
                                 export_exportName := ExportExportName_Name $"width";
                                 export_localName := ExportLocalName_Name $"width" |}] |}] |}.

Definition unusedImportHost : Host :=
  projectHost [] [(unusedImportText, unusedImportFile)] [].

(** [/proj/src/empty.ts]: a declaration with an empty template. *)
Definition emptyText : str :=
  $"import { css } from 'ecij';" ++ [LF] ++ $"export const emptyClass = css``;" ++ [LF].

Definition emptyFile : ParseResult :=
  {| program :=
       Other [Other [VariableDeclarator (Identifier $"emptyClass")
         (Some (TaggedTemplateExpression 1 54 59 (Identifier $"css") [[]] []))]];
     staticImports :=
       [{| moduleRequest := $"ecij";
           import_entries := [{| import_importName := ImportName $"css";
                                 import_localName := $"css" |}] |}];
     staticExports :=
       [{| export_entries := [{| export_importName := ExportImportName_None;
                                 export_exportName := ExportExportName_Name $"emptyClass";
                                 export_localName := ExportLocalName_Name $"emptyClass" |}] |}] |}.

Definition emptyHost : Host := projectHost [] [(emptyText, emptyFile)] [].

(** [/proj/src/half.ts]: a declaration without interpolation and one that
    interpolates a call.  [/proj/src/hollow.ts]: the same with an empty
    first template. *)
Definition halfText : str :=
  $"import { css } from 'ecij';" ++ [LF] ++ $"const a = css`color: red;`;" ++ [LF]
    ++ $"const b = css`${f()}`;" ++ [LF].

Definition halfFile : ParseResult :=
  {| program :=
       Other [Other [VariableDeclarator (Identifier $"a")
                (Some (TaggedTemplateExpression 1 38 54 (Identifier $"css")
                         [$"color: red;"] []))];
              Other [VariableDeclarator (Identifier $"b")
                (Some (TaggedTemplateExpression 2 66 77 (Identifier $"css") [[]; []]
                         [Other [Identifier $"f"]]))]];
     staticImports :=
       [{| moduleRequest := $"ecij";
           import_entries := [{| import_importName := ImportName $"css";
                                 import_localName := $"css" |}] |}];
     staticExports := [] |}.

Definition hollowText : str :=
  $"import { css } from 'ecij';" ++ [LF] ++ $"const a = css``;" ++ [LF]
    ++ $"const b = css`${f()}`;" ++ [LF].

Definition hollowFile : ParseResult :=
  {| program :=
       Other [Other [VariableDeclarator (Identifier $"a")
                (Some (TaggedTemplateExpression 1 38 43 (Identifier $"css") [[]] []))];
              Other [VariableDeclarator (Identifier $"b")
                (Some (TaggedTemplateExpression 2 55 66 (Identifier $"css") [[]; []]
                         [Other [Identifier $"f"]]))]];
     staticImports :=
       [{| moduleRequest := $"ecij";
           import_entries := [{| import_importName := ImportName $"css";
                                 import_localName := $"css" |}] |}];
     staticExports := [] |}.

Definition halfHost : Host :=
  projectHost [] [(halfText, halfFile); (hollowText, hollowFile)] [].

Definition halfResolved : Declaration :=
  {| className := $"css-2a9734cc";
     node := TaggedTemplateExpression 1 38 54 (Identifier $"css") [$"color: red;"] [];
     hasInterpolations := false |}.

Definition halfUnresolved : Declaration :=
  {| className := $"css-8fef6b1c";
     node := TaggedTemplateExpression 2 66 77 (Identifier $"css") [[]; []]
               [Other [Identifier $"f"]];
     hasInterpolations := true |}.

Definition hollowResolved : Declaration :=
  {| className := $"css-c9d0a405";
     node := TaggedTemplateExpression 1 38 43 (Identifier $"css") [[]] [];
     hasInterpolations := false |}.

Definition hollowUnresolved : Declaration :=
  {| className := $"css-8515879f";
     node := TaggedTemplateExpression 2 55 66 (Identifier $"css") [[]; []]
               [Other [Identifier $"f"]];
     hasInterpolations := true |}.

(** ** The variable a declaration is bound to

    The tagged templates of a tree whose tag is the identifier [css], in
    the order in which the traversal meets them, each with the variable
    that a declarator binds it to, if any.  A template that is the
    initialiser of a declarator whose target is an identifier is met at
    the declarator. *)
Fixpoint cssBindings (n : Node) : list (option str * Node) :=
  match n with
  | Identifier _ | Literal _ => []
  | TaggedTemplateExpression _ _ _ tag _ expressions =>
      (if isCssTag tag then [(None, n)] else [])
        ++ cssBindings tag ++ (expressions ≫= cssBindings)
  | VariableDeclarator id init =>
      match id, init with
      | Identifier name,
        Some (TaggedTemplateExpression _ _ _ tag _ expressions as template) =>
          (if isCssTag tag then [(Some name, template)] else [])
            ++ cssBindings tag ++ (expressions ≫= cssBindings)
      | _, Some i => cssBindings id ++ cssBindings i
      | _, None => cssBindings id
      end
  | Other children => children ≫= cssBindings
  end.

(** The declaration that the naming scheme prescribes for the template
    [binding.2], bound to [binding.1], at position [index] of the file
    [relativePath]. *)
Definition declarationOf (config : Configuration) (relativePath : str) (index : nat)
    (binding : option str * Node) : Declaration :=
  {| className :=
       classPrefix config
         ++ hashText (relativePath ++ $":" ++ decimal index ++ $":" ++ nameText binding.1);
     node := binding.2;
     hasInterpolations := bool_decide (0 < length (node_expressions binding.2)) |}.

(** ** Pass 2 as a run

    Pass 2 threads the state of the caches through the interpolation
    loops of the declarations, in the order of [declarations]. *)
Section Runs.
Context `{Host} (config : Configuration) (filePath : str) (info : ParsedFileInfo).

(** The interpolation loop of one declaration. *)
Definition interpolation (d : Declaration) : M (option str) :=
  interpolate config filePath info (node_quasis (node d)) (node_expressions (node d)) [].

(** Every declaration with the state in which pass 2 reaches it, when
    pass 2 starts in [s]. *)
Fixpoint reached (ds : list Declaration) (s : PluginState)
    : list (Declaration * PluginState) :=
  match ds with
  | [] => []
  | d :: ds' =>
      (d, s) :: reached ds' (if hasInterpolations d then (interpolation d s).2 else s)
  end.

(** The declarations that pass 2 resolves, with their content. *)
Definition resolvedIn (ds : list Declaration) (s : PluginState)
    : list (Declaration * str) :=
  omap (fun p : Declaration * PluginState =>
          if hasInterpolations p.1 then
            match (interpolation p.1 p.2).1 with
            | Some (Some content) => Some (p.1, content)
            | _ => None
            end
          else None)
       (reached ds s).

(** [d] resolves to [content]: it has no interpolation and [content] is
    its first template element, or its interpolation loop, run in the
    state [s], computes [content].  [d] is unresolvable: it has
    interpolations and its loop, run in [s], gives up. *)
Definition resolvesTo (s : PluginState) (d : Declaration) (content : str) : Prop :=
  if hasInterpolations d then (interpolation d s).1 = Some (Some content)
  else exists rest, node_quasis (node d) = content :: rest.

Definition unresolvable (s : PluginState) (d : Declaration) : Prop :=
  hasInterpolations d = true /\ (interpolation d s).1 = Some None.
End Runs.

(** [/proj/src/two.ts]: a declaration with an empty template and one
    with content. *)
Definition twoText : str :=
  $"import { css } from 'ecij';" ++ [LF] ++ $"const a = css``;" ++ [LF]
    ++ $"const b = css`color: red;`;" ++ [LF].

Definition twoFile : ParseResult :=
  {| program :=
       Other [Other [VariableDeclarator (Identifier $"a")
                (Some (TaggedTemplateExpression 1 38 43 (Identifier $"css") [[]] []))];
              Other [VariableDeclarator (Identifier $"b")
                (Some (TaggedTemplateExpression 2 55 71 (Identifier $"css")
                         [$"color: red;"] []))]];
     staticImports :=
       [{| moduleRequest := $"ecij";
           import_entries := [{| import_importName := ImportName $"css";
                                 import_localName := $"css" |}] |}];
     staticExports := [] |}.

Definition twoHost : Host := projectHost [] [(twoText, twoFile)] [].

(** [/proj/src/nested.ts]: a declaration without interpolation inside
    the interpolation of another. *)
Definition nestedText : str :=
  $"import { css } from 'ecij';" ++ [LF] ++ $"const b = css`${css`color: red;`}`;" ++ [LF].

Definition nestedFile : ParseResult :=
  {| program :=
       Other [Other [VariableDeclarator (Identifier $"b")
                (Some (TaggedTemplateExpression 1 38 62 (Identifier $"css") [[]; []]
                         [TaggedTemplateExpression 2 44 60 (Identifier $"css")
                            [$"color: red;"] []]))]];
     staticImports :=
       [{| moduleRequest := $"ecij";
           import_entries := [{| import_importName := ImportName $"css";
                                 import_localName := $"css" |}] |}];
     staticExports := [] |}.

Definition nestedHost : Host := projectHost [] [(nestedText, nestedFile)] [].

(** ** Further specification-side definitions *)

(** A lower-case hexadecimal digit. *)
Definition isHexDigit (c : ascii) : Prop := c ∈ $"0123456789abcdef".

(** A declaration as [handleTaggedTemplateExpression] records it: its node
    is a tagged template whose tag is the identifier [css], and
    [hasInterpolations] tells whether the template has expressions. *)
Definition recognized (d : Declaration) : Prop :=
  match node d with
  | TaggedTemplateExpression _ _ _ tag _ expressions =>
      isCssTag tag = true /\ hasInterpolations d = bool_decide (0 < length expressions)
  | _ => False
  end.

(** A text without white space at either end. *)
Definition trimmed (s : str) : Prop :=
  (forall c rest, s = c :: rest -> is_space c = false) /\
  (forall front c, s = front ++ [c] -> is_space c = false).

(** The order of the style blocks. *)
Definition ascendingPosition : relation CssExtraction.t :=
  fun a b => CssExtraction.sourcePosition a <= CssExtraction.sourcePosition b.

(** ** The hooks of the plugin as the host calls them *)

Inductive Hook :=
  | BuildEnd
  | ResolveId (id : str)
  | Load (id : str)
  | Transform (code id : str).

(** The state a hook leaves behind, whether it returns or throws. *)
Definition runHook `{Host} (config : Configuration) (st : PluginState) (hook : Hook)
    : PluginState :=
  match hook with
  | BuildEnd => (buildEnd st).2
  | ResolveId id => (resolveId id st).2
  | Load id => (load id st).2
  | Transform code id => (handler config code id st).2
  end.

Definition runHooks `{Host} (config : Configuration) (hooks : list Hook)
    (st : PluginState) : PluginState :=
  foldl (runHook config) st hooks.

(** Every registered style text is not empty and is registered under an
    id that ends with the hash of the text. *)
Definition registryConsistent (st : PluginState) : Prop :=
  forall id css, extractedCssPerFile st !! id = Some css ->
    css <> [] /\ exists cleanId, id = cleanId ++ $"." ++ hashText css ++ $".css".

(** A computation that leaves the cached analysis of every file outside
    [touched] as it is, whether it returns or throws. *)
Definition touchesOnly {A} (touched : str -> Prop) (m : M A) : Prop :=
  forall st other,
    ~ touched other ->
    parsedFileInfoCache (m st).2 !! other = parsedFileInfoCache st !! other.

(** The files that the named imports of a file resolve to. *)
Definition importTargets `{Host} (filePath : str) (info : ParsedFileInfo)
    (target : str) : Prop :=
  exists name entry,
    importedIdentifiers info !! name = Some entry /\
    resolve (source entry) filePath = Some target.

(** The literal segments with the values between them, as the
    interpolation loop concatenates them. *)
Fixpoint interleave (quasis values : list str) : str :=
  match quasis with
  | [] => []
  | quasi :: quasis' =>
      quasi ++ match values with
               | [] => interleave quasis' []
               | value :: values' => value ++ interleave quasis' values'
               end
  end.

(** Every entry the map holds comes from a named import entry. *)
Definition fromNamedImports (imports : list StaticImport)
    (m : gmap str ImportedIdentifier) : Prop :=
  forall localName entry, m !! localName = Some entry ->
    exists staticImport importEntry,
      staticImport ∈ imports /\ importEntry ∈ import_entries staticImport /\
      import_localName importEntry = localName /\
      import_importName importEntry = ImportName (imported entry) /\
      source entry = moduleRequest staticImport.

(** No named import of the file binds [localName]: it is bound by a
    default or namespace import, or not imported at all. *)
Definition notNamedImport (parseResult : ParseResult) (localName : str) : Prop :=
  Forall (fun staticImport =>
    Forall (fun importEntry =>
      import_localName importEntry = localName ->
      forall name, import_importName importEntry <> ImportName name)
      (import_entries staticImport))
    (staticImports parseResult).

(** [/proj/src/ns.ts] imports a namespace and a default binding and
    interpolates both. *)
Definition namespaceFile : ParseResult :=
  {| program :=
       Other [Other [VariableDeclarator (Identifier $"box")
         (Some (TaggedTemplateExpression 1 80 110 (Identifier $"css")
                  [$"color: "; $"; margin: "; $";"]
                  [Identifier $"theme"; Identifier $"base"]))]];
     staticImports :=
       [{| moduleRequest := $"ecij";
           import_entries := [{| import_importName := ImportName $"css";
                                 import_localName := $"css" |}] |};
        {| moduleRequest := $"./theme";
           import_entries := [{| import_importName := ImportNamespaceObject;
                                 import_localName := $"theme" |}] |};
        {| moduleRequest := $"./base";
           import_entries := [{| import_importName := ImportDefault;
                                 import_localName := $"base" |}] |}];
     staticExports := [] |}.

(** A run of white space. *)
Definition whiteSpace (w : str) : Prop := Forall (fun c => is_space c = true) w.

(** A single or a double quote. *)
Definition isQuote (c : ascii) : Prop := c = "'"%char \/ c = DQUOTE.

(** The line that [addCssImport] puts before the code. *)
Definition cssImportLine (cssModuleId : str) : str :=
  $"import " ++ JSON_stringify cssModuleId ++ $";" ++ [LF; LF].

(** *** Reading a string literal

    How a JavaScript parser reads a double-quoted string literal at the
    head of a text, for the escape sequences [JSON.stringify] writes: the
    result is the value of the literal and the text after the closing
    quote.  A line break inside the literal, an unknown escape and a
    code unit above 255 are refused. *)

Definition hex_value (c : ascii) : option Z :=
  let n := code_unit c in
  if ((48 <=? n) && (n <=? 57))%Z then Some (n - 48)%Z
  else if ((97 <=? n) && (n <=? 102))%Z then Some (n - 87)%Z
  else if ((65 <=? n) && (n <=? 70))%Z then Some (n - 55)%Z
  else None.

Definition unicode_escape (h1 h2 h3 h4 : ascii) : option ascii :=
  a ← hex_value h1; b ← hex_value h2; c ← hex_value h3; d ← hex_value h4;
  let n := (((a * 16 + b) * 16 + c) * 16 + d)%Z in
  if (n <? 256)%Z then Some (ascii_of_N (Z.to_N n)) else None.

Definition prepend (c : ascii) (r : option (str * str)) : option (str * str) :=
  match r with
  | Some (value, rest) => Some (c :: value, rest)
  | None => None
  end.

Fixpoint readStringBody (s : str) : option (str * str) :=
  match s with
  | [] => None
  | c :: s1 =>
      if ascii_dec c DQUOTE then Some ([], s1)
      else if ascii_dec c LF then None
      else if ascii_dec c "013"%char then None
      else if ascii_dec c "\"%char then
        match s1 with
        | [] => None
        | e :: s2 =>
            if ascii_dec e DQUOTE then prepend DQUOTE (readStringBody s2)
            else if ascii_dec e "\"%char then prepend "\"%char (readStringBody s2)
            else if ascii_dec e "b"%char then prepend "008"%char (readStringBody s2)
            else if ascii_dec e "t"%char then prepend "009"%char (readStringBody s2)
            else if ascii_dec e "n"%char then prepend LF (readStringBody s2)
            else if ascii_dec e "f"%char then prepend "012"%char (readStringBody s2)
            else if ascii_dec e "r"%char then prepend "013"%char (readStringBody s2)
            else if ascii_dec e "u"%char then
              match s2 with
              | h1 :: h2 :: h3 :: h4 :: s3 =>
                  match unicode_escape h1 h2 h3 h4 with
                  | Some d => prepend d (readStringBody s3)
                  | None => None
                  end
              | _ => None
              end
            else None
        end
      else prepend c (readStringBody s1)
  end.

Definition readStringLiteral (s : str) : option (str * str) :=
  match s with
  | c :: s1 => if ascii_dec c DQUOTE then readStringBody s1 else None
  | [] => None
  end.

(** *** Trees as the parser builds them

    A template with [n] expressions has [n + 1] literal segments. *)
Fixpoint wellFormed (n : Node) : Prop :=
  let all := fix all (l : list Node) : Prop :=
    match l with
    | [] => True
    | m :: l' => wellFormed m /\ all l'
    end in
  match n with
  | Identifier _ | Literal _ => True
  | TaggedTemplateExpression _ _ _ tag quasis expressions =>
      length quasis = S (length expressions) /\ wellFormed tag /\ all expressions
  | VariableDeclarator id init =>
      wellFormed id /\ match init with Some i => wellFormed i | None => True end
  | Other children => all children
  end.

(** The template of a declaration has a first literal segment. *)
Definition hasSegment (d : Declaration) : Prop := node_quasis (node d) <> [].

(** A computation that returns in every state, with a result in [Q]. *)
Definition returnsWith {A} (m : M A) (Q : A -> Prop) : Prop :=
  forall st, exists x st', m st = (Some x, st') /\ Q x.

(** A host that reads and parses whatever it is given, to the text and
    the tree of [/proj/src/a.ts]. *)
Definition steadyHost : Host :=
  {| PROJECT_ROOT := $"/proj";
     relative := fun root filePath => drop (S (length root)) filePath;
     parseSync := fun _ _ => Some basicFile;
     readFile := fun _ => Some basicText;
     resolve := fun specifier _ => Some specifier |}.

(** Two paths that differ at most in the separators they use. *)
Definition isSeparator (c : ascii) : Prop := c = "/"%char \/ c = "\"%char.

Definition sameUpToSeparators (p q : str) : Prop :=
  Forall2 (fun a b => a = b \/ (isSeparator a /\ isSeparator b)) p q.

(** The host of a Windows build of the same project. *)
Definition windowsHost : Host :=
  {| PROJECT_ROOT := $"C:\proj";
     relative := fun root filePath => drop (S (length root)) filePath;
     parseSync := fun _ _ => Some basicFile;
     readFile := fun _ => Some basicText;
     resolve := fun specifier _ => Some specifier |}.

(** * Properties *)

(** ** Induction on syntax trees *)

Section NodeInduction.
Variable P : Node -> Prop.
Hypothesis HIdentifier : forall name, P (Identifier name).
Hypothesis HLiteral : forall value, P (Literal value).
Hypothesis HTagged : forall r s e tag quasis expressions,
  P tag -> Forall P expressions ->
  P (TaggedTemplateExpression r s e tag quasis expressions).
Hypothesis HDeclarator : forall id init,
  P id -> from_option P True init -> P (VariableDeclarator id init).
Hypothesis HOther : forall children, Forall P children -> P (Other children).

Fixpoint Node_ind (n : Node) : P n :=
  let all := fix all (l : list Node) : Forall P l :=
    match l with
    | [] => @Stdlib.Lists.List.Forall_nil _ P
    | m :: l' => @Stdlib.Lists.List.Forall_cons _ P m l' (Node_ind m) (all l')
    end in
  match n with
  | Identifier name => HIdentifier name
  | Literal value => HLiteral value
  | TaggedTemplateExpression r s e tag quasis expressions =>
      HTagged r s e tag quasis expressions (Node_ind tag) (all expressions)
  | VariableDeclarator id init =>
      HDeclarator id init (Node_ind id)
        (match init as o return from_option P True o with
         | Some i => Node_ind i
         | None => I
         end)
  | Other children => HOther children (all children)
  end.
End NodeInduction.

Section AnalysisFacts.
Context (config : Configuration) (relativePath : str) (exported : gmap str str).

Local Abbreviation visit := (visit config relativePath exported).
Local Abbreviation visitAll := (visitAll config relativePath exported).
Local Abbreviation handleTagged := (handleTaggedTemplateExpression config relativePath exported).

Lemma visit_tagged r s e tag quasis expressions w :
  visit (TaggedTemplateExpression r s e tag quasis expressions) w =
  visitAll expressions
    (visit tag (onTaggedTemplateExpression config relativePath exported
                  (TaggedTemplateExpression r s e tag quasis expressions) w)).
Proof. reflexivity. Qed.

Lemma visit_declarator id init w :
  visit (VariableDeclarator id init) w =
  let w' := visit id (onVariableDeclarator config relativePath exported id init w) in
  match init with Some i => visit i w' | None => w' end.
Proof. reflexivity. Qed.

Lemma visit_other children w : visit (Other children) w = visitAll children w.
Proof. reflexivity. Qed.

Lemma visitAll_cons m l w : visitAll (m :: l) w = visitAll l (visit m w).
Proof. reflexivity. Qed.

(** A property of walks that every callback preserves is preserved by
    the whole traversal. *)
Lemma visit_preserves (I : Walk -> Prop) :
  (forall id init w, I w -> I (onVariableDeclarator config relativePath exported id init w)) ->
  (forall n w, I w -> I (onTaggedTemplateExpression config relativePath exported n w)) ->
  forall n w, I w -> I (visit n w).
Proof.
  intros Hdecl Htag n. induction n as [name|value|r s e tag quasis es IHtag IHes|id init IHid IHinit|cs IHcs] using Node_ind;
    intros w Hw.
  - exact Hw.
  - exact Hw.
  - rewrite visit_tagged.
    assert (Hstart : I (visit tag (onTaggedTemplateExpression config relativePath exported
              (TaggedTemplateExpression r s e tag quasis es) w))) by auto.
    revert Hstart. generalize (visit tag (onTaggedTemplateExpression config relativePath exported
              (TaggedTemplateExpression r s e tag quasis es) w)).
    induction IHes as [|m l Hm _ IHl]; intros w' Hw'; [exact Hw'|].
    rewrite visitAll_cons. auto.
  - rewrite visit_declarator. cbv zeta.
    destruct init as [i|]; [apply IHinit|]; auto.
  - rewrite visit_other. revert w Hw.
    induction IHcs as [|m l Hm _ IHl]; intros w Hw; [exact Hw|].
    rewrite visitAll_cons. auto.
Qed.

Lemma namedByPosition_record name value w :
  namedByPosition config relativePath w ->
  namedByPosition config relativePath (recordIdentifierWithValue exported name value w).
Proof. exact (fun H => H). Qed.

Lemma namedByPosition_handle localName n w :
  namedByPosition config relativePath w -> namedByPosition config relativePath (handleTagged localName n w).
Proof.
  intros Hw. destruct n as [| |r s e tag quasis es| |]; try exact Hw.
  cbn. destruct (isCssTag tag); [|exact Hw].
  assert (Hpush : namedByPosition config relativePath (pushDeclaration
     {| className := generateClassName config relativePath (length (w_declarations w)) localName;
        node := TaggedTemplateExpression r s e tag quasis es;
        hasInterpolations := bool_decide (0 < length es) |} w)).
  { intros i d. cbn. intros Hi.
    apply lookup_app_Some in Hi as [Hi|[Hlen Hi]]; [eauto|].
    apply list_lookup_singleton_Some in Hi as [Hz <-].
    exists localName. cbn. f_equal. f_equal. f_equal. lia. }
  destruct localName; exact Hpush.
Qed.

Lemma namedByPosition_visit n w :
  namedByPosition config relativePath w -> namedByPosition config relativePath (visit n w).
Proof.
  apply visit_preserves.
  - intros id init w' Hw'. unfold onVariableDeclarator.
    destruct init as [i|]; [|exact Hw'].
    destruct id; try exact Hw'.
    destruct i as [|[]| | |]; try exact Hw'.
    apply namedByPosition_handle. exact Hw'.
  - intros m w' Hw'. unfold onTaggedTemplateExpression.
    destruct m; try exact Hw'.
    case_bool_decide; [exact Hw'|]. apply namedByPosition_handle, Hw'.
Qed.
End AnalysisFacts.

(** ** Naming scheme *)

Lemma decimal_inj i j : decimal i = decimal j -> i = j.
Proof.
  unfold decimal. intros Heq.
  apply (f_equal string_of_list_ascii) in Heq.
  rewrite !string_of_list_ascii_of_string in Heq.
  apply (f_equal NilEmpty.uint_of_string) in Heq.
  rewrite !NilEmpty.usu in Heq.
  apply Unsigned.to_uint_inj. congruence.
Qed.

Lemma classKey_index_inj relativePath i j localName :
  classKey relativePath i localName = classKey relativePath j localName -> i = j.
Proof.
  unfold classKey. intros Heq.
  apply app_inv_head in Heq. apply app_inv_head in Heq.
  apply app_inv_tail in Heq. by apply decimal_inj.
Qed.

Lemma classKey_name_inj relativePath i name1 name2 :
  classKey relativePath i name1 = classKey relativePath i name2 ->
  nameText name1 = nameText name2.
Proof.
  unfold classKey. intros Heq. by do 4 apply app_inv_head in Heq.
Qed.

Lemma generateClassName_eq config relativePath i j name1 name2 :
  generateClassName config relativePath i name1 = generateClassName config relativePath j name2
  <-> hashText (classKey relativePath i name1) = hashText (classKey relativePath j name2).
Proof.
  unfold generateClassName. split; [apply app_inv_head | congruence].
Qed.

Section PluginFacts.
Context `{Host} (config : Configuration).

Lemma parseFile_fresh filePath code st :
  parseFile config filePath (Some code) st =
  match parseSync filePath code with
  | Some parseResult =>
      let info := analyze config (toRelativePath filePath) parseResult in
      (Some info, setCache filePath info st)
  | None => (None, st)
  end.
Proof.
  unfold parseFile, mbind, M_bind, cacheGet.
  destruct (parsedFileInfoCache st !! filePath); cbn;
    destruct (parseSync filePath code); reflexivity.
Qed.

Lemma toRelativePath_normalized filePath : "\"%char ∉ toRelativePath filePath.
Proof.
  unfold toRelativePath, replaceAll. intros Hin.
  apply list_elem_of_In, in_map_iff in Hin as (c & Hc & _).
  destruct (ascii_dec c "\"%char); [discriminate | contradiction].
Qed.
End PluginFacts.

(** C3, as the code has it.  Two declarations of one file that differ in
    their index and share their variable name, or share their index and
    differ in the text of their variable name, are hashed from different
    keys; their class names are equal exactly when the eight-digit hashes
    of these two different keys coincide. *)
Theorem class_names_differ_up_to_hash_coincidence (config : Configuration)
    (relativePath : str) (i j : nat) (name1 name2 : option str) :
  (i <> j /\ name1 = name2) \/ (i = j /\ nameText name1 <> nameText name2) ->
  classKey relativePath i name1 <> classKey relativePath j name2 /\
  (generateClassName config relativePath i name1 = generateClassName config relativePath j name2
   <-> hashText (classKey relativePath i name1) = hashText (classKey relativePath j name2)).
Proof.
  intros Hdiff. split; [|apply generateClassName_eq].
  destruct Hdiff as [[Hij <-]|[<- Hname]]; intros Heq.
  - by apply Hij, (classKey_index_inj relativePath i j name1).
  - by apply Hname, (classKey_name_inj relativePath i).
Qed.

Lemma class_names_differ_up_to_hash_coincidence_witness :
  classKey $"src/c8727696.ts" 15 (Some $"a") <> classKey $"src/c8727696.ts" 22 (Some $"a") /\
  (generateClassName defaultConfiguration $"src/c8727696.ts" 15 (Some $"a")
     = generateClassName defaultConfiguration $"src/c8727696.ts" 22 (Some $"a")
   <-> hashText (classKey $"src/c8727696.ts" 15 (Some $"a"))
       = hashText (classKey $"src/c8727696.ts" 22 (Some $"a"))).
Proof.
  apply (class_names_differ_up_to_hash_coincidence defaultConfiguration
           $"src/c8727696.ts" 15 22 (Some $"a") (Some $"a")).
  left. split; [lia | reflexivity].
Defined.

(** C3, as the specification states it, fails: in the file
    [src/c8727696.ts] the declarations at positions 15 and 22, both bound
    to the variable name [a], receive the same class name. *)
Lemma same_name_different_index_collision :
  let info := analyze defaultConfiguration $"src/c8727696.ts" collidingFile in
  className <$> (declarations info !! 15) = Some $"css-3e42566a" /\
  className <$> (declarations info !! 22) = Some $"css-3e42566a" /\
  generateClassName defaultConfiguration $"src/c8727696.ts" 15 (Some $"a") = $"css-3e42566a" /\
  generateClassName defaultConfiguration $"src/c8727696.ts" 22 (Some $"a") = $"css-3e42566a".
Proof. vm_compute. repeat split. Qed.

(** ** Sorting *)

Section SortFacts.
Context {A : Type} (cmp : A -> A -> Z).

Let R : relation A := fun a b => (cmp a b <= 0)%Z.

Lemma insertSorted_Permutation x l : insertSorted cmp x l ≡ₚ x :: l.
Proof.
  induction l as [|y l IH]; cbn; [done|].
  destruct (cmp x y <=? 0)%Z; [done|].
  rewrite IH. apply Permutation_swap.
Qed.

Lemma sort_Permutation l : sort cmp l ≡ₚ l.
Proof.
  induction l as [|x l IH]; cbn; [done|].
  by rewrite insertSorted_Permutation, IH.
Qed.

Lemma sort_length l : length (sort cmp l) = length l.
Proof. by rewrite sort_Permutation. Qed.

Hypothesis R_total : forall a b, R a b \/ R b a.
Hypothesis R_trans : forall a b c, R a b -> R b c -> R a c.

Lemma insertSorted_StronglySorted x l :
  StronglySorted R l -> StronglySorted R (insertSorted cmp x l).
Proof.
  induction 1 as [|y l Hl IH Hy]; cbn.
  { repeat constructor. }
  destruct (Z.leb_spec (cmp x y) 0) as [Hxy|Hxy].
  - constructor; [by constructor|].
    constructor; [done|]. eapply Forall_impl; [exact Hy|].
    intros z Hz. by apply (R_trans x y z).
  - constructor; [exact IH|].
    rewrite insertSorted_Permutation. constructor; [|done].
    destruct (R_total x y) as [Hc|Hc]; [|exact Hc]. unfold R in Hc. lia.
Qed.

Lemma sort_StronglySorted l : StronglySorted R (sort cmp l).
Proof.
  induction l as [|x l IH]; cbn; [constructor|].
  by apply insertSorted_StronglySorted.
Qed.

Lemma insertSorted_below x l : Forall (R x) l -> insertSorted cmp x l = x :: l.
Proof.
  destruct 1 as [|y l Hy _]; cbn; [done|].
  destruct (Z.leb_spec (cmp x y) 0); [done|unfold R in Hy; lia].
Qed.

(** Filtering commutes with the stable sort. *)
Lemma filter_insertSorted (P : A -> Prop) `{!forall a, Decision (P a)} x l :
  StronglySorted R l ->
  filter P (insertSorted cmp x l) =
  if decide (P x) then insertSorted cmp x (filter P l) else filter P l.
Proof.
  induction 1 as [|y l Hl IH Hy].
  { cbn. by destruct (decide (P x)). }
  cbn [insertSorted]. destruct (Z.leb_spec (cmp x y) 0) as [Hxy|Hxy].
  - rewrite (filter_cons _ x). destruct (decide (P x)) as [Hx|Hx]; [|done].
    rewrite insertSorted_below; [done|].
    apply Forall_forall. intros z Hz. apply list_elem_of_filter in Hz as [_ Hz].
    apply elem_of_cons in Hz as [->|Hz]; [exact Hxy|].
    rewrite Forall_forall in Hy. apply (R_trans x y z); [exact Hxy|auto].
  - rewrite (filter_cons _ y), IH, (filter_cons _ y).
    destruct (decide (P x)), (decide (P y)); cbn; try done.
    destruct (Z.leb_spec (cmp x y) 0); [lia|done].
Qed.

Lemma filter_sort (P : A -> Prop) `{!forall a, Decision (P a)} l :
  filter P (sort cmp l) = sort cmp (filter P l).
Proof.
  induction l as [|x l IH]; [done|]. cbn [sort].
  rewrite filter_insertSorted by apply sort_StronglySorted.
  rewrite filter_cons, IH. by destruct (decide (P x)).
Qed.
End SortFacts.

(** ** Splicing *)

Section Splicing.
Local Abbreviation start := Replacement.start.
Local Abbreviation end_ := Replacement.end_.

Lemma sortReplacements_StronglySorted l :
  StronglySorted descendingStart (sortReplacements l).
Proof.
  apply (sort_StronglySorted (fun a b => (Z.of_nat (start b) - Z.of_nat (start a))%Z));
    intros; lia.
Qed.

Lemma reverse_descending l :
  StronglySorted descendingStart l -> StronglySorted ascendingStart (reverse l).
Proof.
  intros Hl. apply Sorted_StronglySorted.
  { intros a b c. unfold ascendingStart. lia. }
  apply StronglySorted_Sorted, Sorted_reverse in Hl. exact Hl.
Qed.

Lemma chained_le code pos ascending : chained code pos ascending -> pos <= length code.
Proof.
  revert pos. induction ascending as [|r rest IH]; intros pos; cbn; [done|].
  intros (Hpos & Hr & Hrest). apply IH in Hrest. lia.
Qed.

(** Splicing the ranges from the last to the first leaves the text
    before the first range untouched and yields the substituted text
    after it. *)
Lemma applyReplacements_reverse code pos ascending :
  chained code pos ascending ->
  applyReplacements code (reverse ascending) = take pos code ++ substitute code pos ascending.
Proof.
  unfold applyReplacements. revert pos.
  induction ascending as [|r rest IH]; intros pos; cbn [chained substitute].
  - intros _. unfold slice_from. by rewrite take_drop.
  - intros (Hpos & Hr & Hrest).
    pose proof (chained_le _ _ _ Hrest) as Hend.
    rewrite reverse_cons, foldl_app. cbn [foldl].
    rewrite (IH _ Hrest). unfold splice, slice, slice_from.
    rewrite Nat.sub_0_r, !drop_0.
    rewrite take_app_le by (rewrite length_take; lia).
    rewrite take_take, Nat.min_l by lia.
    rewrite drop_app_length' by (rewrite length_take; lia).
    rewrite (app_assoc (take pos code)), take_take_drop.
    by replace (pos + (start r - pos)) with (start r) by lia.
Qed.

Lemma disjointRanges_sym a b : disjointRanges a b -> disjointRanges b a.
Proof. unfold disjointRanges. tauto. Qed.

Lemma pairwiseDisjoint_Permutation l1 l2 :
  l1 ≡ₚ l2 -> pairwiseDisjoint l1 -> pairwiseDisjoint l2.
Proof.
  induction 1 as [|x l1 l2 Hperm IH|x y l|l1 l2 l3 _ IH1 _ IH2]; cbn.
  - done.
  - intros [Hx Hl]. split; [by rewrite <-Hperm | auto].
  - intros [Hy [Hx Hl]]. apply Forall_cons in Hy as [Hyx Hy].
    repeat split; try done. constructor; [by apply disjointRanges_sym | done].
  - auto.
Qed.

Lemma nonOverlapping_Permutation code l1 l2 :
  l1 ≡ₚ l2 -> nonOverlapping code l1 -> nonOverlapping code l2.
Proof.
  intros Hperm [Hwf Hdis]. split; [by rewrite <-Hperm|].
  by apply (pairwiseDisjoint_Permutation l1).
Qed.

Lemma pairwiseDisjoint_elem l a b :
  pairwiseDisjoint l -> a ∈ l -> b ∈ l -> a = b \/ disjointRanges a b.
Proof.
  induction l as [|r l IH]; cbn; [by intros _ ?%elem_of_nil|].
  intros [Hr Hl] Ha Hb. rewrite Forall_forall in Hr.
  apply elem_of_cons in Ha as [->|Ha]; apply elem_of_cons in Hb as [->|Hb]; auto.
  right. apply disjointRanges_sym. auto.
Qed.

(** Ranges that do not overlap and are sorted by start follow each
    other. *)
Lemma sorted_chained code pos l :
  pos <= length code ->
  Forall (fun r => pos <= start r) l ->
  nonOverlapping code l ->
  StronglySorted ascendingStart l ->
  chained code pos l.
Proof.
  intros Hpos Hlow Hnon Hsorted. revert pos Hpos Hlow Hnon.
  induction Hsorted as [|r rest Hrest IH Hr]; intros pos Hpos Hlow [Hwf Hdis]; cbn; [done|].
  apply Forall_cons in Hlow as [Hlow _]. apply Forall_cons in Hwf as [Hwfr Hwf].
  destruct Hdis as [Hdisr Hdis].
  repeat split; [done|lia|].
  apply IH; [lia| |by split].
  rewrite Forall_forall in Hr, Hdisr, Hwf. apply Forall_forall. intros b Hb.
  specialize (Hr b Hb). specialize (Hwf b Hb). unfold ascendingStart in Hr.
  destruct (Hdisr b Hb) as [?|?]; lia.
Qed.

(** Among ranges that are not empty and do not overlap, the order by
    start offset is strict: there is one ascending arrangement. *)
Lemma ascending_unique code l ascending1 ascending2 :
  nonOverlapping code l ->
  ascending1 ≡ₚ l -> StronglySorted ascendingStart ascending1 ->
  ascending2 ≡ₚ l -> StronglySorted ascendingStart ascending2 ->
  ascending1 = ascending2.
Proof.
  intros [Hwf Hdis] Hperm1 Hsorted1 Hperm2 Hsorted2.
  apply (StronglySorted_unique_strong ascendingStart); [|done|done|by rewrite Hperm1].
  intros a b Ha Hb Hab Hba. rewrite Hperm1 in Ha. rewrite Hperm2 in Hb.
  destruct (pairwiseDisjoint_elem l a b Hdis Ha Hb) as [?|Hd]; [done|].
  rewrite Forall_forall in Hwf. pose proof (Hwf a Ha). pose proof (Hwf b Hb).
  unfold ascendingStart in Hab, Hba. destruct Hd; lia.
Qed.

Lemma sortReplacements_reverse code l ascending :
  nonOverlapping code l ->
  ascending ≡ₚ l -> StronglySorted ascendingStart ascending ->
  sortReplacements l = reverse ascending.
Proof.
  intros Hnon Hperm Hsorted.
  assert (Heq : reverse (sortReplacements l) = ascending).
  { apply (ascending_unique code l); [done| | |done|done].
    - rewrite reverse_Permutation. unfold sortReplacements. by rewrite sort_Permutation.
    - apply reverse_descending, sortReplacements_StronglySorted. }
  by rewrite <-Heq, reverse_involutive.
Qed.

(** The length of the substituted text. *)
Lemma substitute_length code pos ascending :
  chained code pos ascending ->
  length (substitute code pos ascending) + pos
    + sum_list_with (fun r => end_ r - start r) ascending
  = length code
    + sum_list_with (fun r => length (Replacement.className r) + 2) ascending.
Proof.
  revert pos. induction ascending as [|r rest IH]; intros pos; cbn [chained substitute].
  - intros Hpos. unfold slice_from. rewrite length_drop. cbn. lia.
  - intros (Hpos & Hr & Hrest). pose proof (chained_le _ _ _ Hrest) as Hend.
    specialize (IH _ Hrest). unfold slice.
    rewrite !length_app, length_take, length_drop. cbn [sum_list_with length].
    change (length $"'") with 1. lia.
Qed.
End Splicing.

Lemma applyReplacements_ascending (code : str) (l ascending : list Replacement.t) :
  nonOverlapping code l ->
  ascending ≡ₚ l -> StronglySorted ascendingStart ascending ->
  chained code 0 ascending /\
  applyReplacements code (sortReplacements l) = substitute code 0 ascending.
Proof.
  intros Hnon Hperm Hsorted.
  assert (Hchain : chained code 0 ascending).
  { apply sorted_chained; [lia|apply Forall_forall; intros; lia| |done].
    eapply nonOverlapping_Permutation; [|exact Hnon]. done. }
  split; [exact Hchain|].
  rewrite (sortReplacements_reverse code l ascending Hnon Hperm Hsorted).
  rewrite (applyReplacements_reverse code 0); [by rewrite take_0|exact Hchain].
Qed.

(** An ascending arrangement exists: the reverse of what the code's sort
    gives. *)
Lemma ascending_exists (l : list Replacement.t) :
  reverse (sortReplacements l) ≡ₚ l /\
  StronglySorted ascendingStart (reverse (sortReplacements l)).
Proof.
  split.
  - rewrite reverse_Permutation. unfold sortReplacements. by rewrite sort_Permutation.
  - apply reverse_descending, sortReplacements_StronglySorted.
Qed.

(** C4. The ranges are not empty, lie in the text and do not overlap;
    [ascending] is any arrangement of them in ascending order of start
    offset.  Splicing the quoted class names in descending order of start
    offset, as the code does, gives the text obtained by reading the
    original text from left to right and substituting every quoted class
    name at its recorded range; its length is that of the original text,
    less the lengths of the ranges, plus the lengths of the quoted class
    names. *)
Theorem splicing_is_manual_substitution (code : str) (l ascending : list Replacement.t) :
  nonOverlapping code l ->
  ascending ≡ₚ l ->
  StronglySorted ascendingStart ascending ->
  applyReplacements code (sortReplacements l) = substitute code 0 ascending /\
  length (applyReplacements code (sortReplacements l))
    + sum_list_with (fun r => Replacement.end_ r - Replacement.start r) l
  = length code + sum_list_with (fun r => length (Replacement.className r) + 2) l.
Proof.
  intros Hnon Hperm Hsorted.
  destruct (applyReplacements_ascending code l ascending Hnon Hperm Hsorted) as [Hchain ->].
  split; [done|]. rewrite <-Hperm.
  pose proof (substitute_length code 0 ascending Hchain). lia.
Qed.

Lemma splicing_is_manual_substitution_witness :
  applyReplacements threeSitesText (sortReplacements threeSites)
  = $"const a = 'css-aaaaaaaa'; const b = 'css-bbbbbbbb'; const c = 'css-cccccccc';" /\
  length (applyReplacements threeSitesText (sortReplacements threeSites)) + (6 + (6 + (9 + 0)))
  = 56 + (14 + (14 + (14 + 0))).
Proof.
  apply (splicing_is_manual_substitution threeSitesText threeSites
           [{| Replacement.start := 10; Replacement.end_ := 16;
               Replacement.className := $"css-aaaaaaaa" |};
            {| Replacement.start := 28; Replacement.end_ := 37;
               Replacement.className := $"css-bbbbbbbb" |};
            {| Replacement.start := 49; Replacement.end_ := 55;
               Replacement.className := $"css-cccccccc" |}]).
  - split; repeat constructor; cbn; lia.
  - unfold threeSites. apply Permutation_skip, Permutation_swap.
  - repeat constructor; unfold ascendingStart; cbn; lia.
Defined.

(** ** Declarations are counted once *)

Section Counting.
Context (config : Configuration) (relativePath : str) (exported : gmap str str).

Local Abbreviation visit := (visit config relativePath exported).
Local Abbreviation visitAll := (visitAll config relativePath exported).
Local Abbreviation handleTagged := (handleTaggedTemplateExpression config relativePath exported).
Local Abbreviation onDeclarator := (onVariableDeclarator config relativePath exported).
Local Abbreviation onTagged := (onTaggedTemplateExpression config relativePath exported).
Local Abbreviation seen := taggedTemplateExpressionFromVariableDeclarator.
Local Abbreviation size w := (length (w_declarations w)).

Lemma sum_list_cons (x : nat) l : sum_list (x :: l) = x + sum_list l.
Proof. reflexivity. Qed.

Lemma handleTagged_seen localName n w : seen (handleTagged localName n w) = seen w.
Proof.
  destruct n as [| |r s e tag quasis es| |]; try done.
  cbn. destruct (isCssTag tag); [|done]. by destruct localName.
Qed.

Lemma handleTagged_size localName r s e tag quasis es w :
  size (handleTagged localName (TaggedTemplateExpression r s e tag quasis es) w)
  = size w + (if isCssTag tag then 1 else 0).
Proof.
  cbn. destruct (isCssTag tag); [|lia].
  destruct localName; cbn; rewrite length_app; cbn; lia.
Qed.

(** What the [VariableDeclarator] callback does to the set of seen
    nodes and to the number of declarations. *)
Lemma onDeclarator_cases id init w :
  (exists name r s e tag quasis es,
      id = Identifier name /\ init = Some (TaggedTemplateExpression r s e tag quasis es) /\
      seen (onDeclarator id init w) = {[r]} ∪ seen w /\
      size (onDeclarator id init w) = size w + (if isCssTag tag then 1 else 0))
  \/ (seen (onDeclarator id init w) = seen w /\
      size (onDeclarator id init w) = size w /\
      forall name r s e tag quasis es,
        id = Identifier name -> init <> Some (TaggedTemplateExpression r s e tag quasis es)).
Proof.
  destruct init as [i|]; [|right; repeat split; congruence].
  destruct id as [name| | | |]; try (right; repeat split; congruence).
  destruct i as [|[]|r s e tag quasis es| |]; try (right; repeat split; congruence).
  left. exists name, r, s, e, tag, quasis, es.
  unfold onVariableDeclarator.
  rewrite handleTagged_seen, handleTagged_size. done.
Qed.

Definition countsOnce (n : Node) : Prop :=
  forall w, NoDup (taggedRefs n) ->
    ((forall r, r ∈ taggedRefs n -> r ∉ seen w) ->
      size (visit n w) = size w + cssTaggedCount n /\
      seen (visit n w) ⊆ seen w ∪ list_to_set (taggedRefs n))
    /\
    match n with
    | TaggedTemplateExpression r _ _ tag _ es =>
        r ∈ seen w ->
        (forall r', r' ∈ taggedRefs tag ++ (es ≫= taggedRefs) -> r' ∉ seen w) ->
        size (visit n w) = size w + cssTaggedCount tag + sum_list (cssTaggedCount <$> es) /\
        seen (visit n w) ⊆ seen w ∪ list_to_set (taggedRefs n)
    | _ => True
    end.

Lemma countsOnce_all l :
  Forall countsOnce l ->
  forall w, NoDup (l ≫= taggedRefs) ->
    (forall r, r ∈ l ≫= taggedRefs -> r ∉ seen w) ->
    size (visitAll l w) = size w + sum_list (cssTaggedCount <$> l) /\
    seen (visitAll l w) ⊆ seen w ∪ list_to_set (l ≫= taggedRefs).
Proof.
  induction 1 as [|m l Hm _ IH]; intros w Hnd Hfresh.
  { cbn. split; [lia|set_solver]. }
  rewrite visitAll_cons. rewrite bind_cons in Hnd, Hfresh.
  apply NoDup_app in Hnd as (Hndm & Hcross & Hndl).
  destruct (Hm w Hndm) as [Hhead _].
  destruct Hhead as [Hsize Hseen].
  { intros r Hr. apply Hfresh. set_solver. }
  destruct (IH (visit m w) Hndl) as [Hsize' Hseen'].
  { intros r Hr Hin. apply Hseen in Hin.
    apply elem_of_union in Hin as [Hin|Hin].
    - apply (Hfresh r); [set_solver|done].
    - apply elem_of_list_to_set in Hin. by apply (Hcross r). }
  rewrite bind_cons, fmap_cons, sum_list_cons. split; [lia|set_solver].
Qed.

Lemma countsOnce_visit n : countsOnce n.
Proof.
  induction n as [name|value|r s e tag quasis es IHtag IHes|id init IHid IHinit|cs IHcs]
    using Node_ind; intros w Hnd.
  - split; [|done]. intros _. cbn. split; [lia|set_solver].
  - split; [|done]. intros _. cbn. split; [lia|set_solver].
  - cbn [taggedRefs] in Hnd. apply NoDup_cons in Hnd as [Hr Hnd].
    pose proof Hnd as Hnd'. apply NoDup_app in Hnd' as (Hndtag & Hcross & Hndes).
    assert (Hbelow : forall w0,
      (forall r', r' ∈ taggedRefs tag ++ (es ≫= taggedRefs) -> r' ∉ seen w0) ->
      size (visitAll es (visit tag w0))
        = size w0 + cssTaggedCount tag + sum_list (cssTaggedCount <$> es) /\
      seen (visitAll es (visit tag w0))
        ⊆ seen w0 ∪ list_to_set (taggedRefs tag ++ (es ≫= taggedRefs))).
    { intros w0 Hfresh.
      destruct (IHtag w0 Hndtag) as [Htag _].
      destruct Htag as [Hsize Hseen]. { intros r' Hr'. apply Hfresh. set_solver. }
      destruct (countsOnce_all es IHes (visit tag w0) Hndes) as [Hsize' Hseen'].
      { intros r' Hr' Hin. apply Hseen in Hin.
        apply elem_of_union in Hin as [Hin|Hin].
        - apply (Hfresh r'); [set_solver|done].
        - apply elem_of_list_to_set in Hin. by apply (Hcross r'). }
      split; [lia|set_solver]. }
    split.
    + intros Hfresh. rewrite visit_tagged.
      set (w0 := onTagged (TaggedTemplateExpression r s e tag quasis es) w).
      assert (Hw0 : seen w0 = seen w /\ size w0 = size w + (if isCssTag tag then 1 else 0)).
      { subst w0. unfold onTaggedTemplateExpression.
        rewrite bool_decide_eq_false_2 by (apply Hfresh; set_solver).
        by rewrite handleTagged_seen, handleTagged_size. }
      destruct Hw0 as [Hseen0 Hsize0].
      destruct (Hbelow w0) as [Hsize Hseen].
      { rewrite Hseen0. intros r' Hr'. apply Hfresh. set_solver. }
      cbn [cssTaggedCount taggedRefs]. split; [lia|set_solver].
    + intros Hin Hfresh. rewrite visit_tagged.
      unfold onTaggedTemplateExpression. rewrite bool_decide_eq_true_2 by done.
      destruct (Hbelow w Hfresh) as [Hsize Hseen].
      cbn [taggedRefs]. split; [lia|set_solver].
  - split; [|done]. intros Hfresh. rewrite visit_declarator. cbv zeta.
    cbn [taggedRefs cssTaggedCount] in *.
    apply NoDup_app in Hnd as (Hndid & Hcross & Hndinit).
    destruct (onDeclarator_cases id init w)
      as [(name & r & s & e & tag & quasis & es & -> & -> & Hseen1 & Hsize1)
         |(Hseen1 & Hsize1 & _)].
    + cbn [from_option] in *.
      set (w1 := onDeclarator (Identifier name)
                   (Some (TaggedTemplateExpression r s e tag quasis es)) w) in *.
      change (visit (Identifier name) w1) with w1.
      destruct (IHinit w1 Hndinit) as [_ Hinside].
      cbn [taggedRefs] in Hndinit. apply NoDup_cons in Hndinit as [Hr _].
      destruct Hinside as [Hsize Hseen].
      { rewrite Hseen1. set_solver. }
      { rewrite Hseen1. intros r' Hr' Hin.
        apply elem_of_union in Hin as [Hin|Hin].
        - apply elem_of_singleton in Hin as ->. done.
        - apply (Hfresh r'); [set_solver|done]. }
      cbn [taggedRefs cssTaggedCount] in *. split; [lia|set_solver].
    + destruct (IHid (onDeclarator id init w) Hndid) as [Hid _].
      destruct Hid as [Hsize Hseen].
      { rewrite Hseen1. intros r' Hr'. apply Hfresh. set_solver. }
      destruct init as [i|]; cbn [from_option] in *.
      * destruct (IHinit (visit id (onDeclarator id (Some i) w)) Hndinit) as [Hi _].
        destruct Hi as [Hsize' Hseen'].
        { intros r' Hr' Hin. apply Hseen in Hin. rewrite Hseen1 in Hin.
          apply elem_of_union in Hin as [Hin|Hin].
          - apply (Hfresh r'); [set_solver|done].
          - apply elem_of_list_to_set in Hin. by apply (Hcross r'). }
        split; [lia|set_solver].
      * split; [lia|set_solver].
  - split; [|done]. intros Hfresh. rewrite visit_other.
    by apply countsOnce_all.
Qed.
End Counting.

(** C9. In the tree of an analysed file every tagged-template node is an
    object of its own.  The number of declarations is then the number of
    tagged-template nodes whose tag is the identifier [css]: a node that is
    the initialiser of a variable declarator, and that the traversal
    reaches a second time, is counted once. *)
Theorem declarations_count (config : Configuration) (relativePath : str)
    (parseResult : ParseResult) :
  NoDup (taggedRefs (program parseResult)) ->
  length (declarations (analyze config relativePath parseResult))
  = cssTaggedCount (program parseResult).
Proof.
  intros Hnd. unfold analyze. cbn [declarations].
  destruct (countsOnce_visit config relativePath
              (collectExports (staticExports parseResult))
              (program parseResult) emptyWalk Hnd) as [[Hsize _] _]; [|exact Hsize].
  intros r _. cbn. set_solver.
Qed.

Lemma declarations_count_witness :
  length (declarations (analyze defaultConfiguration $"src/mixed.ts" mixedFile)) = 4.
Proof.
  apply (declarations_count defaultConfiguration $"src/mixed.ts" mixedFile).
  vm_compute. repeat constructor; set_solver.
Defined.

(** ** The class name follows the binding *)

Section Bindings.
Context (config : Configuration) (relativePath : str) (exported : gmap str str).

Local Abbreviation visit := (visit config relativePath exported).
Local Abbreviation visitAll := (visitAll config relativePath exported).
Local Abbreviation handleTagged := (handleTaggedTemplateExpression config relativePath exported).
Local Abbreviation onDeclarator := (onVariableDeclarator config relativePath exported).
Local Abbreviation onTagged := (onTaggedTemplateExpression config relativePath exported).
Local Abbreviation seen := taggedTemplateExpressionFromVariableDeclarator.
Local Abbreviation size w := (length (w_declarations w)).
Local Abbreviation from start bindings :=
  (imap (fun k => declarationOf config relativePath (start + k)) bindings).

Lemma from_app start (bindings1 bindings2 : list (option str * Node)) :
  from start (bindings1 ++ bindings2)
  = from start bindings1 ++ from (start + length bindings1) bindings2.
Proof.
  rewrite imap_app. f_equal. apply imap_ext. intros k b _. cbn. f_equal. lia.
Qed.

Ltac from_norm :=
  rewrite ?from_app, ?length_app, ?length_imap, <-?app_assoc, ?Nat.add_assoc.

Lemma handleTagged_declarations localName r s e tag quasis es w :
  w_declarations (handleTagged localName (TaggedTemplateExpression r s e tag quasis es) w)
  = w_declarations w
      ++ from (size w)
           (if isCssTag tag then [(localName, TaggedTemplateExpression r s e tag quasis es)]
            else []).
Proof.
  cbn [handleTaggedTemplateExpression]. destruct (isCssTag tag); [|by rewrite app_nil_r].
  assert (Hpush :
    w_declarations (pushDeclaration
      {| className := generateClassName config relativePath (size w) localName;
         node := TaggedTemplateExpression r s e tag quasis es;
         hasInterpolations := bool_decide (0 < length es) |} w)
    = w_declarations w ++ from (size w) [(localName, TaggedTemplateExpression r s e tag quasis es)]).
  { cbn. unfold declarationOf, generateClassName, classKey. cbn.
    by rewrite Nat.add_0_r. }
  destruct localName; exact Hpush.
Qed.

(** What the traversal of [n] appends to the declarations: when no
    template of [n] has been met before, the declarations of the bindings
    of [n]; when [n] is a template that a declarator has handled, those of
    the bindings below it. *)
Definition bindsOnce (n : Node) : Prop :=
  forall w, NoDup (taggedRefs n) ->
    ((forall r, r ∈ taggedRefs n -> r ∉ seen w) ->
      w_declarations (visit n w) = w_declarations w ++ from (size w) (cssBindings n))
    /\
    match n with
    | TaggedTemplateExpression r _ _ tag _ es =>
        r ∈ seen w ->
        (forall r', r' ∈ taggedRefs tag ++ (es ≫= taggedRefs) -> r' ∉ seen w) ->
        w_declarations (visit n w)
        = w_declarations w ++ from (size w) (cssBindings tag ++ (es ≫= cssBindings))
    | _ => True
    end.

Lemma seen_visit n w :
  NoDup (taggedRefs n) ->
  (forall r, r ∈ taggedRefs n -> r ∉ seen w) ->
  seen (visit n w) ⊆ seen w ∪ list_to_set (taggedRefs n).
Proof.
  intros Hnd Hfresh.
  by destruct (countsOnce_visit config relativePath exported n w Hnd) as [[_ Hseen] _].
Qed.

Lemma bindsOnce_all l :
  Forall bindsOnce l ->
  forall w, NoDup (l ≫= taggedRefs) ->
    (forall r, r ∈ l ≫= taggedRefs -> r ∉ seen w) ->
    w_declarations (visitAll l w)
    = w_declarations w ++ from (size w) (l ≫= cssBindings) /\
    seen (visitAll l w) ⊆ seen w ∪ list_to_set (l ≫= taggedRefs).
Proof.
  induction 1 as [|m l Hm _ IH]; intros w Hnd Hfresh.
  { cbn. split; [by rewrite app_nil_r|set_solver]. }
  rewrite visitAll_cons. rewrite bind_cons in Hnd, Hfresh.
  apply NoDup_app in Hnd as (Hndm & Hcross & Hndl).
  destruct (Hm w Hndm) as [Hhead _].
  assert (Hfreshm : forall r, r ∈ taggedRefs m -> r ∉ seen w).
  { intros r Hr. apply Hfresh. set_solver. }
  specialize (Hhead Hfreshm).
  pose proof (seen_visit m w Hndm Hfreshm) as Hseen.
  destruct (IH (visit m w) Hndl) as [Hdecls Hseen'].
  { intros r Hr Hin. apply Hseen in Hin.
    apply elem_of_union in Hin as [Hin|Hin].
    - apply (Hfresh r); [set_solver|done].
    - apply elem_of_list_to_set in Hin. by apply (Hcross r). }
  split; [|rewrite bind_cons; set_solver].
  rewrite Hdecls, Hhead, bind_cons. by from_norm.
Qed.

Lemma bindsOnce_visit n : bindsOnce n.
Proof.
  induction n as [name|value|r s e tag quasis es IHtag IHes|id init IHid IHinit|cs IHcs]
    using Node_ind; intros w Hnd.
  - split; [|done]. intros _. cbn. by rewrite app_nil_r.
  - split; [|done]. intros _. cbn. by rewrite app_nil_r.
  - cbn [taggedRefs] in Hnd. apply NoDup_cons in Hnd as [Hr Hnd].
    pose proof Hnd as Hnd'. apply NoDup_app in Hnd' as (Hndtag & Hcross & Hndes).
    assert (Hbelow : forall w0,
      (forall r', r' ∈ taggedRefs tag ++ (es ≫= taggedRefs) -> r' ∉ seen w0) ->
      w_declarations (visitAll es (visit tag w0))
      = w_declarations w0 ++ from (size w0) (cssBindings tag ++ (es ≫= cssBindings))).
    { intros w0 Hfresh.
      destruct (IHtag w0 Hndtag) as [Htag _].
      assert (Hfreshtag : forall r', r' ∈ taggedRefs tag -> r' ∉ seen w0).
      { intros r' Hr'. apply Hfresh. set_solver. }
      specialize (Htag Hfreshtag).
      pose proof (seen_visit tag w0 Hndtag Hfreshtag) as Hseen.
      destruct (bindsOnce_all es IHes (visit tag w0) Hndes) as [Hdecls _].
      { intros r' Hr' Hin. apply Hseen in Hin.
        apply elem_of_union in Hin as [Hin|Hin].
        - apply (Hfresh r'); [set_solver|done].
        - apply elem_of_list_to_set in Hin. by apply (Hcross r'). }
      rewrite Hdecls, Htag. by from_norm. }
    split.
    + intros Hfresh. rewrite visit_tagged.
      set (n := TaggedTemplateExpression r s e tag quasis es).
      set (w0 := onTagged n w).
      assert (Hw0 : seen w0 = seen w /\
                    w_declarations w0
                    = w_declarations w ++ from (size w) (if isCssTag tag then [(None, n)] else [])).
      { subst w0 n. unfold onTaggedTemplateExpression.
        rewrite bool_decide_eq_false_2 by (apply Hfresh; set_solver).
        by rewrite handleTagged_seen, handleTagged_declarations. }
      destruct Hw0 as [Hseen0 Hdecls0].
      rewrite Hbelow.
      2:{ rewrite Hseen0. intros r' Hr'. apply Hfresh. set_solver. }
      subst n. cbn [cssBindings]. rewrite Hdecls0. by from_norm.
    + intros Hin Hfresh. rewrite visit_tagged.
      unfold onTaggedTemplateExpression. rewrite bool_decide_eq_true_2 by done.
      by apply Hbelow.
  - split; [|done]. intros Hfresh. rewrite visit_declarator. cbv zeta.
    cbn [taggedRefs] in *.
    apply NoDup_app in Hnd as (Hndid & Hcross & Hndinit).
    destruct (onDeclarator_cases config relativePath exported id init w)
      as [(name & r & s & e & tag & quasis & es & -> & -> & Hseen1 & _)
         |(Hseen1 & _ & Hother)].
    + cbn [from_option cssBindings] in *.
      set (n := TaggedTemplateExpression r s e tag quasis es) in *.
      set (w1 := onDeclarator (Identifier name) (Some n) w) in *.
      change (visit (Identifier name) w1) with w1.
      assert (Hdecls1 : w_declarations w1
                        = w_declarations w
                            ++ from (size w) (if isCssTag tag then [(Some name, n)] else [])).
      { subst w1 n. unfold onVariableDeclarator.
        by rewrite handleTagged_declarations. }
      destruct (IHinit w1 Hndinit) as [_ Hinside].
      subst n. cbn [taggedRefs] in Hndinit. apply NoDup_cons in Hndinit as [Hr _].
      rewrite Hinside.
      * rewrite Hdecls1. by from_norm.
      * rewrite Hseen1. set_solver.
      * rewrite Hseen1. intros r' Hr' Hin.
        apply elem_of_union in Hin as [Hin|Hin].
        -- apply elem_of_singleton in Hin as ->. done.
        -- apply (Hfresh r'); [set_solver|done].
    + assert (Hdecls1 : w_declarations (onDeclarator id init w) = w_declarations w).
      { unfold onVariableDeclarator.
        destruct init as [i|]; [|done]. destruct id as [name| | | |]; try done.
        destruct i as [|[]|r s e tag quasis es| |]; try done.
        by destruct (Hother name r s e tag quasis es eq_refl). }
      destruct (IHid (onDeclarator id init w) Hndid) as [Hid _].
      assert (Hfreshid : forall r', r' ∈ taggedRefs id -> r' ∉ seen (onDeclarator id init w)).
      { rewrite Hseen1. intros r' Hr'. apply Hfresh. set_solver. }
      specialize (Hid Hfreshid).
      pose proof (seen_visit id _ Hndid Hfreshid) as Hseen.
      assert (Hshape : cssBindings (VariableDeclarator id init)
                       = cssBindings id ++ from_option cssBindings [] init).
      { destruct init as [i|]; cbn [from_option cssBindings].
        - destruct id as [name| | | |]; try done.
          destruct i as [|[]|r s e tag quasis es| |]; try done.
          by destruct (Hother name r s e tag quasis es eq_refl).
        - destruct id; by rewrite ?app_nil_r. }
      rewrite Hshape.
      destruct init as [i|]; cbn [from_option] in *.
      * destruct (IHinit (visit id (onDeclarator id (Some i) w)) Hndinit) as [Hi _].
        rewrite Hi.
        2:{ intros r' Hr' Hin. apply Hseen in Hin. rewrite Hseen1 in Hin.
            apply elem_of_union in Hin as [Hin|Hin].
            - apply (Hfresh r'); [set_solver|done].
            - apply elem_of_list_to_set in Hin. by apply (Hcross r'). }
        rewrite Hid, Hdecls1. by from_norm.
      * by rewrite Hid, Hdecls1, app_nil_r.
  - split; [|done]. intros Hfresh. rewrite visit_other.
    by apply bindsOnce_all.
Qed.
End Bindings.

Lemma declarations_bindings config relativePath parseResult :
  NoDup (taggedRefs (program parseResult)) ->
  declarations (analyze config relativePath parseResult)
  = imap (declarationOf config relativePath) (cssBindings (program parseResult)).
Proof.
  intros Hnd. unfold analyze. cbn [declarations].
  destruct (bindsOnce_visit config relativePath
              (collectExports (staticExports parseResult))
              (program parseResult) emptyWalk Hnd) as [Hdecls _].
  rewrite Hdecls; [done|]. intros r _. cbn. set_solver.
Qed.

(** C7. In the tree of a file every tagged-template node is an object
    of its own.  The declarations of a freshly analysed file are then the
    templates with tag [css] in the order of the traversal, and the class
    name of the declaration at position [i] is the configured prefix
    followed by the hash of the text made of the project-relative path
    (which holds no backslash), [i], and the variable that the template
    is bound to or the absent marker: the class names of a file are a
    function of these triples and of nothing else, whatever the host, the
    state of the caches and the rest of the file. *)
Theorem class_name_deterministic `{Host} (config : Configuration)
    (filePath code : str) (st st' : PluginState) (info : ParsedFileInfo)
    (parseResult : ParseResult) :
  parseSync filePath code = Some parseResult ->
  NoDup (taggedRefs (program parseResult)) ->
  parseFile config filePath (Some code) st = (Some info, st') ->
  ("\"%char ∉ toRelativePath filePath) /\
  node <$> declarations info = snd <$> cssBindings (program parseResult) /\
  className <$> declarations info
  = imap (fun i binding =>
            classPrefix config
              ++ hashText (toRelativePath filePath ++ $":" ++ decimal i ++ $":"
                             ++ nameText binding.1))
         (cssBindings (program parseResult)).
Proof.
  intros Hparse Hnd. rewrite parseFile_fresh, Hparse. cbv zeta. intros [= <- _].
  split; [apply toRelativePath_normalized|].
  rewrite (declarations_bindings config _ parseResult Hnd).
  split.
  - apply list_eq. intros i. rewrite !list_lookup_fmap, list_lookup_imap.
    by destruct (cssBindings (program parseResult) !! i).
  - apply list_eq. intros i. rewrite list_lookup_fmap, !list_lookup_imap.
    by destruct (cssBindings (program parseResult) !! i).
Qed.

Lemma class_name_deterministic_witness :
  className <$> declarations (analyze defaultConfiguration $"src/nested.ts" nestedFile)
  = [$"css-" ++ hashText $"src/nested.ts:0:b";
     $"css-" ++ hashText $"src/nested.ts:1:undefined"].
Proof.
  refine (proj2 (proj2 (@class_name_deterministic nestedHost defaultConfiguration
            $"/proj/src/nested.ts" nestedText initialState _ _ nestedFile _ _ _))).
  - reflexivity.
  - vm_compute. repeat constructor; set_solver.
  - vm_compute. reflexivity.
Defined.

(** ** Export tracking *)

(** Every tracked export comes from an export entry that is not a
    re-export. *)
Definition fromLocalExports (exports : list StaticExport) (m : gmap str str) : Prop :=
  forall localName exportedName, m !! localName = Some exportedName ->
    exists staticExport entry,
      staticExport ∈ exports /\ entry ∈ export_entries staticExport /\
      export_importName entry = ExportImportName_None /\
      export_exportName entry = ExportExportName_Name exportedName /\
      export_localName entry = ExportLocalName_Name localName.

Lemma collectExportEntry_tracked m entry localName exportedName :
  collectExportEntry m entry !! localName = Some exportedName ->
  m !! localName = Some exportedName \/
  (export_importName entry = ExportImportName_None /\
   export_exportName entry = ExportExportName_Name exportedName /\
   export_localName entry = ExportLocalName_Name localName).
Proof.
  unfold collectExportEntry.
  destruct (export_importName entry); auto.
  destruct (export_exportName entry) as [x| |]; auto.
  destruct (export_localName entry) as [l| |]; auto.
  rewrite lookup_insert. case_decide; [|auto].
  intros [= <-]. subst. auto.
Qed.

Lemma collectExports_tracked exports : fromLocalExports exports (collectExports exports).
Proof.
  unfold collectExports.
  assert (Hgen : forall done todo m,
    fromLocalExports done m ->
    fromLocalExports (done ++ todo)
      (foldl (fun m staticExport => foldl collectExportEntry m (export_entries staticExport))
             m todo)).
  { intros done todo. revert done.
    induction todo as [|staticExport todo IH]; intros done m Hm; cbn [foldl].
    { by rewrite app_nil_r. }
    rewrite cons_middle, (assoc_L (++) done [staticExport] todo). apply IH.
    assert (Hentries : forall seenEntries entries m0,
      (forall l x, m0 !! l = Some x ->
         (exists se e, se ∈ done /\ e ∈ export_entries se /\
            export_importName e = ExportImportName_None /\
            export_exportName e = ExportExportName_Name x /\
            export_localName e = ExportLocalName_Name l) \/
         (exists e, e ∈ seenEntries /\
            export_importName e = ExportImportName_None /\
            export_exportName e = ExportExportName_Name x /\
            export_localName e = ExportLocalName_Name l)) ->
      forall l x, foldl collectExportEntry m0 entries !! l = Some x ->
         (exists se e, se ∈ done /\ e ∈ export_entries se /\
            export_importName e = ExportImportName_None /\
            export_exportName e = ExportExportName_Name x /\
            export_localName e = ExportLocalName_Name l) \/
         (exists e, e ∈ seenEntries ++ entries /\
            export_importName e = ExportImportName_None /\
            export_exportName e = ExportExportName_Name x /\
            export_localName e = ExportLocalName_Name l)).
    { intros seenEntries entries. revert seenEntries.
      induction entries as [|entry entries IHe]; intros seenEntries m0 Hm0 l x; cbn [foldl].
      { rewrite app_nil_r. apply Hm0. }
      rewrite cons_middle, (assoc_L (++) seenEntries [entry] entries). apply IHe.
      intros l' x' Hl'. apply collectExportEntry_tracked in Hl' as [Hl'|Hl'].
      - destruct (Hm0 l' x' Hl') as [?|(e & He & ?)]; [by left|].
        right. exists e. split; [set_solver|done].
      - right. exists entry. split; [set_solver|done]. }
    intros l x Hl.
    destruct (Hentries [] (export_entries staticExport) m) with (l := l) (x := x)
      as [(se & e & Hse & He)|(e & He & Hrest)]; [|exact Hl| |].
    - intros l' x' Hl'. left. by apply Hm.
    - exists se, e. split; [set_solver|done].
    - exists staticExport, e. split; [set_solver|done]. }
  apply (Hgen [] exports ∅). intros l x Hl. by rewrite lookup_empty in Hl.
Qed.

(** Every exported value is recorded under the exported name of a tracked
    local. *)
Definition exportsAreTracked (exported : gmap str str) (w : Walk) : Prop :=
  forall exportedName value, w_exportNameToValueMap w !! exportedName = Some value ->
    exists localName, exported !! localName = Some exportedName.

Section ExportFacts.
Context (config : Configuration) (relativePath : str) (exported : gmap str str).

Lemma exportsAreTracked_record localName value w :
  exportsAreTracked exported w ->
  exportsAreTracked exported (recordIdentifierWithValue exported localName value w).
Proof.
  intros Hw exportedName v. cbn.
  destruct (exported !! localName) as [x|] eqn:Hx; [|apply Hw].
  rewrite lookup_insert. case_decide; [|apply Hw].
  intros _. subst. eauto.
Qed.

Lemma exportsAreTracked_handle localName n w :
  exportsAreTracked exported w ->
  exportsAreTracked exported
    (handleTaggedTemplateExpression config relativePath exported localName n w).
Proof.
  intros Hw. destruct n as [| |r s e tag quasis es| |]; try exact Hw.
  cbn [handleTaggedTemplateExpression]. destruct (isCssTag tag); [|exact Hw].
  destruct localName; [apply exportsAreTracked_record|]; exact Hw.
Qed.

Lemma exportsAreTracked_visit n w :
  exportsAreTracked exported w ->
  exportsAreTracked exported (visit config relativePath exported n w).
Proof.
  apply visit_preserves.
  - intros id init w' Hw'. unfold onVariableDeclarator.
    destruct init as [i|]; [|exact Hw'].
    destruct id; try exact Hw'.
    destruct i as [|[]| | |]; try exact Hw'.
    + by apply exportsAreTracked_record.
    + by apply exportsAreTracked_record.
    + apply exportsAreTracked_handle. exact Hw'.
  - intros m w' Hw'. unfold onTaggedTemplateExpression.
    destruct m; try exact Hw'.
    case_bool_decide; [exact Hw'|]. apply exportsAreTracked_handle, Hw'.
Qed.
End ExportFacts.

(** A name that the file exports only through re-exports has no value. *)
Lemma reexport_is_absent config relativePath parseResult name :
  (forall staticExport entry,
      staticExport ∈ staticExports parseResult ->
      entry ∈ export_entries staticExport ->
      export_exportName entry = ExportExportName_Name name ->
      export_importName entry <> ExportImportName_None) ->
  exportNameToValueMap (analyze config relativePath parseResult) !! name = None.
Proof.
  intros Hre. destruct (_ !! name) as [value|] eqn:Hvalue; [|done]. exfalso.
  unfold analyze in Hvalue. cbn [exportNameToValueMap] in Hvalue.
  apply exportsAreTracked_visit in Hvalue as [localName Hlocal].
  - apply collectExports_tracked in Hlocal as (se & e & Hse & He & Himport & Hexport & _).
    by apply (Hre se e).
  - intros k v Hk. cbn in Hk. by rewrite lookup_empty in Hk.
Qed.

(** ** The cache and cross-file resolution *)

Section CacheFacts.
Context `{Host} (config : Configuration).

Lemma parseFile_cached filePath cached st :
  parsedFileInfoCache st !! filePath = Some cached ->
  parseFile config filePath None st = (Some cached, st).
Proof.
  intros Hhit. unfold parseFile, mbind, M_bind, cacheGet. by rewrite Hhit.
Qed.

Lemma parseFile_miss filePath st :
  parsedFileInfoCache st !! filePath = None ->
  parseFile config filePath None st =
  match readFile filePath with
  | Some sourceText =>
      match parseSync filePath sourceText with
      | Some parseResult =>
          let info := analyze config (toRelativePath filePath) parseResult in
          (Some info, setCache filePath info st)
      | None => (None, st)
      end
  | None => (None, st)
  end.
Proof.
  intros Hmiss. unfold parseFile, mbind, M_bind, cacheGet. rewrite Hmiss.
  destruct (readFile filePath) as [sourceText|]; cbn; [|done].
  by destruct (parseSync filePath sourceText).
Qed.

Lemma resolveValue_imported filePath info identifierName entry target st :
  localIdentifiers info !! identifierName = None ->
  importedIdentifiers info !! identifierName = Some entry ->
  resolve (source entry) filePath = Some target ->
  resolveValue config filePath info identifierName st =
  match parseFile config target None st with
  | (Some targetInfo, st') => (Some (exportNameToValueMap targetInfo !! imported entry), st')
  | (None, st') => (None, st')
  end.
Proof.
  intros Hlocal Himported Hresolve. unfold resolveValue.
  rewrite Hlocal, Himported, Hresolve. unfold mbind, M_bind.
  by destruct (parseFile config target None st) as [[targetInfo|] st'].
Qed.
End CacheFacts.

(** C6. An identifier that is imported and not local is resolved by one
    look-up in the [exportNameToValueMap] of the file the host resolves
    its module to.  When that file (read from the disk) exports the name
    only through re-exports, the look-up is unresolved, and the cache has
    grown by that one file only: the module behind the re-export has not
    been analysed. *)
Theorem resolution_is_one_hop `{Host} (config : Configuration)
    (filePath : str) (info : ParsedFileInfo) (identifierName : str)
    (entry : ImportedIdentifier) (target : str) (st : PluginState) :
  localIdentifiers info !! identifierName = None ->
  importedIdentifiers info !! identifierName = Some entry ->
  resolve (source entry) filePath = Some target ->
  resolveValue config filePath info identifierName st =
    match parseFile config target None st with
    | (Some targetInfo, st') => (Some (exportNameToValueMap targetInfo !! imported entry), st')
    | (None, st') => (None, st')
    end
  /\
  forall sourceText parseResult,
    parsedFileInfoCache st !! target = None ->
    readFile target = Some sourceText ->
    parseSync target sourceText = Some parseResult ->
    onlyReexported parseResult (imported entry) ->
    resolveValue config filePath info identifierName st =
      (Some None,
       setCache target (analyze config (toRelativePath target) parseResult) st).
Proof.
  intros Hlocal Himported Hresolve.
  split; [by apply resolveValue_imported|].
  intros sourceText parseResult Hmiss Hread Hparse Hre.
  rewrite (resolveValue_imported config filePath info identifierName entry target)
    by done.
  rewrite parseFile_miss, Hread, Hparse by done. cbv beta iota zeta.
  rewrite reexport_is_absent; [done|].
  intros se e Hse He. unfold onlyReexported in Hre.
  rewrite Forall_forall in Hre. specialize (Hre se Hse).
  rewrite Forall_forall in Hre. by apply Hre.
Qed.

Lemma resolution_is_one_hop_witness :
  @resolveValue reexportHost defaultConfiguration $"/proj/src/main.ts"
     (analyze defaultConfiguration $"src/main.ts" mainFile) $"x" initialState
  = (Some None,
     setCache $"/proj/src/lib.ts" (analyze defaultConfiguration $"src/lib.ts" libFile)
       initialState).
Proof.
  refine (proj2 (@resolution_is_one_hop reexportHost defaultConfiguration
            $"/proj/src/main.ts" (analyze defaultConfiguration $"src/main.ts" mainFile)
            $"x" {| source := $"./lib"; imported := $"x" |} $"/proj/src/lib.ts"
            initialState _ _ _) libText libFile _ _ _ _).
  - vm_compute. reflexivity.
  - vm_compute. reflexivity.
  - vm_compute. reflexivity.
  - vm_compute. reflexivity.
  - vm_compute. reflexivity.
  - vm_compute. reflexivity.
  - repeat constructor. cbn. discriminate.
Defined.

(** C8. When source text is supplied for a path, the result is the
    analysis of that very text, whatever the cache holds for the path, and
    it replaces the cache entry of the path.  A stored analysis is returned
    only when no text is supplied; without text and without an entry the
    file is read, analysed and stored. *)
Theorem cache_serves_only_without_text `{Host} (config : Configuration)
    (filePath : str) (st : PluginState) :
  (forall code,
     parseFile config filePath (Some code) st =
     match parseSync filePath code with
     | Some parseResult =>
         let fresh := analyze config (toRelativePath filePath) parseResult in
         (Some fresh, setCache filePath fresh st)
     | None => (None, st)
     end) /\
  (forall code info st',
     parseFile config filePath (Some code) st = (Some info, st') ->
     (exists parseResult,
        parseSync filePath code = Some parseResult /\
        info = analyze config (toRelativePath filePath) parseResult) /\
     parsedFileInfoCache st' = <[filePath := info]> (parsedFileInfoCache st) /\
     parseFile config filePath None st' = (Some info, st')) /\
  (forall cached,
     parsedFileInfoCache st !! filePath = Some cached ->
     parseFile config filePath None st = (Some cached, st)) /\
  (parsedFileInfoCache st !! filePath = None ->
   parseFile config filePath None st =
   match readFile filePath ≫= parseSync filePath with
   | Some parseResult =>
       let fresh := analyze config (toRelativePath filePath) parseResult in
       (Some fresh, setCache filePath fresh st)
   | None => (None, st)
   end).
Proof.
  split; [intros code; apply parseFile_fresh|].
  split; [|split; [intros cached; apply parseFile_cached|]].
  - intros code info st'. rewrite parseFile_fresh.
    destruct (parseSync filePath code) as [parseResult|]; [|discriminate].
    cbv zeta. intros [= <- <-]. split; [eauto|]. split; [done|].
    apply parseFile_cached. cbn. apply lookup_insert_eq.
  - intros Hmiss. rewrite parseFile_miss by done.
    destruct (readFile filePath) as [sourceText|]; cbn; [|done].
    by destruct (parseSync filePath sourceText).
Qed.

Lemma cache_serves_only_without_text_witness :
  let stale := {| declarations := []; localIdentifiers := ∅;
                  importedIdentifiers := ∅; exportNameToValueMap := ∅ |} in
  let st := setCache $"/proj/src/a.ts" stale initialState in
  let fresh := analyze defaultConfiguration $"src/a.ts" basicFile in
  @parseFile basicHost defaultConfiguration $"/proj/src/a.ts" None st = (Some stale, st) /\
  parsedFileInfoCache (setCache $"/proj/src/a.ts" fresh st)
    = <[$"/proj/src/a.ts" := fresh]> (parsedFileInfoCache st) /\
  @parseFile basicHost defaultConfiguration $"/proj/src/a.ts" None
     (setCache $"/proj/src/a.ts" fresh st)
  = (Some fresh, setCache $"/proj/src/a.ts" fresh st).
Proof.
  intros stale st fresh.
  destruct (@cache_serves_only_without_text basicHost defaultConfiguration
              $"/proj/src/a.ts" st) as (_ & Hfresh & Hhit & _).
  split.
  - apply Hhit. vm_compute. reflexivity.
  - apply (Hfresh basicText fresh (setCache $"/proj/src/a.ts" fresh st)).
    vm_compute. reflexivity.
Defined.

(** ** Recording of class names *)

Section Events.
Context (config : Configuration) (relativePath : str) (exported : gmap str str).

Local Abbreviation visit := (visit config relativePath exported).
Local Abbreviation visitAll := (visitAll config relativePath exported).
Local Abbreviation dispatch := (dispatch config relativePath exported).

Lemma visitAll_events l w :
  Forall (fun n => forall w, visit n w = foldl dispatch w (events n)) l ->
  visitAll l w = foldl dispatch w (l ≫= events).
Proof.
  intros Hl. revert w. induction Hl as [|m l Hm _ IH]; intros w; [done|].
  by rewrite visitAll_cons, bind_cons, foldl_app, IH, Hm.
Qed.

(** The traversal runs the callbacks of [events] in order. *)
Lemma visit_events n w : visit n w = foldl dispatch w (events n).
Proof.
  revert w.
  induction n as [name|value|r s e tag quasis es IHtag IHes|id init IHid IHinit|cs IHcs]
    using Node_ind; intros w.
  - done.
  - done.
  - rewrite visit_tagged. cbn [events foldl]. rewrite foldl_app.
    by rewrite visitAll_events, IHtag.
  - rewrite visit_declarator. cbn [events foldl]. rewrite foldl_app, <-IHid.
    cbv zeta. destruct init as [i|]; cbn [from_option foldl]; [apply IHinit|done].
  - rewrite visit_other. by apply visitAll_events.
Qed.

Lemma dispatch_declarations w event :
  exists added, w_declarations (dispatch w event) = w_declarations w ++ added.
Proof.
  assert (Hhandle : forall localName n w0,
    exists added,
      w_declarations (handleTaggedTemplateExpression config relativePath exported
                        localName n w0) = w_declarations w0 ++ added).
  { intros localName n w0. destruct n as [| |r s e tag quasis es| |];
      try (exists []; by rewrite app_nil_r).
    cbn [handleTaggedTemplateExpression].
    destruct (isCssTag tag); [|exists []; by rewrite app_nil_r].
    destruct localName; eexists; reflexivity. }
  destruct event as [id init|n]; cbn [dispatch].
  - unfold onVariableDeclarator.
    destruct init as [i|]; [|exists []; by rewrite app_nil_r].
    destruct id; try (exists []; by rewrite app_nil_r).
    destruct i as [|[]|r s e tag quasis es| |]; try (exists []; by rewrite app_nil_r).
    apply (Hhandle (Some name) (TaggedTemplateExpression r s e tag quasis es)
             (addFromVariableDeclarator r w)).
  - unfold onTaggedTemplateExpression.
    destruct n; try (exists []; by rewrite app_nil_r).
    case_bool_decide; [exists []; by rewrite app_nil_r|]. apply Hhandle.
Qed.

Lemma dispatch_all_declarations l w :
  exists added, w_declarations (foldl dispatch w l) = w_declarations w ++ added.
Proof.
  revert w. induction l as [|event l IH]; intros w; cbn [foldl].
  { exists []. by rewrite app_nil_r. }
  destruct (IH (dispatch w event)) as [added2 ->].
  destruct (dispatch_declarations w event) as [added1 ->].
  exists (added1 ++ added2). by rewrite app_assoc.
Qed.

(** A callback changes [localIdentifiers] and [exportNameToValueMap]
    only for the name it records. *)
Lemma dispatch_frame w event :
  (forall name, recordedName event <> Some name ->
     w_localIdentifiers (dispatch w event) !! name = w_localIdentifiers w !! name) /\
  (forall exportedName,
     (forall localName, recordedName event = Some localName ->
        exported !! localName <> Some exportedName) ->
     w_exportNameToValueMap (dispatch w event) !! exportedName
     = w_exportNameToValueMap w !! exportedName).
Proof.
  assert (Hrecord : forall localName value w0,
    (forall name, Some localName <> Some name ->
       w_localIdentifiers (recordIdentifierWithValue exported localName value w0) !! name
       = w_localIdentifiers w0 !! name) /\
    (forall exportedName,
       (forall l, Some localName = Some l -> exported !! l <> Some exportedName) ->
       w_exportNameToValueMap (recordIdentifierWithValue exported localName value w0)
         !! exportedName
       = w_exportNameToValueMap w0 !! exportedName)).
  { intros localName value w0. split.
    - intros name Hne. cbn. apply lookup_insert_ne. congruence.
    - intros exportedName Hne. cbn.
      destruct (exported !! localName) as [x|] eqn:Hx; [|done].
      apply lookup_insert_ne. intros ->. by apply (Hne localName). }
  destruct event as [id init|n]; cbn [dispatch recordedName].
  - unfold onVariableDeclarator.
    destruct init as [i|]; [|done].
    destruct id as [name0| | | |]; try done.
    destruct i as [|[]|r s e tag quasis es| |]; try done; try apply Hrecord.
    cbn [handleTaggedTemplateExpression].
    destruct (isCssTag tag); [|done].
    exact (Hrecord name0 _ (pushDeclaration _ (addFromVariableDeclarator r w))).
  - unfold onTaggedTemplateExpression.
    destruct n as [| |r s e tag quasis es| |]; try done.
    case_bool_decide; [done|]. cbn [handleTaggedTemplateExpression].
    by destruct (isCssTag tag).
Qed.

Lemma dispatch_all_locals name after w :
  notRebound name after ->
  w_localIdentifiers (foldl dispatch w after) !! name = w_localIdentifiers w !! name.
Proof.
  intros Hafter. revert w. induction Hafter as [|event after Hevent _ IH]; intros w; [done|].
  cbn [foldl]. rewrite IH. by apply dispatch_frame.
Qed.

Lemma dispatch_all_exports exportedName after w :
  notReexported exported exportedName after ->
  w_exportNameToValueMap (foldl dispatch w after) !! exportedName
  = w_exportNameToValueMap w !! exportedName.
Proof.
  intros Hafter. revert w. induction Hafter as [|event after Hevent _ IH]; intros w; [done|].
  cbn [foldl]. rewrite IH. by apply dispatch_frame.
Qed.
End Events.

(** C10, as the code has it.  A declarator that binds a variable to a
    tagged template with tag [css] appends the declaration and records its class name under the
    variable in [localIdentifiers] and, for a tracked export, under the
    exported name in [exportNameToValueMap].  Nothing is asked of the
    interpolations of the template.  Unless a later declarator records
    the same name again, the analysis of the file holds these values, and
    an identifier of another file that imports the exported name resolves
    to the class name. *)
Theorem bound_class_name_is_recorded `{Host} (config : Configuration)
    (relativePath : str) (parseResult : ParseResult)
    (before after : list VisitorEvent) (name : str)
    (r s e : nat) (tag : Node) (quasis : list str) (expressions : list Node) :
  let exported := collectExports (staticExports parseResult) in
  let init := TaggedTemplateExpression r s e tag quasis expressions in
  let info := analyze config relativePath parseResult in
  let index :=
    length (w_declarations (foldl (dispatch config relativePath exported) emptyWalk before)) in
  let generated := generateClassName config relativePath index (Some name) in
  events (program parseResult)
    = before ++ EnterVariableDeclarator (Identifier name) (Some init) :: after ->
  isCssTag tag = true ->
  notRebound name after ->
  declarations info !! index
    = Some {| className := generated; node := init;
              hasInterpolations := bool_decide (0 < length expressions) |} /\
  localIdentifiers info !! name = Some generated /\
  forall exportedName,
    exported !! name = Some exportedName ->
    notReexported exported exportedName after ->
    exportNameToValueMap info !! exportedName = Some generated /\
    forall importer importerInfo identifierName entry target st st',
      localIdentifiers importerInfo !! identifierName = None ->
      importedIdentifiers importerInfo !! identifierName = Some entry ->
      imported entry = exportedName ->
      resolve (source entry) importer = Some target ->
      parseFile config target None st = (Some info, st') ->
      resolveValue config importer importerInfo identifierName st
      = (Some (Some generated), st').
Proof.
  intros exported init info index generated Hevents Hcss Hafter.
  set (w0 := foldl (dispatch config relativePath exported) emptyWalk before).
  set (w1 := dispatch config relativePath exported w0
               (EnterVariableDeclarator (Identifier name) (Some init))).
  assert (Hfinal : visit config relativePath exported (program parseResult) emptyWalk
                   = foldl (dispatch config relativePath exported) w1 after).
  { by rewrite visit_events, Hevents, foldl_app. }
  assert (Hw1 : w_declarations w1
                = w_declarations w0 ++
                  [{| className := generated; node := init;
                      hasInterpolations := bool_decide (0 < length expressions) |}]
                /\ w_localIdentifiers w1 !! name = Some generated
                /\ forall exportedName, exported !! name = Some exportedName ->
                     w_exportNameToValueMap w1 !! exportedName = Some generated).
  { subst w1. cbn [dispatch onVariableDeclarator]. subst init.
    cbn [handleTaggedTemplateExpression]. rewrite Hcss. cbn.
    split; [done|]. split; [apply lookup_insert_eq|].
    intros exportedName ->. apply lookup_insert_eq. }
  destruct Hw1 as (Hdecls & Hlocal & Hexport).
  split; [|split].
  - unfold info, analyze. cbn [declarations]. fold exported. rewrite Hfinal.
    destruct (dispatch_all_declarations config relativePath exported after w1) as [added ->].
    rewrite Hdecls, <-app_assoc. by apply list_lookup_middle.
  - unfold info, analyze. cbn [localIdentifiers]. fold exported. rewrite Hfinal.
    by rewrite dispatch_all_locals.
  - intros exportedName Hexported Hkept.
    assert (Hvalue : exportNameToValueMap info !! exportedName = Some generated).
    { unfold info, analyze. cbn [exportNameToValueMap]. fold exported. rewrite Hfinal.
      rewrite dispatch_all_exports by done. by apply Hexport. }
    split; [exact Hvalue|].
    intros importer importerInfo identifierName entry target st st'
      Hnotlocal Himported Hname Hresolve Hparse.
    rewrite (resolveValue_imported config importer importerInfo identifierName entry target)
      by done.
    by rewrite Hparse, Hname, Hvalue.
Qed.

Lemma bound_class_name_is_recorded_witness :
  @resolveValue themeHost defaultConfiguration $"/proj/src/card.ts"
     (analyze defaultConfiguration $"src/card.ts" cardFile) $"accent" initialState
  = (Some (Some $"css-7c5830af"),
     setCache $"/proj/src/theme.ts" (analyze defaultConfiguration $"src/theme.ts" themeFile)
       initialState).
Proof.
  pose proof (@bound_class_name_is_recorded themeHost defaultConfiguration
    $"src/theme.ts" themeFile []
    [EnterTaggedTemplateExpression
       (TaggedTemplateExpression 1 50 102 (Identifier $"css") [$"color: "; $";"]
          [Other [Other [Other []; Literal (NumberValue $"0.5")];
                  Literal (StringValue $"red"); Literal (StringValue $"blue")]])]
    $"accent" 1 50 102 (Identifier $"css") [$"color: "; $";"]
    [Other [Other [Other []; Literal (NumberValue $"0.5")];
            Literal (StringValue $"red"); Literal (StringValue $"blue")]]) as W.
  cbv zeta in W.
  destruct W as (_ & _ & W).
  - reflexivity.
  - reflexivity.
  - repeat constructor. discriminate.
  - destruct (W $"accent") as [_ W2].
    + vm_compute. reflexivity.
    + repeat constructor. intros localName. discriminate.
    + rewrite (W2 $"/proj/src/card.ts" (analyze defaultConfiguration $"src/card.ts" cardFile)
                 $"accent" {| source := $"./theme"; imported := $"accent" |}
                 $"/proj/src/theme.ts" initialState
                 (setCache $"/proj/src/theme.ts"
                    (analyze defaultConfiguration $"src/theme.ts" themeFile) initialState)).
      * vm_compute. reflexivity.
      * vm_compute. reflexivity.
      * vm_compute. reflexivity.
      * reflexivity.
      * vm_compute. reflexivity.
      * vm_compute. reflexivity.
Defined.

(** C10, as the specification states it, fails: a value recorded for a
    name is overwritten by the next one recorded for it, in whatever scope.
    In this [theme.ts] the exported declaration [accent] is followed by a
    function with a local [accent]; the analysis holds the text of the
    local for the name and for the export, and the interpolation of
    [card.ts] resolves to that text, not to the class name. *)
Lemma rebound_name_hides_class_name :
  let info := analyze defaultConfiguration $"src/theme.ts" shadowFile in
  className <$> declarations info = [$"css-7c5830af"] /\
  localIdentifiers info !! $"accent" = Some $"crimson" /\
  exportNameToValueMap info !! $"accent" = Some $"crimson" /\
  @resolveValue shadowHost defaultConfiguration $"/proj/src/card.ts"
     (analyze defaultConfiguration $"src/card.ts" cardFile) $"accent" initialState
  = (Some (Some $"crimson"),
     setCache $"/proj/src/theme.ts" (analyze defaultConfiguration $"src/theme.ts" shadowFile)
       initialState).
Proof. vm_compute. repeat split. Qed.

(** The declaration of [theme.ts] is unresolved: the transform of
    [theme.ts] rewrites nothing and registers no style text.  The
    transform of [card.ts] all the same interpolates its class name. *)
Example unresolved_declaration_is_still_exported :
  @handler themeHost defaultConfiguration themeText $"/proj/src/theme.ts" initialState
    = (Some None,
       setCache $"/proj/src/theme.ts" (analyze defaultConfiguration $"src/theme.ts" themeFile)
         initialState) /\
  exists st,
    @handler themeHost defaultConfiguration cardText $"/proj/src/card.ts" initialState
    = (Some (Some ($"import " ++ [DQUOTE] ++ $"/proj/src/card.ts.8209ec97.css" ++ [DQUOTE]
                   ++ $";" ++ [LF; LF] ++ $"import { accent } from './theme';" ++ [LF]
                   ++ $"export const card = 'css-f44d335c';" ++ [LF])), st) /\
    extractedCssPerFile st !! $"/proj/src/card.ts.8209ec97.css"
    = Some ($".css-f44d335c {" ++ [LF] ++ $"  &.css-7c5830af { margin: 0; }" ++ [LF] ++ $"}").
Proof.
  split; [vm_compute; reflexivity|].
  eexists. split; vm_compute; reflexivity.
Qed.

(** ** The two passes *)

Lemma addProcessedDeclaration_recorded d content processed :
  addProcessedDeclaration d content (recorded processed)
  = recorded (processed ++ [(d, content)]).
Proof.
  unfold addProcessedDeclaration, recorded. cbn. by rewrite !fmap_app.
Qed.

Lemma literalContents_declarations ds literal :
  literalContents ds = Some literal ->
  literal.*1 = filter (fun d => hasInterpolations d = false) ds.
Proof.
  revert literal. induction ds as [|d ds IH]; intros literal; cbn [literalContents].
  { by intros [= <-]. }
  rewrite filter_cons. destruct (hasInterpolations d) eqn:Hd.
  - rewrite decide_False by done. apply IH.
  - rewrite decide_True by done.
    destruct (node_quasis (node d)) as [|quasi ?]; [done|].
    destruct (literalContents ds) as [rest|]; [|done].
    intros [= <-]. cbn. f_equal. by apply IH.
Qed.

Lemma literalContents_content ds literal :
  literalContents ds = Some literal ->
  Forall (fun p => hasInterpolations p.1 = false /\
                   exists rest, node_quasis (node p.1) = p.2 :: rest) literal.
Proof.
  revert literal. induction ds as [|d ds IH]; intros literal; cbn [literalContents].
  { intros [= <-]. constructor. }
  destruct (hasInterpolations d) eqn:Hd; [apply IH|].
  destruct (node_quasis (node d)) as [|quasi rest] eqn:Hq; [done|].
  destruct (literalContents ds) as [l|]; [|done].
  intros [= <-]. constructor; [cbn; eauto|by apply IH].
Qed.

Section ExtractionFacts.
Context `{Host} (config : Configuration).

Lemma pass1_spec ds processed st :
  pass1 ds (recorded processed) st =
  match literalContents ds with
  | Some literal => (Some (recorded (processed ++ literal)), st)
  | None => (None, st)
  end.
Proof.
  revert processed. induction ds as [|d ds IH]; intros processed; cbn [pass1 literalContents].
  { by rewrite app_nil_r. }
  destruct (hasInterpolations d); [apply IH|].
  destruct (node_quasis (node d)) as [|quasi rest]; [done|].
  rewrite addProcessedDeclaration_recorded, IH.
  destruct (literalContents ds) as [literal|]; [|done].
  cbn. by rewrite <-app_assoc.
Qed.

(** The content [p.2] is what the interpolation loop computes for the
    template of [p.1] in some state. *)
Definition interpolatesTo (filePath : str) (info : ParsedFileInfo)
    (p : Declaration * str) : Prop :=
  exists s s',
    interpolate config filePath info (node_quasis (node p.1))
      (node_expressions (node p.1)) [] s = (Some (Some p.2), s').

Lemma pass2_spec filePath info ds processed st acc st' :
  pass2 config filePath info ds (recorded processed) st = (Some acc, st') ->
  exists resolved,
    acc = recorded (processed ++ resolved) /\
    sublist resolved.*1 (filter (fun d => hasInterpolations d = true) ds) /\
    Forall (fun p => hasInterpolations p.1 = true /\ interpolatesTo filePath info p) resolved.
Proof.
  revert processed st. induction ds as [|d ds IH]; intros processed st; cbn [pass2].
  { intros [= <- <-]. exists []. rewrite app_nil_r. repeat split; constructor. }
  rewrite filter_cons. destruct (hasInterpolations d) eqn:Hd.
  - rewrite decide_True by done. unfold mbind, M_bind.
    destruct (interpolate config filePath info (node_quasis (node d))
                (node_expressions (node d)) [] st) as [[[content|]|] st1] eqn:Hrun;
      [| |done].
    + rewrite addProcessedDeclaration_recorded. intros Hrest.
      apply IH in Hrest as (resolved & -> & Hsub & Hall).
      exists ((d, content) :: resolved). rewrite <-app_assoc. split; [done|].
      split; [by constructor|].
      constructor; [|done]. split; [done|]. by exists st, st1.
    + intros Hrest. apply IH in Hrest as (resolved & -> & Hsub & Hall).
      exists resolved. split; [done|]. split; [by constructor|done].
  - rewrite decide_False by done. apply IH.
Qed.

(** *** The registry of style texts is not touched by the extraction *)

Lemma keepsStyles_ret {A} (x : A) : keepsStyles (mret x).
Proof. done. Qed.

Lemma keepsStyles_throw {A} : keepsStyles (@throw A).
Proof. done. Qed.

Lemma keepsStyles_bind {A B} (m : M A) (f : A -> M B) :
  keepsStyles m -> (forall x, keepsStyles (f x)) -> keepsStyles (m ≫= f).
Proof.
  intros Hm Hf st. unfold mbind, M_bind. specialize (Hm st).
  destruct (m st) as [[x|] st1]; cbn in *; [|done].
  by rewrite Hf.
Qed.

Lemma keepsStyles_orThrow {A} (o : option A) : keepsStyles (orThrow o).
Proof. by destruct o. Qed.

Lemma keepsStyles_parseFile filePath code : keepsStyles (parseFile config filePath code).
Proof.
  unfold parseFile. apply keepsStyles_bind; [done|]. intros cached.
  assert (Hfresh : keepsStyles (
    sourceText ← match code with
                 | Some code0 => mret code0
                 | None => orThrow (readFile filePath)
                 end;
    parseResult ← orThrow (parseSync filePath sourceText);
    _ ← cacheSet filePath (analyze config (toRelativePath filePath) parseResult);
    mret (analyze config (toRelativePath filePath) parseResult))).
  { apply keepsStyles_bind.
    { destruct code; [done|apply keepsStyles_orThrow]. }
    intros sourceText. apply keepsStyles_bind; [apply keepsStyles_orThrow|].
    intros parseResult. apply keepsStyles_bind; done. }
  destruct code; [exact Hfresh|]. by destruct cached.
Qed.

Lemma keepsStyles_resolveValue filePath info identifierName :
  keepsStyles (resolveValue config filePath info identifierName).
Proof.
  unfold resolveValue.
  destruct (localIdentifiers info !! identifierName); [done|].
  destruct (importedIdentifiers info !! identifierName) as [entry|]; [|done].
  destruct (resolve (source entry) filePath); [|done].
  apply keepsStyles_bind; [apply keepsStyles_parseFile|done].
Qed.

Lemma keepsStyles_interpolate filePath info quasis expressions cssContent :
  keepsStyles (interpolate config filePath info quasis expressions cssContent).
Proof.
  revert expressions cssContent.
  induction quasis as [|quasi quasis IH]; intros expressions cssContent; cbn [interpolate];
    [done|].
  destruct expressions as [|[name| | | |] expressions]; try done.
  apply keepsStyles_bind; [apply keepsStyles_resolveValue|].
  intros [value|]; [apply IH|done].
Qed.

Lemma keepsStyles_pass2 filePath info ds acc :
  keepsStyles (pass2 config filePath info ds acc).
Proof.
  revert acc. induction ds as [|d ds IH]; intros acc; cbn [pass2]; [done|].
  destruct (hasInterpolations d); [|apply IH].
  apply keepsStyles_bind; [apply keepsStyles_interpolate|].
  intros [content|]; apply IH.
Qed.

(** What [extractCssFromCode] returns: the file is analysed afresh,
    [literal] are the declarations of pass 1 and [resolved] those that
    pass 2 resolved, in the order of their processing. *)
Lemma extractCssFromCode_spec code filePath st r st' :
  extractCssFromCode config code filePath st = (Some r, st') ->
  exists parseResult literal resolved,
    parseSync filePath code = Some parseResult /\
    let info := analyze config (toRelativePath filePath) parseResult in
    literalContents (declarations info) = Some literal /\
    sublist resolved.*1 (filter (fun d => hasInterpolations d = true) (declarations info)) /\
    Forall (fun p => hasInterpolations p.1 = true /\ interpolatesTo filePath info p) resolved /\
    r = finishExtraction code (declarations info) (recorded (literal ++ resolved)) /\
    extractedCssPerFile st' = extractedCssPerFile st.
Proof.
  unfold extractCssFromCode. unfold mbind at 1. unfold M_bind at 1.
  rewrite parseFile_fresh.
  destruct (parseSync filePath code) as [parseResult|]; [|done]. cbv zeta.
  set (info := analyze config (toRelativePath filePath) parseResult).
  unfold mbind at 1. unfold M_bind at 1.
  change {| cssExtractions := []; replacements := [] |} with (recorded []).
  rewrite pass1_spec.
  destruct (literalContents (declarations info)) as [literal|] eqn:Hliteral; [|done].
  rewrite app_nil_l. unfold mbind, M_bind.
  destruct (pass2 config filePath info (declarations info) (recorded literal)
              (setCache filePath info st)) as [[acc|] st2] eqn:Hpass2; [|done].
  intros [= <- <-].
  pose proof (keepsStyles_pass2 filePath info (declarations info) (recorded literal)
                (setCache filePath info st)) as Hkeeps.
  rewrite Hpass2 in Hkeeps. cbn in Hkeeps.
  apply pass2_spec in Hpass2 as (resolved & -> & Hsub & Hall).
  exists parseResult, literal, resolved. repeat split; done.
Qed.
End ExtractionFacts.

Lemma filter_interpolations_Permutation (ds : list Declaration) :
  filter (fun d => hasInterpolations d = false) ds
    ++ filter (fun d => hasInterpolations d = true) ds ≡ₚ ds.
Proof.
  induction ds as [|d ds IH]; [done|].
  rewrite !filter_cons. destruct (hasInterpolations d).
  - rewrite decide_False, decide_True by done.
    rewrite <-Permutation_middle. by constructor.
  - rewrite decide_True, decide_False by done. cbn. by constructor.
Qed.

(** The processed declarations are declarations of the file, each taken
    at most once. *)
Lemma processed_submseteq (ds : list Declaration) (literal resolved : list (Declaration * str)) :
  literalContents ds = Some literal ->
  sublist resolved.*1 (filter (fun d => hasInterpolations d = true) ds) ->
  (literal ++ resolved).*1 ⊆+ ds.
Proof.
  intros Hliteral Hsub. rewrite fmap_app.
  rewrite (literalContents_declarations ds literal Hliteral).
  trans (filter (fun d => hasInterpolations d = false) ds
           ++ filter (fun d => hasInterpolations d = true) ds).
  - apply submseteq_app; [done|]. by apply sublist_submseteq.
  - by rewrite filter_interpolations_Permutation.
Qed.

Lemma finishExtraction_recorded code ds processed :
  finishExtraction code ds (recorded processed) =
  if bool_decide (processed = []) then
    {| transformedCode := code; hasExtractions := false; cssContent := [];
       hasUnprocessedCssBlocks := false |}
  else
    {| transformedCode := splicedOf code processed; hasExtractions := true;
       cssContent := styleTextOf processed;
       hasUnprocessedCssBlocks := bool_decide (length processed < length ds) |}.
Proof.
  unfold finishExtraction. cbn [replacements recorded]. rewrite length_fmap.
  destruct processed as [|p processed].
  - by rewrite !bool_decide_eq_true_2 by done.
  - rewrite (bool_decide_eq_false_2 (length (p :: processed) = 0)) by done.
    by rewrite (bool_decide_eq_false_2 (p :: processed = [])) by done.
Qed.

Section HandlerFacts.
Context `{Host} (config : Configuration).

Lemma keepsStyles_pass1 ds acc : keepsStyles (pass1 ds acc).
Proof.
  revert acc. induction ds as [|d ds IH]; intros acc; cbn [pass1]; [done|].
  destruct (hasInterpolations d); [apply IH|].
  destruct (node_quasis (node d)); [done|apply IH].
Qed.

Lemma keepsStyles_extractCssFromCode code filePath :
  keepsStyles (extractCssFromCode config code filePath).
Proof.
  unfold extractCssFromCode.
  apply keepsStyles_bind; [apply keepsStyles_parseFile|]. intros info.
  apply keepsStyles_bind; [apply keepsStyles_pass1|]. intros acc.
  apply keepsStyles_bind; [apply keepsStyles_pass2|done].
Qed.

(** The transform hook, step by step. *)
Lemma handler_unfold code id st :
  handler config code id st =
  if negb (includes code $"ecij") then (Some None, st)
  else
    match extractCssFromCode config code (removeQuery id) st with
    | (Some r, st1) =>
        if negb (hasExtractions r) then (Some None, st1)
        else if bool_decide (cssContent r <> []) then
          let moduleId := removeQuery id ++ $"." ++ hashText (cssContent r) ++ $".css" in
          let imported := addCssImport (transformedCode r) moduleId in
          (Some (Some (if negb (hasUnprocessedCssBlocks r) then removeImport imported
                       else imported)),
           setExtractedCss moduleId (cssContent r) st1)
        else
          (Some (Some (if negb (hasUnprocessedCssBlocks r) then removeImport (transformedCode r)
                       else transformedCode r)), st1)
    | (None, st1) => (None, st1)
    end.
Proof.
  unfold handler. cbv zeta.
  destruct (negb (includes code $"ecij")); [done|].
  unfold mbind at 1. unfold M_bind at 1.
  destruct (extractCssFromCode config code (removeQuery id) st) as [[r|] st1]; [|done].
  destruct (negb (hasExtractions r)); [done|].
  unfold mbind, M_bind, extractedCssSet, mret, M_ret.
  by destruct (bool_decide (cssContent r <> [])).
Qed.

Lemma extractCssFromCode_unfold code filePath st :
  extractCssFromCode config code filePath st =
  match parseSync filePath code with
  | Some parseResult =>
      let info := analyze config (toRelativePath filePath) parseResult in
      (acc ← pass1 (declarations info) {| cssExtractions := []; replacements := [] |};
       acc0 ← pass2 config filePath info (declarations info) acc;
       mret (finishExtraction code (declarations info) acc0)) (setCache filePath info st)
  | None => (None, st)
  end.
Proof.
  unfold extractCssFromCode. unfold mbind at 1. unfold M_bind at 1.
  rewrite parseFile_fresh. by destruct (parseSync filePath code).
Qed.
(** What the transform hook returns when it does not throw: [null] for a
    text that does not mention [ecij] or of which no declaration was
    processed, the rewritten text otherwise. *)
Lemma handler_cases code id st o st' :
  handler config code id st = (Some o, st') ->
  (includes code $"ecij" = false /\ o = None /\ st' = st) \/
  exists parseResult literal resolved,
    includes code $"ecij" = true /\
    parseSync (removeQuery id) code = Some parseResult /\
    let info := analyze config (toRelativePath (removeQuery id)) parseResult in
    let processed := literal ++ resolved in
    literalContents (declarations info) = Some literal /\
    sublist resolved.*1 (filter (fun d => hasInterpolations d = true) (declarations info)) /\
    Forall (fun p => hasInterpolations p.1 = true /\
                     interpolatesTo config (removeQuery id) info p) resolved /\
    o = (if bool_decide (processed = []) then None
         else Some (if bool_decide (length processed < length (declarations info))
                    then bodyOf code (removeQuery id) processed
                    else removeImport (bodyOf code (removeQuery id) processed))) /\
    extractedCssPerFile st' =
      if bool_decide (styleTextOf processed <> []) then
        <[removeQuery id ++ $"." ++ hashText (styleTextOf processed) ++ $".css"
          := styleTextOf processed]> (extractedCssPerFile st)
      else extractedCssPerFile st.
Proof.
  unfold handler. cbv zeta. intros Hout.
  destruct (includes code $"ecij") eqn:Hincludes; cbn [negb] in Hout.
  2:{ unfold mret, M_ret in Hout. injection Hout as <- <-. by left. }
  right. unfold mbind at 1 in Hout. unfold M_bind at 1 in Hout.
  destruct (extractCssFromCode config code (removeQuery id) st) as [[r|] st1] eqn:Hrun;
    [|done].
  apply extractCssFromCode_spec in Hrun
    as (parseResult & literal & resolved & Hparse & Hliteral & Hsub & Hall & -> & Hstyles).
  rewrite finishExtraction_recorded in Hout.
  exists parseResult, literal, resolved. cbv zeta.
  split; [done|]. split; [done|]. split; [done|]. split; [done|]. split; [done|].
  destruct (bool_decide (literal ++ resolved = [])) eqn:Hempty;
    cbn [hasExtractions negb] in Hout.
  - unfold mret, M_ret in Hout. injection Hout as <- <-. split; [done|].
    apply bool_decide_eq_true in Hempty. rewrite Hempty.
    rewrite bool_decide_eq_false_2; [done|]. intros Hne. by apply Hne.
  - cbn [cssContent transformedCode hasUnprocessedCssBlocks] in Hout.
    unfold bodyOf. unfold mbind, M_bind, extractedCssSet, mret, M_ret in Hout.
    destruct (bool_decide (styleTextOf (literal ++ resolved) <> []));
      cbv beta iota in Hout; injection Hout as <- <-.
    + cbn [extractedCssPerFile setExtractedCss]. rewrite Hstyles.
      split; [|reflexivity]. by destruct (bool_decide (length _ < _)).
    + split; [|done]. by destruct (bool_decide (length _ < _)).
Qed.
End HandlerFacts.

(** ** The run of pass 2 *)

Lemma join_nonempty sep (x : str) l : x <> [] -> join sep (x :: l) <> [].
Proof.
  intros Hx. cbn [join]. destruct l; [done|].
  destruct x; [done|]. discriminate.
Qed.

Section RunFacts.
Context `{Host} (config : Configuration) (filePath : str) (info : ParsedFileInfo).

Local Abbreviation loop := (interpolation config filePath info).
Local Abbreviation states := (reached config filePath info).
Local Abbreviation resolved := (resolvedIn config filePath info).

Lemma resolvedIn_cons d ds s :
  resolved (d :: ds) s =
  if hasInterpolations d then
    match (loop d s).1 with
    | Some (Some content) => [(d, content)]
    | _ => []
    end ++ resolved ds (loop d s).2
  else resolved ds s.
Proof.
  unfold resolvedIn. cbn [reached omap list_omap fst snd].
  destruct (hasInterpolations d); [|done].
  by destruct ((loop d s).1) as [[content|]|].
Qed.

(** When pass 2 returns, it has recorded what [resolvedIn] lists. *)
Lemma pass2_resolvedIn ds processed s acc s' :
  pass2 config filePath info ds (recorded processed) s = (Some acc, s') ->
  acc = recorded (processed ++ resolved ds s).
Proof.
  revert processed s. induction ds as [|d ds IH]; intros processed s; cbn [pass2].
  { intros [= <- <-]. by rewrite app_nil_r. }
  rewrite resolvedIn_cons. destruct (hasInterpolations d); [|apply IH].
  unfold mbind, M_bind, interpolation.
  destruct (interpolate config filePath info (node_quasis (node d))
              (node_expressions (node d)) [] s) as [[[content|]|] s1]; cbn [fst snd];
    [| |done].
  - rewrite addProcessedDeclaration_recorded. intros Hrest.
    apply IH in Hrest as ->. by rewrite <-app_assoc.
  - apply IH.
Qed.

(** Pass 2 returns when every interpolation loop it runs returns. *)
Lemma pass2_completes ds processed s :
  Forall (fun p => hasInterpolations p.1 = true -> (loop p.1 p.2).1 <> None)
         (states ds s) ->
  exists s',
    pass2 config filePath info ds (recorded processed) s
    = (Some (recorded (processed ++ resolved ds s)), s').
Proof.
  revert processed s. induction ds as [|d ds IH]; intros processed s; cbn [pass2 reached].
  { intros _. exists s. by rewrite app_nil_r. }
  intros Hall. apply Forall_cons in Hall as [Hd Hall]. cbn [fst snd] in Hd.
  rewrite resolvedIn_cons. destruct (hasInterpolations d); [|by apply IH].
  specialize (Hd eq_refl). unfold mbind, M_bind. unfold interpolation in *.
  destruct (interpolate config filePath info (node_quasis (node d))
              (node_expressions (node d)) [] s) as [[[content|]|] s1]; cbn [fst snd] in *;
    [| |done].
  - rewrite addProcessedDeclaration_recorded.
    destruct (IH (processed ++ [(d, content)]) s1 Hall) as [s' ->].
    exists s'. by rewrite <-app_assoc.
  - by apply IH.
Qed.
End RunFacts.

Section HandlerRuns.
Context `{Host} (config : Configuration).

(** What the transform hook returns and registers, from the declarations
    the two passes process. *)
Lemma handler_run code id st o st' parseResult :
  let filePath := removeQuery id in
  let info := analyze config (toRelativePath filePath) parseResult in
  handler config code id st = (Some o, st') ->
  includes code $"ecij" = true ->
  parseSync filePath code = Some parseResult ->
  exists literal,
    literalContents (declarations info) = Some literal /\
    let processed :=
      literal ++ resolvedIn config filePath info (declarations info)
                   (setCache filePath info st) in
    o = (if bool_decide (processed = []) then None
         else Some (if bool_decide (length processed < length (declarations info))
                    then bodyOf code filePath processed
                    else removeImport (bodyOf code filePath processed))) /\
    extractedCssPerFile st' =
      if bool_decide (styleTextOf processed <> []) then
        <[filePath ++ $"." ++ hashText (styleTextOf processed) ++ $".css"
          := styleTextOf processed]> (extractedCssPerFile st)
      else extractedCssPerFile st.
Proof.
  intros filePath info Hrun Hmentions Hparse.
  rewrite handler_unfold, Hmentions in Hrun. cbn [negb] in Hrun.
  pose proof (keepsStyles_extractCssFromCode config code filePath st) as Hkeeps.
  fold filePath in Hrun.
  rewrite extractCssFromCode_unfold, Hparse in Hrun, Hkeeps. cbv zeta in Hrun, Hkeeps.
  fold info in Hrun, Hkeeps.
  change {| cssExtractions := []; replacements := [] |} with (recorded []) in Hrun, Hkeeps.
  unfold mbind at 1 in Hrun. unfold M_bind at 1 in Hrun.
  unfold mbind at 1 in Hkeeps. unfold M_bind at 1 in Hkeeps.
  rewrite pass1_spec in Hrun, Hkeeps.
  destruct (literalContents (declarations info)) as [literal|]; [|done].
  exists literal. split; [done|]. cbv zeta. rewrite app_nil_l in Hrun, Hkeeps.
  unfold mbind, M_bind in Hrun, Hkeeps.
  destruct (pass2 config filePath info (declarations info) (recorded literal)
              (setCache filePath info st)) as [[acc|] s1] eqn:Hpass2; [|done].
  apply pass2_resolvedIn in Hpass2 as ->. cbn [snd mret M_ret] in Hkeeps.
  rewrite finishExtraction_recorded in Hrun. unfold mret, M_ret in Hrun.
  set (processed := literal ++ resolvedIn config filePath info (declarations info)
                                  (setCache filePath info st)) in *.
  destruct (bool_decide (processed = [])) eqn:Hempty;
    cbn [hasExtractions negb cssContent transformedCode hasUnprocessedCssBlocks] in Hrun.
  - injection Hrun as <- <-. split; [done|].
    apply bool_decide_eq_true in Hempty. rewrite Hempty.
    rewrite bool_decide_eq_false_2; [done|]. intros Hne. by apply Hne.
  - unfold bodyOf.
    destruct (bool_decide (styleTextOf processed <> [])); cbv zeta in Hrun;
      injection Hrun as <- <-.
    + cbn [extractedCssPerFile setExtractedCss]. rewrite Hkeeps.
      split; [|reflexivity]. by destruct (bool_decide (length _ < _)).
    + split; [|done]. by destruct (bool_decide (length _ < _)).
Qed.
End HandlerRuns.

(** ** Removing the import statement *)

Lemma startsWith_app p s : startsWith p s = true -> s = p ++ drop (length p) s.
Proof.
  revert s. induction p as [|a p IH]; intros s; cbn; [done|].
  destruct s as [|b s]; [done|].
  destruct (ascii_dec a b) as [->|]; [|done].
  intros Hs. cbn. f_equal. by apply IH.
Qed.

Lemma trimStart_suffix s : trimStart s `suffix_of` s.
Proof.
  induction s as [|c s IH]; cbn; [done|].
  destruct (is_space c); [by apply suffix_cons_r|done].
Qed.

(** Every atom of the pattern consumes a prefix of the text. *)
Definition consumes (atom : str -> option str) : Prop :=
  forall s rest, atom s = Some rest -> rest `suffix_of` s.

Lemma consumes_lit p : consumes (lit p).
Proof.
  intros s rest. unfold lit. destruct (startsWith p s) eqn:Hp; [|done].
  intros [= <-]. apply suffix_drop.
Qed.

Lemma consumes_pattern : Forall consumes import_pattern.
Proof.
  repeat constructor; try apply consumes_lit.
  - intros [|c s] rest; cbn; [done|]. destruct (is_space c); [|done].
    intros [= <-]. apply suffix_cons_r, trimStart_suffix.
  - intros s rest [= <-]. apply trimStart_suffix.
  - intros s rest [= <-]. apply trimStart_suffix.
  - intros [|c s] rest; cbn; [done|]. destruct (is_space c); [|done].
    intros [= <-]. apply suffix_cons_r, trimStart_suffix.
  - intros [|c s] rest; cbn; [done|]. destruct (is_space c); [|done].
    intros [= <-]. apply suffix_cons_r, trimStart_suffix.
  - intros [|c s] rest; cbn; [done|].
    repeat case_match; try done; intros [= <-]; by apply suffix_cons_r.
  - intros [|c s] rest; cbn; [done|].
    repeat case_match; try done; intros [= <-]; by apply suffix_cons_r.
  - intros [|c s] rest; cbn; [by intros [= <-]|].
    case_match; intros [= <-]; [by apply suffix_cons_r|done].
  - intros s rest [= <-]. apply trimStart_suffix.
Qed.

Lemma consumes_all atoms s0 rest (r : option str) :
  Forall consumes atoms ->
  (forall s, r = Some s -> s `suffix_of` s0) ->
  foldl (fun r atom => r ≫= atom) r atoms = Some rest -> rest `suffix_of` s0.
Proof.
  intros Hatoms. revert r. induction Hatoms as [|atom atoms Hatom _ IH]; intros r Hr; cbn.
  { apply Hr. }
  apply IH. intros s Hs. destruct r as [s1|]; [|done]. cbn in Hs.
  trans s1; [by apply Hatom|by apply Hr].
Qed.

Lemma pattern_fails atoms :
  foldl (fun (r : option str) (atom : str -> option str) => r ≫= atom) None atoms = None.
Proof. induction atoms as [|atom atoms IH]; [done|exact IH]. Qed.

Lemma match_tail_split atoms s rest :
  Forall consumes atoms ->
  foldl (fun (r : option str) (atom : str -> option str) => r ≫= atom)
        (lit $"import" s) atoms = Some rest ->
  exists matched, s = matched ++ rest /\ matched <> [].
Proof.
  intros Hatoms. unfold lit. destruct (startsWith $"import" s) eqn:Hstart.
  - intros Hrest. apply startsWith_app in Hstart.
    assert (Hsuffix : rest `suffix_of` drop (length $"import") s).
    { eapply (consumes_all atoms _ rest _ Hatoms); [|exact Hrest]. by intros s1 [= <-]. }
    destruct Hsuffix as [k Hk].
    exists ($"import" ++ k). split; [|done].
    rewrite <-app_assoc, <-Hk. exact Hstart.
  - by rewrite pattern_fails.
Qed.

(** A match is a prefix of the text that is not empty. *)
Lemma match_import_split s rest :
  match_import s = Some rest ->
  exists matched, s = matched ++ rest /\ matched <> [].
Proof.
  apply (match_tail_split (tail import_pattern) s rest).
  pose proof consumes_pattern as Hatoms.
  by apply Forall_cons in Hatoms as [_ Hatoms].
Qed.

Lemma delete_matches_skip k s : delete_matches k s = delete_matches 0 (drop k s).
Proof.
  revert k. induction s as [|c s IH]; intros k; [by destruct k|].
  destruct k as [|k]; [done|]. cbn [delete_matches drop]. apply IH.
Qed.

(** A match at the head of the text is deleted. *)
Lemma removeImport_match s rest :
  match_import s = Some rest -> removeImport s = removeImport rest.
Proof.
  intros Hmatch. pose proof Hmatch as Hsplit.
  apply match_import_split in Hsplit as (matched & -> & Hne).
  destruct matched as [|c matched]; [done|].
  unfold removeImport. cbn [delete_matches app]. cbn [app] in Hmatch. rewrite Hmatch.
  cbn [length]. rewrite length_app.
  replace (S (length matched + length rest) - length rest) with (S (length matched)) by lia.
  rewrite delete_matches_skip. by rewrite drop_app_length.
Qed.

(** Where no match begins, the text is kept. *)
Lemma removeImport_keep c s :
  match_import (c :: s) = None -> removeImport (c :: s) = c :: removeImport s.
Proof. intros Hnone. unfold removeImport. cbn [delete_matches]. by rewrite Hnone. Qed.

Lemma removeImport_before before s :
  (forall k, k < length before -> match_import (drop k (before ++ s)) = None) ->
  removeImport (before ++ s) = before ++ removeImport s.
Proof.
  induction before as [|c before IH]; intros Hnone; [done|].
  cbn [app]. rewrite removeImport_keep.
  - f_equal. apply IH. intros k Hk. apply (Hnone (S k)). cbn. lia.
  - apply (Hnone 0). cbn. lia.
Qed.

(** The import statement found after [before] is deleted. *)
Lemma removeImport_statement before statement rest :
  (forall k, k < length before -> match_import (drop k (before ++ statement)) = None) ->
  match_import statement = Some rest ->
  removeImport (before ++ statement) = before ++ removeImport rest.
Proof.
  intros Hnone Hmatch. rewrite removeImport_before by done.
  by rewrite (removeImport_match statement rest).
Qed.

(** The canonical statement is a match, together with the white space
    that follows it. *)
Lemma canonical_import_matches rest :
  match_import ($"import { css } from 'ecij';" ++ rest) = Some (trimStart rest).
Proof. reflexivity. Qed.

(** ** Text outside the replaced ranges is kept *)

Lemma slice_split (code : str) a b c :
  a <= b -> b <= c -> slice code a c = slice code a b ++ slice code b c.
Proof.
  intros Hab Hbc. unfold slice.
  replace (c - a) with ((b - a) + (c - b)) by lia.
  rewrite <-take_take_drop, drop_drop. do 3 f_equal. lia.
Qed.

Lemma slice_from_split (code : str) a b :
  a <= b -> slice_from code a = slice code a b ++ slice_from code b.
Proof.
  intros Hab. unfold slice, slice_from.
  rewrite <-(take_drop (b - a) (drop a code)) at 1. rewrite drop_drop.
  do 3 f_equal. lia.
Qed.

(** A stretch of the text that meets no range occurs in the substituted
    text. *)
Lemma substitute_keeps code pos ascending a b :
  chained code pos ascending ->
  pos <= a -> a <= b ->
  Forall (fun r => Replacement.end_ r <= a \/ b <= Replacement.start r) ascending ->
  exists pre post, substitute code pos ascending = pre ++ slice code a b ++ post.
Proof.
  revert pos. induction ascending as [|r rest IH]; intros pos Hchain Hpos Hab Hfree;
    cbn [substitute chained] in *.
  - exists (slice code pos a), (slice_from code b).
    by rewrite (slice_from_split code pos a), (slice_from_split code a b) by done.
  - destruct Hchain as (Hstart & Hr & Hchain).
    apply Forall_cons in Hfree as [[Hleft|Hright] Hfree].
    + destruct (IH (Replacement.end_ r) Hchain Hleft Hab Hfree) as (pre & post & ->).
      exists (slice code pos (Replacement.start r) ++ $"'" ++ Replacement.className r
                ++ $"'" ++ pre), post.
      by rewrite <-!app_assoc.
    + exists (slice code pos a),
        (slice code b (Replacement.start r) ++ $"'" ++ Replacement.className r ++ $"'"
           ++ substitute code (Replacement.end_ r) rest).
      rewrite (slice_split code pos a (Replacement.start r)) by lia.
      rewrite (slice_split code a b (Replacement.start r)) by lia.
      by rewrite <-!app_assoc.
Qed.

(** The same for the text spliced in descending order. *)
Lemma applyReplacements_keeps code l a b :
  nonOverlapping code l ->
  a <= b ->
  Forall (fun r => Replacement.end_ r <= a \/ b <= Replacement.start r) l ->
  exists pre post,
    applyReplacements code (sortReplacements l) = pre ++ slice code a b ++ post.
Proof.
  intros Hnon Hab Hfree.
  destruct (ascending_exists l) as [Hperm Hsorted].
  destruct (applyReplacements_ascending code l _ Hnon Hperm Hsorted) as [Hchain ->].
  apply substitute_keeps; [done|lia|done|]. by rewrite Hperm.
Qed.

(** ** Import elision *)

Lemma all_processed_iff (ds : list Declaration) (processed : list (Declaration * str)) :
  processed.*1 ⊆+ ds ->
  (length processed < length ds <-> ~ processed.*1 ≡ₚ ds).
Proof.
  intros Hsub. split.
  - intros Hlt Hperm. apply Permutation_length in Hperm.
    rewrite length_fmap in Hperm. lia.
  - intros Hnot. destruct (decide (length processed < length ds)) as [|Hge]; [done|].
    exfalso. apply Hnot. apply submseteq_length_Permutation; [done|].
    rewrite length_fmap. lia.
Qed.

(** C1, as the code has it.  For a text that mentions [ecij]: when no
    declaration was processed, which includes the file without
    declarations, the hook returns [null] and the text stays as it is,
    import included.  When some declaration was processed, the hook
    returns text; the import-removing replacement is applied to it exactly
    when the processed declarations are all the declarations of the file,
    and then deletes the import statement the scan finds; otherwise the
    text is returned as spliced, and a stretch of the original text that
    meets no replaced range, such as the import statement, occurs in it. *)
Theorem import_elision `{Host} (config : Configuration) (code id : str)
    (st st' : PluginState) (o : option str) :
  handler config code id st = (Some o, st') ->
  includes code $"ecij" = true ->
  exists parseResult literal resolved,
    parseSync (removeQuery id) code = Some parseResult /\
    let info := analyze config (toRelativePath (removeQuery id)) parseResult in
    let processed := literal ++ resolved in
    let body := bodyOf code (removeQuery id) processed in
    literalContents (declarations info) = Some literal /\
    Forall (fun p => hasInterpolations p.1 = true /\
                     interpolatesTo config (removeQuery id) info p) resolved /\
    processed.*1 ⊆+ declarations info /\
    (processed = [] -> o = None) /\
    (processed <> [] -> processed.*1 ≡ₚ declarations info ->
       o = Some (removeImport body) /\
       forall before statement rest,
         body = before ++ statement ->
         (forall k, k < length before -> match_import (drop k body) = None) ->
         match_import statement = Some rest ->
         o = Some (before ++ removeImport rest)) /\
    (processed <> [] -> ~ processed.*1 ≡ₚ declarations info ->
       o = Some body /\
       forall a b,
         a <= b ->
         nonOverlapping code (replacements (recorded processed)) ->
         Forall (fun r => Replacement.end_ r <= a \/ b <= Replacement.start r)
                (replacements (recorded processed)) ->
         exists pre post, body = pre ++ slice code a b ++ post).
Proof.
  intros Hrun Hmentions.
  apply handler_cases in Hrun as [(Hnot & _)|Hrun]; [congruence|].
  destruct Hrun as (parseResult & literal & resolved & _ & Hparse & Hrun).
  cbv zeta in Hrun. destruct Hrun as (Hliteral & Hsub & Hall & Ho & _).
  exists parseResult, literal, resolved. cbv zeta.
  pose proof (processed_submseteq _ literal resolved Hliteral Hsub) as Hsubm.
  pose proof (all_processed_iff _ _ Hsubm) as Hiff.
  split; [done|]. split; [done|]. split; [done|]. split; [done|].
  split; [|split].
  - intros Hnone. by rewrite Hnone in Ho.
  - intros Hsome Hperm.
    rewrite bool_decide_eq_false_2 in Ho by done.
    rewrite bool_decide_eq_false_2 in Ho by (intros Hlt; by apply Hiff in Hlt).
    split; [done|]. intros before statement rest Hbody Hnone Hmatch.
    rewrite Ho, Hbody. f_equal. apply removeImport_statement; [|done].
    by rewrite <-Hbody.
  - intros Hsome Hperm.
    rewrite bool_decide_eq_false_2 in Ho by done.
    rewrite bool_decide_eq_true_2 in Ho by (by apply Hiff).
    split; [done|]. intros a b Hab Hnon Hfree.
    destruct (applyReplacements_keeps code _ a b Hnon Hab Hfree) as (pre & post & Hkept).
    unfold bodyOf, splicedOf. rewrite Hkept.
    destruct (bool_decide (styleTextOf (literal ++ resolved) <> [])).
    + exists ($"import "
               ++ JSON_stringify (removeQuery id ++ $"."
                    ++ hashText (styleTextOf (literal ++ resolved)) ++ $".css")
               ++ $";" ++ [LF; LF] ++ pre), post.
      unfold addCssImport. by rewrite <-!app_assoc.
    + by exists pre, post.
Qed.

(** C1, as the specification states it, fails: [unused.ts] holds the
    canonical import statement and no declaration, so every declaration
    of it is resolved; the hook returns [null] and removes nothing. *)
Lemma unused_import_is_not_removed :
  declarations (analyze defaultConfiguration $"src/unused.ts" unusedImportFile) = [] /\
  match_import unusedImportText = Some ($"export const width = 4;" ++ [LF]) /\
  @handler unusedImportHost defaultConfiguration unusedImportText $"/proj/src/unused.ts"
     initialState
  = (Some None,
     setCache $"/proj/src/unused.ts"
       (analyze defaultConfiguration $"src/unused.ts" unusedImportFile) initialState).
Proof. repeat split; vm_compute; reflexivity. Qed.

Lemma import_elision_witness :
  exists processed,
    processed.*1 ≡ₚ declarations (analyze defaultConfiguration $"src/a.ts" basicFile) /\
    Some ($"import " ++ [DQUOTE] ++ $"/proj/src/a.ts.ba95ab2c.css" ++ [DQUOTE] ++ $";"
            ++ [LF; LF] ++ $"const a = 'css-b57012c3';" ++ [LF])
    = Some (removeImport (bodyOf basicText $"/proj/src/a.ts" processed)).
Proof.
  destruct (@import_elision basicHost defaultConfiguration basicText $"/proj/src/a.ts"
              initialState
              (setExtractedCss $"/proj/src/a.ts.ba95ab2c.css"
                 ($".css-b57012c3 {" ++ [LF] ++ $"  color: red;" ++ [LF] ++ $"}")
                 (setCache $"/proj/src/a.ts"
                    (analyze defaultConfiguration $"src/a.ts" basicFile) initialState))
              (Some ($"import " ++ [DQUOTE] ++ $"/proj/src/a.ts.ba95ab2c.css" ++ [DQUOTE]
                       ++ $";" ++ [LF; LF] ++ $"const a = 'css-b57012c3';" ++ [LF])))
    as (parseResult & literal & resolved & Hparse & Hrest).
  - vm_compute. reflexivity.
  - vm_compute. reflexivity.
  - cbv zeta in Hrest. destruct Hrest as (Hliteral & _ & Hsub & _ & Hall & _).
    assert (Some basicFile = Some parseResult) as [= <-].
    { rewrite <-Hparse. vm_compute. reflexivity. }
    assert (Hone : length (literal ++ resolved)
                   = length (declarations (analyze defaultConfiguration $"src/a.ts" basicFile))).
    { apply Nat.le_antisymm.
      - apply submseteq_length in Hsub. by rewrite length_fmap in Hsub.
      - rewrite length_app. apply literalContents_declarations in Hliteral.
        apply (f_equal length) in Hliteral. rewrite length_fmap in Hliteral.
        rewrite Hliteral. vm_compute. lia. }
    assert (Hperm : (literal ++ resolved).*1
                    ≡ₚ declarations (analyze defaultConfiguration $"src/a.ts" basicFile)).
    { apply submseteq_length_Permutation; [exact Hsub|]. rewrite length_fmap. lia. }
    exists (literal ++ resolved). split; [exact Hperm|].
    apply Hall; [|exact Hperm].
    intros Hnil. rewrite Hnil in Hone. vm_compute in Hone. discriminate.
Defined.

(** ** Declarations with empty content *)

Lemma filter_extractions (processed : list (Declaration * str)) :
  filter (fun e => CssExtraction.cssContent e <> [])
         ((fun p => extractionOf p.1 p.2) <$> processed)
  = (fun p => extractionOf p.1 p.2) <$> filter (fun p => trim p.2 <> []) processed.
Proof.
  induction processed as [|p processed IH]; [done|].
  rewrite fmap_cons, !filter_cons, IH. cbn [extractionOf CssExtraction.cssContent].
  by destruct (decide (trim p.2 <> [])).
Qed.

(** The style text holds the blocks of the processed declarations whose
    content is not empty, in the order of their source positions. *)
Lemma styleTextOf_nonempty (processed : list (Declaration * str)) :
  styleTextOf processed
  = join [LF; LF]
      (renderBlock <$>
         sortExtractions ((fun p => extractionOf p.1 p.2)
                            <$> filter (fun p => trim p.2 <> []) processed)).
Proof.
  unfold styleTextOf, cssBlocks, sortExtractions. cbn [cssExtractions recorded].
  rewrite filter_sort by (intros; lia). by rewrite filter_extractions.
Qed.

Lemma styleTextOf_kept (processed : list (Declaration * str)) :
  filter (fun p => trim p.2 <> []) processed <> [] -> styleTextOf processed <> [].
Proof.
  intros Hkept. rewrite styleTextOf_nonempty.
  set (kept := (fun p => extractionOf p.1 p.2) <$> filter (fun p => trim p.2 <> []) processed).
  assert (Hlength : length (sortExtractions kept) = length kept).
  { unfold sortExtractions. apply sort_length. }
  destruct (sortExtractions kept) as [|e es].
  - subst kept. rewrite length_fmap in Hlength.
    destruct (filter _ processed); [done|discriminate].
  - cbn [fmap list_fmap]. apply join_nonempty. discriminate.
Qed.

Lemma splicedOf_sites code (processed : list (Declaration * str)) :
  splicedOf code processed
  = applyReplacements code (sortReplacements (replacementOf <$> processed.*1)).
Proof. unfold splicedOf. cbn [replacements recorded]. by rewrite <-list_fmap_compose. Qed.

(** C5. The hook has returned for a text that mentions [ecij];
    [processed] are the declarations that the two passes processed, with
    their content.  Every processed declaration, whatever its content,
    has its range among the sites that are spliced, and for sites that do
    not overlap the rewritten text holds the quoted class name at every
    one of them.  The style text is made of the blocks of the processed
    declarations whose trimmed content is not empty, and of no other.
    When no trimmed content is left, no style module is registered and no
    import of one is added to the rewritten text; when some is left, the
    style text is not empty, it is registered under the id that ends with
    its hash, and the import of that id is added. *)
Theorem empty_content_declaration `{Host} (config : Configuration) (code id : str)
    (st st' : PluginState) (o : option str) (parseResult : ParseResult) :
  let filePath := removeQuery id in
  let info := analyze config (toRelativePath filePath) parseResult in
  handler config code id st = (Some o, st') ->
  includes code $"ecij" = true ->
  parseSync filePath code = Some parseResult ->
  exists literal,
    literalContents (declarations info) = Some literal /\
    let processed :=
      literal ++ resolvedIn config filePath info (declarations info)
                   (setCache filePath info st) in
    let sites := replacementOf <$> processed.*1 in
    let spliced := applyReplacements code (sortReplacements sites) in
    let kept := filter (fun p => trim p.2 <> []) processed in
    let style :=
      join [LF; LF]
        (renderBlock <$> sortExtractions ((fun p => extractionOf p.1 p.2) <$> kept)) in
    let moduleId := filePath ++ $"." ++ hashText style ++ $".css" in
    let finish := fun body : str =>
      if bool_decide (length processed < length (declarations info)) then body
      else removeImport body in
    (forall p, p ∈ processed -> trim p.2 = [] -> replacementOf p.1 ∈ sites /\ p ∉ kept) /\
    (forall ascending,
       nonOverlapping code sites -> ascending ≡ₚ sites ->
       StronglySorted ascendingStart ascending ->
       spliced = substitute code 0 ascending) /\
    (processed = [] -> o = None /\ extractedCssPerFile st' = extractedCssPerFile st) /\
    (processed <> [] -> kept = [] ->
       o = Some (finish spliced) /\ extractedCssPerFile st' = extractedCssPerFile st) /\
    (processed <> [] -> kept <> [] ->
       style <> [] /\
       o = Some (finish (addCssImport spliced moduleId)) /\
       extractedCssPerFile st' = <[moduleId := style]> (extractedCssPerFile st)).
Proof.
  intros filePath info Hrun Hmentions Hparse.
  destruct (handler_run config code id st o st' parseResult Hrun Hmentions Hparse)
    as (literal & Hliteral & Ho & Hreg).
  exists literal. split; [exact Hliteral|]. cbv zeta in *.
  fold filePath info in Ho, Hreg |- *.
  set (processed := literal ++ resolvedIn config filePath info (declarations info)
                                  (setCache filePath info st)) in *.
  unfold bodyOf in Ho. rewrite splicedOf_sites in Ho.
  split; [|split; [|split; [|split]]].
  - intros p Hp Hempty. split.
    + apply list_elem_of_fmap. exists p.1. split; [done|].
      apply list_elem_of_fmap. by exists p.
    + intros Hkept. apply list_elem_of_filter in Hkept as [Hne _]. by apply Hne.
  - intros ascending Hnon Hperm Hsorted.
    by destruct (applyReplacements_ascending code _ ascending Hnon Hperm Hsorted) as [_ ->].
  - intros Hnone. rewrite Hnone in Ho, Hreg. split; [exact Ho|].
    rewrite bool_decide_eq_false_2 in Hreg; [done|]. intros Hne. by apply Hne.
  - intros Hsome Hkept.
    assert (Hstyle : styleTextOf processed = []).
    { rewrite styleTextOf_nonempty, Hkept. done. }
    rewrite Hstyle in Ho, Hreg.
    rewrite (bool_decide_eq_false_2 (processed = [])) in Ho by done.
    rewrite (bool_decide_eq_false_2 ([] <> [])) in Ho, Hreg by (intros Hne; by apply Hne).
    split; [|exact Hreg]. rewrite Ho. by destruct (bool_decide (length _ < _)).
  - intros Hsome Hkept. pose proof (styleTextOf_kept processed Hkept) as Hstyle.
    rewrite (bool_decide_eq_false_2 (processed = [])) in Ho by done.
    rewrite (bool_decide_eq_true_2 (styleTextOf processed <> [])) in Ho, Hreg by done.
    rewrite styleTextOf_nonempty in Hstyle, Ho, Hreg.
    split; [exact Hstyle|]. split; [|exact Hreg].
    rewrite Ho. by destruct (bool_decide (length _ < _)).
Qed.

Lemma empty_content_declaration_witness :
  extractedCssPerFile
    (setExtractedCss $"/proj/src/two.ts.c85e614a.css"
       ($".css-7214925c {" ++ [LF] ++ $"  color: red;" ++ [LF] ++ $"}")
       (setCache $"/proj/src/two.ts"
          (analyze defaultConfiguration $"src/two.ts" twoFile) initialState))
  = <[ $"/proj/src/two.ts.c85e614a.css"
       := $".css-7214925c {" ++ [LF] ++ $"  color: red;" ++ [LF] ++ $"}" ]>
      (extractedCssPerFile initialState).
Proof.
  destruct (@empty_content_declaration twoHost defaultConfiguration twoText
              $"/proj/src/two.ts" initialState
              (setExtractedCss $"/proj/src/two.ts.c85e614a.css"
                 ($".css-7214925c {" ++ [LF] ++ $"  color: red;" ++ [LF] ++ $"}")
                 (setCache $"/proj/src/two.ts"
                    (analyze defaultConfiguration $"src/two.ts" twoFile) initialState))
              (Some ($"import " ++ [DQUOTE] ++ $"/proj/src/two.ts.c85e614a.css" ++ [DQUOTE]
                       ++ $";" ++ [LF; LF] ++ $"const a = 'css-d3a7b987';" ++ [LF]
                       ++ $"const b = 'css-7214925c';" ++ [LF]))
              twoFile)
    as (literal & Hliteral & Hrest).
  - vm_compute. reflexivity.
  - vm_compute. reflexivity.
  - vm_compute. reflexivity.
  - assert (Some [({| className := $"css-d3a7b987";
                      node := TaggedTemplateExpression 1 38 43 (Identifier $"css") [[]] [];
                      hasInterpolations := false |}, @nil ascii);
                  ({| className := $"css-7214925c";
                      node := TaggedTemplateExpression 2 55 71 (Identifier $"css")
                                [$"color: red;"] [];
                      hasInterpolations := false |}, $"color: red;")] = Some literal)
      as [= <-].
    { rewrite <-Hliteral. vm_compute. reflexivity. }
    cbv zeta in Hrest. destruct Hrest as (_ & _ & _ & _ & Hkept).
    destruct Hkept as (_ & _ & Hregistry).
    + vm_compute. discriminate.
    + vm_compute. discriminate.
    + vm_compute in Hregistry |- *. exact Hregistry.
Defined.

(** ** Partial failure *)

Lemma splicedOf_one code d c :
  splicedOf code [(d, c)]
  = take (node_start (node d)) code ++ $"'" ++ className d ++ $"'"
      ++ drop (node_end (node d)) code.
Proof.
  unfold splicedOf, applyReplacements, splice, slice, slice_from. cbn.
  by rewrite Nat.sub_0_r.
Qed.

Lemma styleTextOf_one d c :
  styleTextOf [(d, c)]
  = if decide (trim c = []) then [] else renderBlock (extractionOf d c).
Proof.
  unfold styleTextOf, cssBlocks. cbn.
  destruct (decide (trim c = [])) as [Hc|Hc].
  - by rewrite decide_False by (intros Hne; by apply Hne).
  - by rewrite decide_True by done.
Qed.

Section PartialFailure.
Context `{Host} (config : Configuration) (filePath : str) (info : ParsedFileInfo).

(** The two passes over a resolvable and an unresolvable declaration, in
    either order, record the resolvable one and nothing else. *)
Lemma passes_resolve_one ds d1 d2 c1 s0 :
  ds = [d1; d2] \/ ds = [d2; d1] ->
  Forall (fun p => p.1 = d1 -> resolvesTo config filePath info p.2 d1 c1)
         (reached config filePath info ds s0) ->
  Forall (fun p => p.1 = d2 -> unresolvable config filePath info p.2 d2)
         (reached config filePath info ds s0) ->
  exists s',
    (acc ← pass1 ds (recorded []); pass2 config filePath info ds acc) s0
    = (Some (recorded [(d1, c1)]), s').
Proof.
  intros Hds Hd1 Hd2. unfold mbind, M_bind. rewrite pass1_spec.
  assert (Hresolved :
    literalContents ds = Some (if hasInterpolations d1 then [] else [(d1, c1)]) /\
    resolvedIn config filePath info ds s0 = (if hasInterpolations d1 then [(d1, c1)] else []) /\
    Forall (fun p => hasInterpolations p.1 = true ->
                     (interpolation config filePath info p.1 p.2).1 <> None)
           (reached config filePath info ds s0)).
  { destruct Hds as [-> | ->]; cbn [reached] in Hd1, Hd2 |- *;
      apply Forall_cons in Hd1 as [Ha1 Hd1]; apply Forall_cons in Hd1 as [Hb1 _];
      apply Forall_cons in Hd2 as [Ha2 Hd2]; apply Forall_cons in Hd2 as [Hb2 _];
      cbn [fst snd] in *.
    - specialize (Ha1 eq_refl). destruct (Hb2 eq_refl) as [Hi2 Hloop2].
      rewrite !resolvedIn_cons. cbn [literalContents]. unfold resolvesTo in Ha1.
      rewrite Hi2.
      destruct (hasInterpolations d1) eqn:Hi1.
      + rewrite Ha1, Hloop2. split; [done|]. split; [done|].
        repeat constructor; cbn [fst snd]; intros _; congruence.
      + destruct Ha1 as [rest Hq]. rewrite Hq, Hloop2. split; [done|]. split; [done|].
        repeat constructor; cbn [fst snd]; intros ?; congruence.
    - specialize (Hb1 eq_refl). destruct (Ha2 eq_refl) as [Hi2 Hloop2].
      rewrite !resolvedIn_cons. cbn [literalContents]. unfold resolvesTo in Hb1.
      rewrite Hi2 in Hb1 |- *.
      destruct (hasInterpolations d1) eqn:Hi1.
      + rewrite Hb1, Hloop2. split; [done|]. split; [done|].
        repeat constructor; cbn [fst snd]; intros _; congruence.
      + destruct Hb1 as [rest Hq]. rewrite Hq, Hloop2. split; [done|]. split; [done|].
        repeat constructor; cbn [fst snd]; intros ?; congruence. }
  destruct Hresolved as (-> & Hresolved & Hreturns). rewrite app_nil_l.
  destruct (pass2_completes config filePath info ds
              (if hasInterpolations d1 then [] else [(d1, c1)]) s0 Hreturns) as [s' ->].
  exists s'. rewrite Hresolved. by destruct (hasInterpolations d1).
Qed.
End PartialFailure.

(** C2, as the code has it.  A file is analysed into two declarations.
    In the states in which pass 2 reaches them, [d1] resolves to [c1] and
    [d2] is unresolvable.  Then the extraction returns and reports
    unprocessed blocks; only the range of [d1] is replaced, by its quoted
    class name.  The text of [d2] is found unchanged, at its place when
    it lies before [d1] and shifted when it lies after it; when [d1] lies
    inside [d2], the text of [d2] is rewritten at the range of [d1].  The
    style text is the one rule block of [d1] when the trimmed content of
    [d1] is not empty; the hook then registers it and adds its import.
    Otherwise the style text is empty, nothing is registered and no
    import is added.  In both cases the import of [css] stays. *)
Theorem partial_failure_isolation `{Host} (config : Configuration)
    (code id : str) (st : PluginState) (parseResult : ParseResult)
    (d1 d2 : Declaration) (c1 : str) :
  let filePath := removeQuery id in
  let info := analyze config (toRelativePath filePath) parseResult in
  let s0 := setCache filePath info st in
  let s1 := node_start (node d1) in
  let e1 := node_end (node d1) in
  let s2 := node_start (node d2) in
  let e2 := node_end (node d2) in
  let quoted := $"'" ++ className d1 ++ $"'" in
  let spliced := take s1 code ++ quoted ++ drop e1 code in
  let style := if decide (trim c1 = []) then [] else renderBlock (extractionOf d1 c1) in
  let moduleId := filePath ++ $"." ++ hashText style ++ $".css" in
  includes code $"ecij" = true ->
  parseSync filePath code = Some parseResult ->
  declarations info ≡ₚ [d1; d2] ->
  Forall (fun p => p.1 = d1 -> resolvesTo config filePath info p.2 d1 c1)
         (reached config filePath info (declarations info) s0) ->
  Forall (fun p => p.1 = d2 -> unresolvable config filePath info p.2 d2)
         (reached config filePath info (declarations info) s0) ->
  s1 <= e1 <= length code ->
  s2 <= e2 <= length code ->
  exists st1,
    extractCssFromCode config code filePath st
    = (Some {| transformedCode := spliced; hasExtractions := true;
               cssContent := style; hasUnprocessedCssBlocks := true |}, st1) /\
    extractedCssPerFile st1 = extractedCssPerFile st /\
    handler config code id st
    = (if decide (trim c1 = []) then (Some (Some spliced), st1)
       else (Some (Some (addCssImport spliced moduleId)),
             setExtractedCss moduleId style st1)) /\
    (e2 <= s1 -> slice spliced s2 e2 = slice code s2 e2) /\
    (e1 <= s2 ->
     slice spliced (s1 + length quoted + (s2 - e1)) (s1 + length quoted + (e2 - e1))
     = slice code s2 e2) /\
    (s2 <= s1 /\ e1 <= e2 ->
     slice spliced s2 (s1 + length quoted + (e2 - e1))
     = slice code s2 s1 ++ quoted ++ slice code e1 e2).
Proof.
  intros filePath info s0 s1 e1 s2 e2 quoted spliced style moduleId
    Hmentions Hparse Hperm Hd1 Hd2 Hr1 Hr2.
  assert (Hds : declarations info = [d1; d2] \/ declarations info = [d2; d1]).
  { symmetry in Hperm. apply Permutation_length_2_inv in Hperm. tauto. }
  destruct (passes_resolve_one config filePath info (declarations info) d1 d2 c1 s0
              Hds Hd1 Hd2) as [st1 Hpasses].
  assert (Hq : $"'" ++ className d1 ++ $"'" ++ drop e1 code = quoted ++ drop e1 code).
  { unfold quoted. by rewrite <-!app_assoc. }
  assert (Hextract : extractCssFromCode config code filePath st
            = (Some {| transformedCode := spliced; hasExtractions := true;
                       cssContent := style; hasUnprocessedCssBlocks := true |}, st1)).
  { rewrite extractCssFromCode_unfold, Hparse. cbv zeta. fold info s0.
    change {| cssExtractions := []; replacements := [] |} with (recorded []).
    unfold mbind, M_bind in *.
    destruct (pass1 (declarations info) (recorded []) s0) as [[acc|] sa]; [|discriminate].
    destruct (pass2 config filePath info (declarations info) acc sa) as [[acc'|] sb];
      [|discriminate].
    injection Hpasses as -> ->. unfold mret, M_ret. f_equal. f_equal.
    rewrite finishExtraction_recorded.
    rewrite (bool_decide_eq_false_2 ([(d1, c1)] = [])) by done.
    rewrite splicedOf_one, styleTextOf_one. fold s1 e1. rewrite Hq.
    f_equal. apply bool_decide_eq_true_2. rewrite Hperm. cbn. lia. }
  exists st1. split; [exact Hextract|].
  pose proof (keepsStyles_extractCssFromCode config code filePath st) as Hkeeps.
  rewrite Hextract in Hkeeps. cbn [snd] in Hkeeps.
  split; [exact Hkeeps|]. split.
  { rewrite handler_unfold, Hmentions. cbn [negb]. fold filePath. rewrite Hextract.
    cbn [hasExtractions negb cssContent transformedCode hasUnprocessedCssBlocks].
    cbv zeta. fold moduleId. unfold style at 1.
    destruct (decide (trim c1 = [])) as [Hc|Hc].
    - by rewrite bool_decide_eq_false_2 by (intros Hne; by apply Hne).
    - rewrite bool_decide_eq_true_2; [done|]. discriminate. }
  unfold spliced. split; [|split].
  - intros Hbefore. unfold slice.
    rewrite drop_app_le by (rewrite length_take; lia).
    rewrite take_app_le by (rewrite length_drop, length_take; lia).
    rewrite !take_drop_commute.
    replace (s2 + (e2 - s2)) with e2 by lia.
    by rewrite take_take, Nat.min_l by lia.
  - intros Hafter. unfold slice.
    rewrite (app_assoc (take s1 code)).
    rewrite drop_app_ge by (rewrite length_app, length_take; lia).
    rewrite length_app, length_take, drop_drop.
    f_equal; [lia|]. f_equal. lia.
  - intros [Hleft Hright]. unfold slice.
    rewrite drop_app_le by (rewrite length_take; lia).
    rewrite take_app_ge by (rewrite length_drop, length_take; lia).
    rewrite length_drop, length_take, Nat.min_l by lia.
    replace (s1 + length quoted + (e2 - e1) - s2 - (s1 - s2))
      with (length quoted + (e2 - e1)) by lia.
    rewrite take_app_add' by done. f_equal.
    rewrite take_drop_commute. by replace (s2 + (s1 - s2)) with s1 by lia.
Qed.

Lemma partial_failure_isolation_witness :
  exists st1,
    @handler halfHost defaultConfiguration halfText $"/proj/src/half.ts" initialState
    = (Some (Some ($"import " ++ [DQUOTE] ++ $"/proj/src/half.ts.b724321c.css" ++ [DQUOTE]
                     ++ $";" ++ [LF; LF] ++ $"import { css } from 'ecij';" ++ [LF]
                     ++ $"const a = 'css-2a9734cc';" ++ [LF]
                     ++ $"const b = css`${f()}`;" ++ [LF])),
       setExtractedCss $"/proj/src/half.ts.b724321c.css"
         ($".css-2a9734cc {" ++ [LF] ++ $"  color: red;" ++ [LF] ++ $"}") st1) /\
    slice (take 38 halfText ++ $"'css-2a9734cc'" ++ drop 54 halfText)
          (38 + 14 + (66 - 54)) (38 + 14 + (77 - 54))
    = $"css`${f()}`".
Proof.
  destruct (@partial_failure_isolation halfHost defaultConfiguration halfText
              $"/proj/src/half.ts" initialState halfFile halfResolved halfUnresolved
              $"color: red;")
    as (st1 & _ & _ & Hhandler & _ & Hkept & _).
  - vm_compute. reflexivity.
  - vm_compute. reflexivity.
  - vm_compute. reflexivity.
  - vm_compute. repeat constructor; intros Heq; try discriminate Heq. by exists [].
  - vm_compute. repeat constructor; intros Heq; try discriminate Heq; reflexivity.
  - vm_compute. lia.
  - vm_compute. lia.
  - exists st1. split.
    + rewrite Hhandler. vm_compute. reflexivity.
    + assert (Hafter : node_end (node halfResolved) <= node_start (node halfUnresolved)).
      { vm_compute. lia. }
      specialize (Hkept Hafter). vm_compute in Hkept |- *. exact Hkept.
Defined.

(** C2, as the specification states it, fails: [hollow.ts] holds a
    declaration that resolves (to the empty text) and one that is
    unresolvable; the site of the first is replaced, the second is left as
    it is, and the style text holds no rule block at all, so that no style
    document is registered. *)
Lemma empty_resolvable_gives_no_block :
  declarations (analyze defaultConfiguration $"src/hollow.ts" hollowFile)
    = [hollowResolved; hollowUnresolved] /\
  (forall s,
     @resolvesTo halfHost defaultConfiguration $"/proj/src/hollow.ts"
        (analyze defaultConfiguration $"src/hollow.ts" hollowFile) s hollowResolved []) /\
  (forall s,
     @unresolvable halfHost defaultConfiguration $"/proj/src/hollow.ts"
        (analyze defaultConfiguration $"src/hollow.ts" hollowFile) s hollowUnresolved) /\
  (exists st',
     @extractCssFromCode halfHost defaultConfiguration hollowText $"/proj/src/hollow.ts"
        initialState
     = (Some {| transformedCode :=
                  $"import { css } from 'ecij';" ++ [LF] ++ $"const a = 'css-c9d0a405';"
                    ++ [LF] ++ $"const b = css`${f()}`;" ++ [LF];
                hasExtractions := true;
                cssContent := [];
                hasUnprocessedCssBlocks := true |}, st')) /\
  extractedCssPerFile
    (@handler halfHost defaultConfiguration hollowText $"/proj/src/hollow.ts"
       initialState).2 = ∅.
Proof.
  split; [vm_compute; reflexivity|].
  split; [intros s; by exists []|].
  split; [intros s; split; reflexivity|].
  split; [eexists; vm_compute; reflexivity|].
  vm_compute. reflexivity.
Qed.

(** Nor is the text of the unresolvable declaration always preserved:
    in [nested.ts] the resolvable declaration lies in the interpolation of
    the unresolvable one, and the text of the latter is rewritten at the
    range of the former. *)
Example nested_declaration_is_rewritten :
  className <$> declarations (analyze defaultConfiguration $"src/nested.ts" nestedFile)
    = [$"css-795c9cae"; $"css-ea3d7c78"] /\
  slice nestedText 38 62 = $"css`${css`color: red;`}`" /\
  exists st',
    @handler nestedHost defaultConfiguration nestedText $"/proj/src/nested.ts" initialState
    = (Some (Some ($"import " ++ [DQUOTE] ++ $"/proj/src/nested.ts.ef6a1ef0.css" ++ [DQUOTE]
                     ++ $";" ++ [LF; LF] ++ $"import { css } from 'ecij';" ++ [LF]
                     ++ $"const b = css`${'css-ea3d7c78'}`;" ++ [LF])), st').
Proof.
  split; [vm_compute; reflexivity|]. split; [vm_compute; reflexivity|].
  eexists. vm_compute. reflexivity.
Qed.

(** * Further properties of the code *)

(** ** Shape of the class names *)

Lemma hex_digit_isHexDigit n : isHexDigit (Md5.hex_digit n).
Proof.
  unfold isHexDigit, Md5.hex_digit.
  destruct (nth_in_or_default (Z.to_nat n) $"0123456789abcdef" "0"%char) as [Hin| ->].
  - by apply list_elem_of_In.
  - by left.
Qed.

Lemma hex_shape bytes :
  length (Md5.hex bytes) = 2 * length bytes /\ Forall isHexDigit (Md5.hex bytes).
Proof.
  unfold Md5.hex. induction bytes as [|b bytes [IHlen IHall]]; [by split|].
  cbn [flat_map app length]. split; [lia|].
  constructor; [apply hex_digit_isHexDigit|].
  constructor; [apply hex_digit_isHexDigit|]. exact IHall.
Qed.

Lemma digest_length msg : length (Md5.digest msg) = 16.
Proof.
  unfold Md5.digest. cbv zeta.
  by destruct (Md5.blocks _ Md5.init (Md5.pad msg)) as [a b c d].
Qed.

Lemma hashText_shape text :
  length (hashText text) = 8 /\ Forall isHexDigit (hashText text).
Proof.
  unfold hashText, slice. rewrite drop_0.
  destruct (hex_shape (Md5.digest (utf8 text))) as [Hlen Hall].
  rewrite digest_length in Hlen. split.
  - rewrite length_take. lia.
  - by apply Forall_take.
Qed.

(** X1. The class name of every declaration of an analysed file is the
    configured prefix followed by exactly eight lower-case hexadecimal
    digits. *)
Theorem class_name_shape (config : Configuration) (relativePath : str)
    (parseResult : ParseResult) (d : Declaration) :
  d ∈ declarations (analyze config relativePath parseResult) ->
  exists hash,
    className d = classPrefix config ++ hash /\
    length hash = 8 /\ Forall isHexDigit hash.
Proof.
  intros Hd. apply list_elem_of_lookup in Hd as [i Hi].
  unfold analyze in Hi. cbn [declarations] in Hi.
  eapply (namedByPosition_visit config relativePath) in Hi as [localName Hname].
  - exists (hashText (classKey relativePath i localName)).
    split; [exact Hname|]. apply hashText_shape.
  - intros k d' Hk. cbn in Hk. by rewrite lookup_nil in Hk.
Qed.

Lemma class_name_shape_witness :
  exists hash,
    $"css-b57012c3" = $"css-" ++ hash /\ length hash = 8 /\ Forall isHexDigit hash.
Proof.
  apply (class_name_shape defaultConfiguration $"src/a.ts" basicFile
           {| className := $"css-b57012c3";
              node := TaggedTemplateExpression 1 38 54 (Identifier $"css") [$"color: red;"] [];
              hasInterpolations := false |}).
  vm_compute. by left.
Defined.

(** ** Declarations are tagged templates with tag [css] *)

Section Recognized.
Context (config : Configuration) (relativePath : str) (exported : gmap str str).

Lemma recognized_handle localName n w :
  Forall recognized (w_declarations w) ->
  Forall recognized
    (w_declarations (handleTaggedTemplateExpression config relativePath exported
                       localName n w)).
Proof.
  intros Hw. destruct n as [| |r s e tag quasis es| |]; try exact Hw.
  cbn [handleTaggedTemplateExpression]. destruct (isCssTag tag) eqn:Htag; [|exact Hw].
  assert (Hpush : Forall recognized
            (w_declarations w ++
             [{| className := generateClassName config relativePath
                                (length (w_declarations w)) localName;
                 node := TaggedTemplateExpression r s e tag quasis es;
                 hasInterpolations := bool_decide (0 < length es) |}])).
  { apply Forall_app. split; [exact Hw|]. constructor; [|constructor]. by split. }
  destruct localName; exact Hpush.
Qed.

Lemma recognized_visit n w :
  Forall recognized (w_declarations w) ->
  Forall recognized (w_declarations (visit config relativePath exported n w)).
Proof.
  apply (visit_preserves config relativePath exported
           (fun w => Forall recognized (w_declarations w))).
  - intros id init w' Hw'. unfold onVariableDeclarator.
    destruct init as [i|]; [|exact Hw'].
    destruct id; try exact Hw'.
    destruct i as [|[]|r s e tag quasis es| |]; try exact Hw'.
    by apply (recognized_handle _ (TaggedTemplateExpression r s e tag quasis es)
                (addFromVariableDeclarator r w')).
  - intros m w' Hw'. unfold onTaggedTemplateExpression.
    destruct m; try exact Hw'.
    case_bool_decide; [exact Hw'|]. by apply recognized_handle.
Qed.
End Recognized.

(** X2. Every declaration of an analysed file refers to a tagged
    template whose tag is the identifier [css]; templates with another
    tag are never recorded, and [hasInterpolations] is true exactly when
    the template has an expression. *)
Theorem declarations_are_css_templates (config : Configuration) (relativePath : str)
    (parseResult : ParseResult) :
  Forall recognized (declarations (analyze config relativePath parseResult)).
Proof.
  unfold analyze. cbn [declarations]. apply recognized_visit. constructor.
Qed.

(** ** Query parameters of the module id *)

Lemma indexOf_Some s c i :
  indexOf s c = Some i -> (c ∉ take i s) /\ s !! i = Some c.
Proof.
  revert i. induction s as [|a s IH]; intros i; cbn [indexOf]; [done|].
  destruct (ascii_dec a c) as [->|Hne].
  - intros [= <-]. cbn. split; [apply not_elem_of_nil|done].
  - destruct (indexOf s c) as [j|]; [|done]. cbn. intros [= <-].
    destruct (IH j eq_refl) as [Hnot Hat]. cbn. split; [|done].
    rewrite not_elem_of_cons. split; [congruence|done].
Qed.

Lemma indexOf_None s c : indexOf s c = None -> c ∉ s.
Proof.
  induction s as [|a s IH]; cbn [indexOf]; [intros _; apply not_elem_of_nil|].
  destruct (ascii_dec a c) as [->|Hne]; [done|].
  destruct (indexOf s c) as [j|]; [done|]. intros _.
  rewrite not_elem_of_cons. split; [congruence|by apply IH].
Qed.

Lemma indexOf_absent s c : c ∉ s -> indexOf s c = None.
Proof.
  intros Hnot. destruct (indexOf s c) as [i|] eqn:Hi; [|done].
  apply indexOf_Some in Hi as [_ Hat]. by apply list_elem_of_lookup_2 in Hat.
Qed.

(** X3. The id without its query holds no question mark; the id is this
    text followed by nothing or by a question mark and the rest; an id
    without question mark is left as it is. *)
Theorem removeQuery_spec (id : str) :
  ("?"%char ∉ removeQuery id) /\
  (exists rest, id = removeQuery id ++ rest /\ (rest = [] \/ head rest = Some "?"%char)) /\
  ("?"%char ∉ id -> removeQuery id = id).
Proof.
  unfold removeQuery. destruct (indexOf id "?"%char) as [i|] eqn:Hi.
  - apply indexOf_Some in Hi as [Hnot Hat]. unfold slice.
    rewrite Nat.sub_0_r, drop_0. split; [exact Hnot|]. split.
    + exists (drop i id). split; [by rewrite take_drop|]. right.
      by rewrite head_lookup, lookup_drop, Nat.add_0_r.
    + intros Habsent. by apply list_elem_of_lookup_2 in Hat.
  - apply indexOf_None in Hi. split; [exact Hi|]. split; [|done].
    exists []. split; [by rewrite app_nil_r|by left].
Qed.

Lemma removeQuery_spec_witness : removeQuery $"/proj/src/a.ts" = $"/proj/src/a.ts".
Proof.
  apply (removeQuery_spec $"/proj/src/a.ts").
  vm_compute. intros Hin. repeat (apply elem_of_cons in Hin as [Hin|Hin]; [discriminate|]).
  by apply elem_of_nil in Hin.
Defined.

(** ** Trimming of the content *)

Lemma trimStart_split s :
  exists l, s = l ++ trimStart s /\ Forall (fun c => is_space c = true) l /\
            (forall c rest, trimStart s = c :: rest -> is_space c = false).
Proof.
  induction s as [|a s (l & Hs & Hl & Hhead)]; cbn [trimStart].
  { exists []. repeat split; [constructor|done]. }
  destruct (is_space a) eqn:Ha.
  - exists (a :: l). cbn. split; [by f_equal|]. split; [by constructor|exact Hhead].
  - exists []. split; [done|]. split; [constructor|]. by intros c rest [= <- _].
Qed.

Lemma trimEnd_split s :
  exists r, s = trimEnd s ++ r /\ Forall (fun c => is_space c = true) r /\
            (forall front c, trimEnd s = front ++ [c] -> is_space c = false).
Proof.
  unfold trimEnd. destruct (trimStart_split (rev s)) as (l & Hs & Hl & Hhead).
  exists (rev l). split; [|split].
  - rewrite <-rev_app_distr, <-Hs. by rewrite rev_involutive.
  - rewrite Forall_forall in Hl. apply Forall_forall. intros c Hc.
    apply Hl, list_elem_of_In, (proj2 (in_rev l c)). by apply list_elem_of_In.
  - intros front c Hlast. apply (f_equal (@rev ascii)) in Hlast.
    rewrite rev_involutive, rev_app_distr in Hlast. cbn in Hlast. by apply (Hhead c (rev front)).
Qed.

Lemma trim_split s :
  exists l r,
    s = l ++ trim s ++ r /\
    Forall (fun c => is_space c = true) l /\ Forall (fun c => is_space c = true) r /\
    trimmed (trim s).
Proof.
  unfold trim.
  destruct (trimStart_split s) as (l & Hs & Hl & Hhead).
  destruct (trimEnd_split (trimStart s)) as (r & Ht & Hr & Hlast).
  exists l, r. split; [by rewrite <-Ht|]. split; [done|]. split; [done|].
  split; [|exact Hlast].
  intros c rest Hc. apply (Hhead c (rest ++ r)). by rewrite Ht, Hc at 1.
Qed.

Lemma trimStart_fixed s :
  (forall c rest, s = c :: rest -> is_space c = false) -> trimStart s = s.
Proof.
  destruct s as [|a s]; [done|]. intros Hhead. cbn. by rewrite (Hhead a s).
Qed.

Lemma trim_fixed s : trimmed s -> trim s = s.
Proof.
  intros [Hhead Hlast]. unfold trim. rewrite (trimStart_fixed s Hhead).
  unfold trimEnd. rewrite trimStart_fixed; [apply rev_involutive|].
  intros c rest Hrev. apply (Hlast (rev rest) c).
  apply (f_equal (@rev ascii)) in Hrev. rewrite rev_involutive in Hrev. by rewrite Hrev.
Qed.

(** X4. The content that [addProcessedDeclaration] stores is the
    resolved content without the white space around it: the resolved
    content is white space, the stored content, white space; the stored
    content neither starts nor ends with white space; and a content
    without white space at its ends is stored as it is. *)
Theorem stored_content_is_trimmed (declaration : Declaration) (content : str)
    (acc : Processed) :
  exists stored l r,
    cssExtractions (addProcessedDeclaration declaration content acc)
      = cssExtractions acc ++
          [{| CssExtraction.className := className declaration;
              CssExtraction.cssContent := stored;
              CssExtraction.sourcePosition := node_start (node declaration) |}] /\
    content = l ++ stored ++ r /\
    Forall (fun c => is_space c = true) l /\ Forall (fun c => is_space c = true) r /\
    trimmed stored /\
    (trimmed content -> stored = content).
Proof.
  destruct (trim_split content) as (l & r & Hsplit & Hl & Hr & Htrimmed).
  exists (trim content), l, r. split; [done|]. split; [done|]. split; [done|].
  split; [done|]. split; [done|]. apply trim_fixed.
Qed.

Lemma stored_content_is_trimmed_witness :
  exists stored l r,
    $"  color: red; " = l ++ stored ++ r /\ trimmed stored.
Proof.
  destruct (stored_content_is_trimmed
              {| className := $"css-b57012c3";
                 node := TaggedTemplateExpression 1 38 54 (Identifier $"css")
                           [$"  color: red; "] [];
                 hasInterpolations := false |}
              $"  color: red; "
              {| cssExtractions := []; replacements := [] |})
    as (stored & l & r & _ & Hsplit & _ & _ & Htrimmed & _).
  by exists stored, l, r.
Defined.

(** ** The style text *)

(** X5. The style text of an extraction is empty exactly when the
    trimmed content of every extraction record is empty: a file gets a
    style module as soon as one processed declaration has content. *)
Theorem style_text_empty_iff (extractions : list CssExtraction.t) :
  join [LF; LF] (cssBlocks (sortExtractions extractions)) = []
  <-> Forall (fun e => CssExtraction.cssContent e = []) extractions.
Proof.
  unfold cssBlocks, sortExtractions. split.
  - intros Hempty.
    destruct (filter (fun e => CssExtraction.cssContent e <> []) _) as [|e es] eqn:Hfilter.
    + apply Forall_forall. intros e He.
      destruct (decide (CssExtraction.cssContent e = [])) as [|Hne]; [done|]. exfalso.
      assert (Hin : e ∈ filter (fun e => CssExtraction.cssContent e <> [])
                      (sort (fun a b => (Z.of_nat (CssExtraction.sourcePosition a)
                                         - Z.of_nat (CssExtraction.sourcePosition b))%Z)
                            extractions)).
      { apply list_elem_of_filter. split; [done|]. by rewrite sort_Permutation. }
      rewrite Hfilter in Hin. by apply elem_of_nil in Hin.
    + exfalso. cbn [map] in Hempty. revert Hempty. apply join_nonempty. discriminate.
  - intros Hall.
    replace (filter _ _) with (@nil CssExtraction.t); [done|]. symmetry.
    apply elem_of_nil_inv. intros e He.
    apply list_elem_of_filter in He as [Hne Hin]. rewrite sort_Permutation in Hin.
    rewrite Forall_forall in Hall. by apply Hne, Hall.
Qed.

(** ** Order of the style blocks *)

Lemma sort_below {A} (cmp : A -> A -> Z) (l : list A) :
  (forall a b, a ∈ l -> b ∈ l -> (cmp a b <= 0)%Z) -> sort cmp l = l.
Proof.
  induction l as [|x l IH]; intros Hall; [done|]. cbn [sort].
  rewrite IH by (intros a b Ha Hb; apply Hall; by right).
  apply insertSorted_below. apply Forall_forall. intros y Hy.
  apply Hall; [by left|by right].
Qed.

Lemma StronglySorted_weaken {A} (R R' : relation A) l :
  (forall a b, R a b -> R' a b) -> StronglySorted R l -> StronglySorted R' l.
Proof.
  intros Himpl. induction 1 as [|x l _ IH Hx]; constructor; [done|].
  eapply Forall_impl; [exact Hx|]. apply Himpl.
Qed.

(** X6. The extraction records are put in ascending order of their
    source position, whichever pass recorded them: the sorted list holds
    the same records, is ordered, keeps records of one position in the
    order of their recording, and the blocks are those of the records
    with content, in that order. *)
Theorem blocks_in_source_order (extractions : list CssExtraction.t) :
  sortExtractions extractions ≡ₚ extractions /\
  StronglySorted ascendingPosition (sortExtractions extractions) /\
  (forall position,
     filter (fun e => CssExtraction.sourcePosition e = position) (sortExtractions extractions)
     = filter (fun e => CssExtraction.sourcePosition e = position) extractions) /\
  cssBlocks (sortExtractions extractions)
  = renderBlock <$> sortExtractions
                      (filter (fun e => CssExtraction.cssContent e <> []) extractions).
Proof.
  unfold sortExtractions. split; [apply sort_Permutation|]. split; [|split].
  - eapply StronglySorted_weaken; [|apply sort_StronglySorted; intros; lia].
    intros a b Hab. unfold ascendingPosition. cbv beta in Hab. lia.
  - intros position. rewrite filter_sort by (intros; lia).
    apply sort_below. intros a b Ha Hb.
    apply list_elem_of_filter in Ha as [-> _]. apply list_elem_of_filter in Hb as [-> _]. lia.
  - unfold cssBlocks. by rewrite filter_sort by (intros; lia).
Qed.

(** ** The registry of style texts *)

Section RegistryFacts.
Context `{Host} (config : Configuration).

(** What the transform hook does to the registry, whether it returns or
    throws. *)
Lemma handler_registry code id st :
  extractedCssPerFile (handler config code id st).2 = extractedCssPerFile st \/
  exists css,
    css <> [] /\
    extractedCssPerFile (handler config code id st).2
    = <[removeQuery id ++ $"." ++ hashText css ++ $".css" := css]> (extractedCssPerFile st).
Proof.
  rewrite handler_unfold.
  destruct (negb (includes code $"ecij")); [by left|].
  pose proof (keepsStyles_extractCssFromCode config code (removeQuery id) st) as Hkeeps.
  destruct (extractCssFromCode config code (removeQuery id) st) as [[r|] st1];
    cbn [snd] in Hkeeps; [|by left].
  destruct (negb (hasExtractions r)); [by left|].
  destruct (bool_decide (cssContent r <> [])) eqn:Hcss; cbv zeta; cbn [snd]; [|by left].
  right. exists (cssContent r). apply bool_decide_eq_true in Hcss.
  split; [done|]. cbn [extractedCssPerFile setExtractedCss]. by rewrite Hkeeps.
Qed.
End RegistryFacts.

Lemma registryConsistent_insert cleanId css st :
  css <> [] ->
  registryConsistent st ->
  forall st',
    extractedCssPerFile st'
    = <[cleanId ++ $"." ++ hashText css ++ $".css" := css]> (extractedCssPerFile st) ->
    registryConsistent st'.
Proof.
  intros Hcss Hst st' Hst' id css'. rewrite Hst', lookup_insert.
  case_decide as Hid; [|apply Hst].
  intros [= <-]. split; [done|]. by exists cleanId.
Qed.

Section RegistryRuns.
Context `{Host} (config : Configuration).

Lemma runHook_consistent hook st :
  registryConsistent st -> registryConsistent (runHook config st hook).
Proof.
  intros Hst. destruct hook as [|id|id|code id]; cbn [runHook]; try exact Hst.
  - intros id css Hid. cbn in Hid. by rewrite lookup_empty in Hid.
  - destruct (handler_registry config code id st) as [Hsame|(css & Hcss & Hset)].
    + intros k css. rewrite Hsame. apply Hst.
    + by apply (registryConsistent_insert (removeQuery id) css st).
Qed.

Lemma runHooks_consistent hooks st :
  registryConsistent st -> registryConsistent (runHooks config hooks st).
Proof.
  unfold runHooks. revert st. induction hooks as [|hook hooks IH]; intros st Hst; [exact Hst|].
  cbn [foldl]. by apply IH, runHook_consistent.
Qed.

(** A registered module stays registered as long as [buildEnd] is not
    called; its text changes only when a transform registers a text for
    the same id. *)
Lemma runHooks_keeps hooks st moduleId css :
  (BuildEnd ∉ hooks) ->
  extractedCssPerFile st !! moduleId = Some css ->
  exists served,
    extractedCssPerFile (runHooks config hooks st) !! moduleId = Some served /\
    (served = css \/ exists code id, Transform code id ∈ hooks).
Proof.
  unfold runHooks. revert st css.
  induction hooks as [|hook hooks IH]; intros st css Hbuild Hcss; [by exists css; auto|].
  apply not_elem_of_cons in Hbuild as [Hhook Hbuild]. cbn [foldl].
  destruct hook as [|id|id|code id]; cbn [runHook resolveId load snd]; [done| | |].
  - destruct (IH st css Hbuild Hcss) as (served & Hserved & [->|(code & id' & Hin)]).
    + exists css. by auto.
    + exists served. split; [done|]. right. exists code, id'. by right.
  - destruct (IH st css Hbuild Hcss) as (served & Hserved & [->|(code & id' & Hin)]).
    + exists css. by auto.
    + exists served. split; [done|]. right. exists code, id'. by right.
  - assert (Hkept : exists css', extractedCssPerFile (handler config code id st).2 !! moduleId
                                 = Some css').
    { destruct (handler_registry config code id st) as [->|(css' & _ & ->)]; [by eauto|].
      rewrite lookup_insert. case_decide; by eauto. }
    destruct Hkept as [css' Hcss'].
    destruct (IH _ css' Hbuild Hcss') as (served & Hserved & _).
    exists served. split; [done|]. right. exists code, id. by left.
Qed.
End RegistryRuns.

(** The hash that a module id names. *)
Lemma moduleId_hash (cleanId1 cleanId2 css1 css2 : str) :
  cleanId1 ++ $"." ++ hashText css1 ++ $".css" = cleanId2 ++ $"." ++ hashText css2 ++ $".css" ->
  hashText css1 = hashText css2.
Proof.
  intros Heq. rewrite !(app_assoc _ $".") in Heq.
  apply app_inj_2 in Heq as [_ Heq]; [by apply app_inv_tail in Heq|].
  rewrite !length_app. f_equal.
  destruct (hashText_shape css1) as [-> _]. by destruct (hashText_shape css2) as [-> _].
Qed.

(** X8. Whatever hooks the host calls, in whatever order, and whether
    they return or throw, every style text in the registry is not empty
    and is registered under an id that ends with a dot, the hash of that
    text and [.css]. *)
Theorem registry_is_consistent `{Host} (config : Configuration) (hooks : list Hook) :
  registryConsistent (runHooks config hooks initialState).
Proof.
  unfold runHooks.
  assert (Hinit : registryConsistent initialState).
  { intros id css Hid. cbn in Hid. by rewrite lookup_empty in Hid. }
  revert Hinit. generalize initialState.
  induction hooks as [|hook hooks IH]; intros st Hst; [exact Hst|].
  cbn [foldl]. apply IH. destruct hook as [|id|id|code id]; cbn [runHook].
  - intros id css Hid. cbn in Hid. by rewrite lookup_empty in Hid.
  - exact Hst.
  - exact Hst.
  - destruct (handler_registry config code id st) as [Hsame|(css & Hcss & Hset)].
    + intros k css. rewrite Hsame. apply Hst.
    + by apply (registryConsistent_insert (removeQuery id) css st).
Qed.

(** X7. A style module that a reachable state of the plugin holds stays
    registered until [buildEnd]: after any further hooks other than
    [buildEnd], [resolveId] claims its id and [load] serves a text that
    is not empty and has the hash of the registered text, which the id
    names.  When none of the further hooks is a transform, the text served
    is the registered text. *)
Theorem registered_module_is_served `{Host} (config : Configuration)
    (before after : list Hook) (moduleId css : str) :
  extractedCssPerFile (runHooks config before initialState) !! moduleId = Some css ->
  (BuildEnd ∉ after) ->
  let st' := runHooks config (before ++ after) initialState in
  resolveId moduleId st' = (Some (Some moduleId), st') /\
  exists served,
    load moduleId st' = (Some (Some served), st') /\
    served <> [] /\
    hashText served = hashText css /\
    (Forall (fun hook => forall code id, hook <> Transform code id) after -> served = css).
Proof.
  intros Hcss Hbuild st'.
  assert (Hst' : st' = runHooks config after (runHooks config before initialState)).
  { unfold st', runHooks. by rewrite foldl_app. }
  assert (Hbefore : registryConsistent (runHooks config before initialState)).
  { apply runHooks_consistent. intros id text Hid. cbn in Hid. by rewrite lookup_empty in Hid. }
  pose proof (runHooks_consistent config after _ Hbefore) as Hafter.
  rewrite <-Hst' in Hafter.
  destruct (runHooks_keeps config after _ moduleId css Hbuild Hcss)
    as (served & Hserved & Hsame).
  rewrite <-Hst' in Hserved.
  split.
  { unfold resolveId. rewrite Hserved. by rewrite bool_decide_eq_true_2 by eauto. }
  exists served. split; [by unfold load; rewrite Hserved|].
  destruct (Hafter moduleId served Hserved) as [Hne [cleanId' Hid']].
  destruct (Hbefore moduleId css Hcss) as [_ [cleanId Hid]].
  split; [exact Hne|]. split.
  { apply (moduleId_hash cleanId' cleanId). by rewrite <-Hid', <-Hid. }
  intros Hnone. destruct Hsame as [->|(code & id & Hin)]; [done|].
  rewrite Forall_forall in Hnone. by destruct (Hnone _ Hin code id).
Qed.

Lemma registered_module_is_served_witness :
  let st' :=
    @runHooks basicHost defaultConfiguration
      ([Transform basicText $"/proj/src/a.ts"]
         ++ [ResolveId $"/proj/src/a.ts.ba95ab2c.css"; Transform basicText $"/proj/src/a.ts?v=2";
             Load $"/proj/src/b.ts"]) initialState in
  resolveId $"/proj/src/a.ts.ba95ab2c.css" st' = (Some (Some $"/proj/src/a.ts.ba95ab2c.css"), st').
Proof.
  apply (@registered_module_is_served basicHost defaultConfiguration
           [Transform basicText $"/proj/src/a.ts"]
           [ResolveId $"/proj/src/a.ts.ba95ab2c.css"; Transform basicText $"/proj/src/a.ts?v=2";
            Load $"/proj/src/b.ts"]
           $"/proj/src/a.ts.ba95ab2c.css"
           ($".css-b57012c3 {" ++ [LF] ++ $"  color: red;" ++ [LF] ++ $"}")).
  - vm_compute. reflexivity.
  - intros Hin. repeat (apply elem_of_cons in Hin as [Hin|Hin]; [discriminate Hin|]).
    by apply elem_of_nil in Hin.
Defined.
(** ** The cache during an extraction *)

Lemma touchesOnly_ret {A} (touched : str -> Prop) (x : A) : touchesOnly touched (mret x).
Proof. by intros st other _. Qed.

Lemma touchesOnly_bind {A B} (touched : str -> Prop) (m : M A) (f : A -> M B) :
  touchesOnly touched m -> (forall x, touchesOnly touched (f x)) ->
  touchesOnly touched (m ≫= f).
Proof.
  intros Hm Hf st other Hother. unfold mbind, M_bind. specialize (Hm st other Hother).
  destruct (m st) as [[x|] st1]; cbn [snd] in *; [|exact Hm].
  by rewrite Hf.
Qed.

Section CacheFrame.
Context `{Host} (config : Configuration).

(** [parseFile] writes the entry of the file it is given, and no other. *)
Lemma touchesOnly_parseFile filePath code :
  touchesOnly (fun other => other = filePath) (parseFile config filePath code).
Proof.
  intros st other Hother.
  assert (Hfresh : forall sourceText,
    parsedFileInfoCache
      ((parseResult ← orThrow (parseSync filePath sourceText);
        _ ← cacheSet filePath (analyze config (toRelativePath filePath) parseResult);
        mret (analyze config (toRelativePath filePath) parseResult)) st).2 !! other
    = parsedFileInfoCache st !! other).
  { intros sourceText. unfold mbind, M_bind.
    destruct (parseSync filePath sourceText) as [parseResult|]; [|done].
    cbn. by rewrite lookup_insert_ne by congruence. }
  unfold parseFile. unfold mbind at 1. unfold M_bind at 1. unfold cacheGet.
  destruct code as [code|].
  - apply Hfresh.
  - destruct (parsedFileInfoCache st !! filePath) as [cached|]; [done|].
    unfold mbind at 1. unfold M_bind at 1.
    destruct (readFile filePath) as [sourceText|]; [|done]. apply Hfresh.
Qed.

Lemma touchesOnly_resolveValue filePath info identifierName :
  touchesOnly (importTargets filePath info)
              (resolveValue config filePath info identifierName).
Proof.
  unfold resolveValue.
  destruct (localIdentifiers info !! identifierName); [apply touchesOnly_ret|].
  destruct (importedIdentifiers info !! identifierName) as [entry|] eqn:Hentry;
    [|apply touchesOnly_ret].
  destruct (resolve (source entry) filePath) as [target|] eqn:Htarget;
    [|apply touchesOnly_ret].
  apply touchesOnly_bind; [|intros; apply touchesOnly_ret].
  intros st other Hother. apply touchesOnly_parseFile.
  intros ->. apply Hother. by exists identifierName, entry.
Qed.

Lemma touchesOnly_interpolate filePath info quasis expressions cssContent :
  touchesOnly (importTargets filePath info)
              (interpolate config filePath info quasis expressions cssContent).
Proof.
  revert expressions cssContent.
  induction quasis as [|quasi quasis IH]; intros expressions cssContent; cbn [interpolate];
    [apply touchesOnly_ret|].
  destruct expressions as [|[name| | | |] expressions];
    try apply touchesOnly_ret; [apply IH|].
  apply touchesOnly_bind; [apply touchesOnly_resolveValue|].
  intros [value|]; [apply IH|apply touchesOnly_ret].
Qed.

Lemma touchesOnly_pass2 filePath info ds acc :
  touchesOnly (importTargets filePath info) (pass2 config filePath info ds acc).
Proof.
  revert acc. induction ds as [|d ds IH]; intros acc; cbn [pass2];
    [apply touchesOnly_ret|].
  destruct (hasInterpolations d); [|apply IH].
  apply touchesOnly_bind; [apply touchesOnly_interpolate|].
  intros [content|]; apply IH.
Qed.

Lemma touchesOnly_pass1 (touched : str -> Prop) ds acc : touchesOnly touched (pass1 ds acc).
Proof.
  revert acc. induction ds as [|d ds IH]; intros acc; cbn [pass1];
    [apply touchesOnly_ret|].
  destruct (hasInterpolations d); [apply IH|].
  destruct (node_quasis (node d)); [by intros st other _|apply IH].
Qed.
End CacheFrame.

(** X9. An extraction writes to the cache of analyses only at the file
    it transforms and at the files that the named imports of that file
    resolve to: the entry of every other file is as it was, whether the
    extraction returns or throws, and so is the registry of style
    texts. *)
Theorem extraction_touches_only_its_imports `{Host} (config : Configuration)
    (code filePath other : str) (st : PluginState) :
  other <> filePath ->
  (forall parseResult,
     parseSync filePath code = Some parseResult ->
     ~ importTargets filePath (analyze config (toRelativePath filePath) parseResult) other) ->
  let st' := (extractCssFromCode config code filePath st).2 in
  parsedFileInfoCache st' !! other = parsedFileInfoCache st !! other /\
  extractedCssPerFile st' = extractedCssPerFile st.
Proof.
  intros Hother Htargets. cbv zeta.
  split; [|apply keepsStyles_extractCssFromCode].
  rewrite extractCssFromCode_unfold.
  destruct (parseSync filePath code) as [parseResult|]; [|done]. cbv zeta.
  set (info := analyze config (toRelativePath filePath) parseResult).
  assert (Hrest : touchesOnly (importTargets filePath info)
            (acc ← pass1 (declarations info) {| cssExtractions := []; replacements := [] |};
             acc0 ← pass2 config filePath info (declarations info) acc;
             mret (finishExtraction code (declarations info) acc0))).
  { apply touchesOnly_bind; [apply touchesOnly_pass1|]. intros acc.
    apply touchesOnly_bind; [apply touchesOnly_pass2|]. intros acc0.
    apply touchesOnly_ret. }
  rewrite (Hrest (setCache filePath info st) other) by by apply Htargets.
  cbn. by rewrite lookup_insert_ne.
Qed.

Lemma extraction_touches_only_its_imports_witness :
  parsedFileInfoCache
    (@extractCssFromCode themeHost defaultConfiguration cardText $"/proj/src/card.ts"
       initialState).2 !! $"/proj/src/other.ts"
  = parsedFileInfoCache initialState !! $"/proj/src/other.ts".
Proof.
  apply (@extraction_touches_only_its_imports themeHost defaultConfiguration cardText
           $"/proj/src/card.ts" $"/proj/src/other.ts" initialState).
  - discriminate.
  - intros parseResult Hparse (name & entry & Hentry & Htarget).
    assert (Some cardFile = Some parseResult) as [= <-].
    { rewrite <-Hparse. vm_compute. reflexivity. }
    apply elem_of_map_to_list in Hentry. vm_compute in Hentry.
    repeat (apply elem_of_cons in Hentry as [[= -> ->]|Hentry];
            [vm_compute in Htarget; discriminate Htarget|]).
    by apply elem_of_nil in Hentry.
Defined.

(** ** Interpolation of local identifiers *)

(** X10. A template whose expressions are identifiers with a value in
    [localIdentifiers] resolves to its literal segments with these values
    in between; the state is left as it is: no file is read, no module is
    resolved.  Without expressions the content is the concatenation of the
    segments. *)
Theorem local_interpolation `{Host} (config : Configuration) (filePath : str)
    (info : ParsedFileInfo) (quasis names values : list str) (cssContent : str)
    (st : PluginState) :
  Forall2 (fun name value => localIdentifiers info !! name = Some value) names values ->
  interpolate config filePath info quasis (Identifier <$> names) cssContent st
  = (Some (Some (cssContent ++ interleave quasis values)), st).
Proof.
  intros Hlocal. revert names values Hlocal cssContent.
  induction quasis as [|quasi quasis IH]; intros names values Hlocal cssContent;
    cbn [interpolate interleave].
  { by rewrite app_nil_r. }
  destruct Hlocal as [|name value names values Hname Hrest]; cbn [fmap list_fmap].
  - change (@nil Node) with (Identifier <$> @nil str).
    rewrite (IH [] []) by constructor. by rewrite <-app_assoc.
  - unfold mbind, M_bind, resolveValue. rewrite Hname. unfold mret, M_ret.
    rewrite (IH names values Hrest). by rewrite <-!app_assoc.
Qed.

Lemma local_interpolation_witness :
  @interpolate basicHost defaultConfiguration $"/proj/src/a.ts"
     {| declarations := []; localIdentifiers := {[ $"baseColor" := $"red" ]};
        importedIdentifiers := ∅; exportNameToValueMap := ∅ |}
     [$"color: "; $";"] (Identifier <$> [$"baseColor"]) [] initialState
  = (Some (Some ([] ++ interleave [$"color: "; $";"] [$"red"])), initialState).
Proof.
  apply (@local_interpolation basicHost defaultConfiguration).
  repeat constructor.
Defined.

(** ** Imports *)

Lemma foldl_invariant {A B} (P : A -> Prop) (f : A -> B -> A) (l : list B) (a : A) :
  P a -> (forall a x, x ∈ l -> P a -> P (f a x)) -> P (foldl f a l).
Proof.
  revert a. induction l as [|x l IH]; intros a Ha Hstep; [exact Ha|].
  cbn [foldl]. apply IH.
  - apply Hstep; [by left|exact Ha].
  - intros a' y Hy. apply Hstep. by right.
Qed.

Lemma collectImports_named imports : fromNamedImports imports (collectImports imports).
Proof.
  unfold collectImports.
  apply (foldl_invariant (fromNamedImports imports)).
  { intros localName entry Hin. by rewrite lookup_empty in Hin. }
  intros m staticImport HstaticImport Hm.
  apply (foldl_invariant (fromNamedImports imports)); [exact Hm|].
  intros m' importEntry HimportEntry Hm'.
  destruct (import_importName importEntry) as [name| |] eqn:Hkind; try exact Hm'.
  intros localName entry. rewrite lookup_insert. case_decide as Hlocal; [|apply Hm'].
  intros [= <-]. exists staticImport, importEntry. by cbn.
Qed.

(** X11. Only named imports are recorded: an identifier that is not a
    local one and that no named import of the file binds (a default or a
    namespace import, say) is unresolved, and nothing is asked of the
    host. *)
Theorem unnamed_import_is_unresolved `{Host} (config : Configuration)
    (relativePath filePath : str) (parseResult : ParseResult) (identifierName : str)
    (st : PluginState) :
  let info := analyze config relativePath parseResult in
  localIdentifiers info !! identifierName = None ->
  notNamedImport parseResult identifierName ->
  importedIdentifiers info !! identifierName = None /\
  resolveValue config filePath info identifierName st = (Some None, st).
Proof.
  intros info Hlocal Hunnamed.
  assert (Himported : importedIdentifiers info !! identifierName = None).
  { destruct (importedIdentifiers info !! identifierName) as [entry|] eqn:Hentry; [|done].
    exfalso. unfold info, analyze in Hentry. cbn [importedIdentifiers] in Hentry.
    apply collectImports_named in Hentry
      as (staticImport & importEntry & Hs & He & Hname & Hkind & _).
    unfold notNamedImport in Hunnamed. rewrite Forall_forall in Hunnamed.
    specialize (Hunnamed staticImport Hs). rewrite Forall_forall in Hunnamed.
    by apply (Hunnamed importEntry He Hname (imported entry)). }
  split; [exact Himported|].
  unfold resolveValue. by rewrite Hlocal, Himported.
Qed.

Lemma unnamed_import_is_unresolved_witness :
  importedIdentifiers (analyze defaultConfiguration $"src/ns.ts" namespaceFile) !! $"theme"
    = None /\
  @resolveValue themeHost defaultConfiguration $"/proj/src/ns.ts"
     (analyze defaultConfiguration $"src/ns.ts" namespaceFile) $"theme" initialState
  = (Some None, initialState).
Proof.
  apply (@unnamed_import_is_unresolved themeHost defaultConfiguration $"src/ns.ts"
           $"/proj/src/ns.ts" namespaceFile $"theme" initialState).
  - vm_compute. reflexivity.
  - repeat constructor; cbn; intros Hname; try discriminate.
Defined.

(** ** Literal constants *)

(** X12. A declarator that binds a variable to a string or number
    literal records the text of the literal under the variable and, for a
    tracked export, under the exported name; unless a later declarator
    records the same name, the analysis of the file holds that text, and
    an identifier of another file that imports the exported name resolves
    to it. *)
Theorem literal_binding_is_recorded `{Host} (config : Configuration)
    (relativePath : str) (parseResult : ParseResult)
    (before after : list VisitorEvent) (name text : str) (literal : LiteralValue) :
  let exported := collectExports (staticExports parseResult) in
  let info := analyze config relativePath parseResult in
  events (program parseResult)
    = before ++ EnterVariableDeclarator (Identifier name) (Some (Literal literal)) :: after ->
  literal = StringValue text \/ literal = NumberValue text ->
  notRebound name after ->
  localIdentifiers info !! name = Some text /\
  forall exportedName,
    exported !! name = Some exportedName ->
    notReexported exported exportedName after ->
    exportNameToValueMap info !! exportedName = Some text /\
    forall importer importerInfo identifierName entry target st st',
      localIdentifiers importerInfo !! identifierName = None ->
      importedIdentifiers importerInfo !! identifierName = Some entry ->
      imported entry = exportedName ->
      resolve (source entry) importer = Some target ->
      parseFile config target None st = (Some info, st') ->
      resolveValue config importer importerInfo identifierName st = (Some (Some text), st').
Proof.
  intros exported info Hevents Hliteral Hafter.
  set (w0 := foldl (dispatch config relativePath exported) emptyWalk before).
  set (w1 := dispatch config relativePath exported w0
               (EnterVariableDeclarator (Identifier name) (Some (Literal literal)))).
  assert (Hfinal : visit config relativePath exported (program parseResult) emptyWalk
                   = foldl (dispatch config relativePath exported) w1 after).
  { by rewrite visit_events, Hevents, foldl_app. }
  assert (Hw1 : w1 = recordIdentifierWithValue exported name text w0).
  { subst w1. by destruct Hliteral as [-> | ->]. }
  split.
  - unfold info, analyze. cbn [localIdentifiers]. fold exported. rewrite Hfinal.
    rewrite dispatch_all_locals by done. rewrite Hw1. cbn. apply lookup_insert_eq.
  - intros exportedName Hexported Hkept.
    assert (Hvalue : exportNameToValueMap info !! exportedName = Some text).
    { unfold info, analyze. cbn [exportNameToValueMap]. fold exported. rewrite Hfinal.
      rewrite dispatch_all_exports by done. rewrite Hw1. cbn. rewrite Hexported.
      apply lookup_insert_eq. }
    split; [exact Hvalue|].
    intros importer importerInfo identifierName entry target st st'
      Hnotlocal Himported Hname Hresolve Hparse.
    rewrite (resolveValue_imported config importer importerInfo identifierName entry target)
      by done.
    by rewrite Hparse, Hname, Hvalue.
Qed.

Lemma literal_binding_is_recorded_witness :
  localIdentifiers (analyze defaultConfiguration $"src/deep.ts" deepFile) !! $"x"
    = Some $"red" /\
  exportNameToValueMap (analyze defaultConfiguration $"src/deep.ts" deepFile) !! $"x"
    = Some $"red".
Proof.
  destruct (@literal_binding_is_recorded reexportHost defaultConfiguration $"src/deep.ts"
              deepFile [] [] $"x" $"red" (StringValue $"red")) as [Hlocal Hexport].
  - reflexivity.
  - by left.
  - constructor.
  - split; [exact Hlocal|]. apply (Hexport $"x").
    + vm_compute. reflexivity.
    + constructor.
Defined.

(** ** More on the removal of the import statement *)

Lemma delete_matches_sublist k s : sublist (delete_matches k s) s.
Proof.
  revert k. induction s as [|c s IH]; intros k; cbn [delete_matches]; [constructor|].
  destruct k as [|k]; [|apply sublist_cons, IH].
  destruct (match_import (c :: s)) as [rest|]; [|apply sublist_skip, IH].
  destruct (length (c :: s) - length rest); [apply sublist_skip, IH|apply sublist_cons, IH].
Qed.

Lemma startsWith_includes p s k : startsWith p (drop k s) = true -> includes s p = true.
Proof.
  revert k. induction s as [|c s IH]; intros k.
  - rewrite drop_nil. cbn. intros ->. done.
  - destruct k as [|k]; cbn [drop includes].
    + intros ->. done.
    + intros Hk. rewrite (IH k Hk). apply orb_true_r.
Qed.

Lemma match_import_starts s rest : match_import s = Some rest -> startsWith $"import" s = true.
Proof.
  intros Hmatch. destruct (startsWith $"import" s) eqn:Hstart; [done|].
  exfalso. revert Hmatch. unfold match_import.
  change (foldl (fun (r : option str) (atom : str -> option str) => r ≫= atom)
            (lit $"import" s) (tail import_pattern) <> Some rest).
  unfold lit. rewrite Hstart. by rewrite pattern_fails.
Qed.

Lemma delete_matches_unchanged s :
  (forall k, startsWith $"import" (drop k s) = false) -> delete_matches 0 s = s.
Proof.
  induction s as [|c s IH]; intros Hnone; [done|]. cbn [delete_matches].
  destruct (match_import (c :: s)) as [rest|] eqn:Hmatch.
  - apply match_import_starts in Hmatch. pose proof (Hnone 0) as Hhead.
    rewrite drop_0 in Hhead. congruence.
  - f_equal. apply IH. intros k. apply (Hnone (S k)).
Qed.

(** X13. The removal of the import statement only deletes: what it
    returns is the text with some code units left out, so it is never
    longer; and a text in which the word [import] does not occur is
    returned as it is. *)
Theorem removeImport_only_deletes (code : str) :
  sublist (removeImport code) code /\
  length (removeImport code) <= length code /\
  (includes code $"import" = false -> removeImport code = code).
Proof.
  split; [apply delete_matches_sublist|]. split.
  - apply sublist_length, delete_matches_sublist.
  - intros Habsent. apply delete_matches_unchanged. intros k.
    destruct (startsWith $"import" (drop k code)) eqn:Hstart; [|done].
    apply startsWith_includes in Hstart. congruence.
Qed.

Lemma removeImport_only_deletes_witness :
  removeImport $"export const width = 4;" = $"export const width = 4;".
Proof.
  apply (removeImport_only_deletes $"export const width = 4;"). reflexivity.
Defined.

(** *** The statements the pattern matches *)

Lemma trimStart_whiteSpace w s : whiteSpace w -> trimStart (w ++ s) = trimStart s.
Proof.
  induction 1 as [|c w Hc _ IH]; [done|]. cbn. by rewrite Hc.
Qed.

Lemma trimStart_lit p s :
  (exists c, head p = Some c /\ is_space c = false) -> trimStart (p ++ s) = p ++ s.
Proof. intros (c & Hhead & Hc). destruct p as [|a p]; [done|]. injection Hhead as ->. cbn. by rewrite Hc. Qed.

Lemma spaces_whiteSpace w s : whiteSpace w -> spaces (w ++ s) = Some (trimStart s).
Proof. intros Hw. unfold spaces. by rewrite trimStart_whiteSpace. Qed.

Lemma spaces1_whiteSpace w s :
  whiteSpace w -> w <> [] -> spaces1 (w ++ s) = Some (trimStart s).
Proof.
  intros Hw Hne. destruct Hw as [|c w Hc Hw]; [done|]. cbn. rewrite Hc.
  by rewrite trimStart_whiteSpace.
Qed.

Lemma lit_app p s : lit p (p ++ s) = Some s.
Proof.
  unfold lit. assert (Hstart : startsWith p (p ++ s) = true).
  { induction p as [|a p IH]; [done|]. cbn. by destruct (ascii_dec a a). }
  by rewrite Hstart, drop_app_length.
Qed.

Lemma quote_mark_app q s : isQuote q -> quote_mark ([q] ++ s) = Some s.
Proof. by intros [-> | ->]. Qed.

Lemma semicolon_opt_present s : semicolon_opt ($";" ++ s) = Some s.
Proof. done. Qed.

Lemma semicolon_opt_absent s : head s <> Some ";"%char -> semicolon_opt s = Some s.
Proof.
  intros Hhead. destruct s as [|c s]; [done|]. cbn.
  destruct (ascii_dec c ";"); [by subst|done].
Qed.

Lemma pattern_step (atom : str -> option str) atoms s :
  foldl (fun (r : option str) (a : str -> option str) => r ≫= a) (Some s) (atom :: atoms) =
  foldl (fun (r : option str) (a : str -> option str) => r ≫= a) (atom s) atoms.
Proof. done. Qed.

(** X14. The pattern matches every statement of this form at the head of
    a text: [import], white space, an opening brace, [css] with optional
    white space around it, a closing brace, white space, [from], white
    space, [ecij] between two quotes, each single or double and not
    necessarily the same, a semicolon or none, and the white space that
    follows.  [removeImport] deletes all of it. *)
Theorem removeImport_deletes_statement
    (w1 w2 w3 w4 w5 w6 semicolon rest : str) (q1 q2 : ascii) :
  whiteSpace w1 -> whiteSpace w2 -> whiteSpace w3 -> whiteSpace w4 ->
  whiteSpace w5 -> whiteSpace w6 ->
  w1 <> [] -> w4 <> [] -> w5 <> [] ->
  isQuote q1 -> isQuote q2 ->
  semicolon = $";" \/ (semicolon = [] /\ head (w6 ++ rest) <> Some ";"%char) ->
  trimStart rest = rest ->
  let statement :=
    $"import" ++ w1 ++ $"{" ++ w2 ++ $"css" ++ w3 ++ $"}" ++ w4 ++ $"from" ++ w5
      ++ [q1] ++ $"ecij" ++ [q2] ++ semicolon ++ w6 in
  match_import (statement ++ rest) = Some rest /\
  removeImport (statement ++ rest) = removeImport rest.
Proof.
  intros Hw1 Hw2 Hw3 Hw4 Hw5 Hw6 Hn1 Hn4 Hn5 Hq1 Hq2 Hsemi Hrest statement.
  assert (Hmatch : match_import (statement ++ rest) = Some rest).
  { unfold statement, match_import, import_pattern. rewrite <-!app_assoc.
    rewrite pattern_step, lit_app.
    rewrite pattern_step, spaces1_whiteSpace, (trimStart_lit $"{") by (done || by eexists).
    rewrite pattern_step, lit_app.
    rewrite pattern_step, spaces_whiteSpace, (trimStart_lit $"css") by (done || by eexists).
    rewrite pattern_step, lit_app.
    rewrite pattern_step, spaces_whiteSpace, (trimStart_lit $"}") by (done || by eexists).
    rewrite pattern_step, lit_app.
    rewrite pattern_step, spaces1_whiteSpace, (trimStart_lit $"from") by (done || by eexists).
    rewrite pattern_step, lit_app.
    rewrite pattern_step, spaces1_whiteSpace by done.
    rewrite (trimStart_lit [q1]).
    2:{ exists q1. split; [done|]. by destruct Hq1 as [-> | ->]. }
    rewrite pattern_step, quote_mark_app by done.
    rewrite pattern_step, lit_app.
    rewrite pattern_step, quote_mark_app by done.
    rewrite pattern_step.
    destruct Hsemi as [-> | [-> Hhead]].
    - rewrite semicolon_opt_present, pattern_step, spaces_whiteSpace by done.
      by rewrite Hrest.
    - cbn [app]. rewrite semicolon_opt_absent, pattern_step, spaces_whiteSpace by done.
      by rewrite Hrest. }
  split; [exact Hmatch|]. by apply removeImport_match.
Qed.

Lemma removeImport_deletes_statement_witness :
  removeImport ($"import" ++ [LF] ++ $"{" ++ $" " ++ $"css" ++ [] ++ $"}" ++ $"  " ++ $"from"
                  ++ $" " ++ [DQUOTE] ++ $"ecij" ++ ["'"%char] ++ [] ++ [LF; LF] ++ $"const a = 1;")
  = removeImport $"const a = 1;".
Proof.
  pose proof (removeImport_deletes_statement
                [LF] $" " [] $"  " $" " [LF; LF] [] $"const a = 1;" DQUOTE "'"%char) as Hstatement.
  cbv zeta in Hstatement. rewrite <-!app_assoc in Hstatement.
  apply Hstatement;
    first [ by repeat constructor | by left | by right
          | right; split; [done|cbn; discriminate] ].
Defined.

(** *** The added import is not the removed one *)

Lemma pattern_head s rest :
  match_import s = Some rest ->
  exists w after, s = $"import" ++ w ++ $"{" ++ after /\ whiteSpace w.
Proof.
  unfold match_import, import_pattern. rewrite pattern_step.
  unfold lit at 1. destruct (startsWith $"import" s) eqn:Hstart; [|by rewrite pattern_fails].
  apply startsWith_app in Hstart. set (s1 := drop (length $"import") s) in *.
  rewrite pattern_step.
  destruct (spaces1 s1) as [s2|] eqn:Hspaces; [|by rewrite pattern_fails].
  rewrite pattern_step. unfold lit at 1.
  destruct (startsWith $"{" s2) eqn:Hbrace; [|by rewrite pattern_fails].
  apply startsWith_app in Hbrace. intros _.
  assert (Hw : exists w, s1 = w ++ s2 /\ whiteSpace w).
  { clear -Hspaces. destruct s1 as [|c s1]; [done|]. cbn in Hspaces.
    destruct (is_space c) eqn:Hc; [|done]. injection Hspaces as <-.
    assert (Htrim : forall t, exists w, t = w ++ trimStart t /\ whiteSpace w).
    { induction t as [|a t (w & Ht & Hw)]; [exists []; split; [done|constructor]|]. cbn.
      destruct (is_space a) eqn:Ha; [|exists []; split; [done|constructor]].
      exists (a :: w). split; [by rewrite Ht at 1|by constructor 2]. }
    destruct (Htrim s1) as (w & Hs1 & Hw). exists (c :: w).
    split; [by rewrite Hs1 at 1|by constructor 2]. }
  destruct Hw as (w & Hs1 & Hw). exists w, (drop (length $"{") s2).
  split; [|done]. by rewrite <-Hbrace, <-Hs1.
Qed.

Lemma json_escape_brace c : "{"%char ∈ json_escape c -> c = "{"%char.
Proof.
  destruct c as [[] [] [] [] [] [] [] []]; vm_compute; intros Hin;
    repeat (apply elem_of_cons in Hin as [Hin|Hin]; [try discriminate Hin; try reflexivity|]);
    by apply elem_of_nil in Hin.
Qed.

Lemma app_before (c : ascii) (b x p y : str) :
  c ∉ b -> b ++ x = p ++ c :: y -> exists z, p = b ++ z.
Proof.
  revert p. induction b as [|a b IH]; intros p Hc Heq; [by exists p|].
  destruct p as [|a' p]; cbn in Heq.
  - injection Heq as -> _. exfalso. apply Hc. by left.
  - injection Heq as -> Heq. destruct (IH p) as (z & ->); [|done|by exists z].
    intros Hin. apply Hc. by right.
Qed.

Lemma cssImportLine_no_brace cssModuleId :
  "{"%char ∉ cssModuleId -> "{"%char ∉ cssImportLine cssModuleId.
Proof.
  intros Hid. unfold cssImportLine, JSON_stringify.
  rewrite !elem_of_app. intros [Hin|[[Hin|[Hin|Hin]]|[Hin|Hin]]].
  - vm_compute in Hin. repeat (apply elem_of_cons in Hin as [Hin|Hin]; [discriminate Hin|]).
    by apply elem_of_nil in Hin.
  - apply list_elem_of_singleton in Hin. discriminate Hin.
  - apply list_elem_of_In, in_flat_map in Hin as (c & Hc & Hin).
    apply list_elem_of_In in Hc, Hin. apply json_escape_brace in Hin as ->. done.
  - apply list_elem_of_singleton in Hin. discriminate Hin.
  - apply list_elem_of_singleton in Hin. discriminate Hin.
  - repeat (apply elem_of_cons in Hin as [Hin|Hin]; [discriminate Hin|]).
    by apply elem_of_nil in Hin.
Qed.

Lemma cssImportLine_clear cssModuleId code k :
  "{"%char ∉ cssModuleId -> k < length (cssImportLine cssModuleId) ->
  match_import (drop k (cssImportLine cssModuleId ++ code)) = None.
Proof.
  intros Hid Hk. destruct (match_import _) as [rest|] eqn:Hmatch; [exfalso|done].
  apply pattern_head in Hmatch as (w & after & Heq & Hw).
  rewrite drop_app_le in Heq by lia.
  set (b := drop k (cssImportLine cssModuleId)) in *.
  assert (Hclear : "{"%char ∉ b).
  { intros Hin. apply (cssImportLine_no_brace _ Hid).
    rewrite <-(take_drop k (cssImportLine cssModuleId)). apply elem_of_app. by right. }
  rewrite (app_assoc _ w) in Heq.
  destruct (app_before _ _ _ _ _ Hclear Heq) as (z & Hprefix).
  assert (Hchars : forall c, c ∈ b -> c ∈ $"import" \/ is_space c = true).
  { intros c Hc. assert (Hin : c ∈ $"import" ++ w).
    { rewrite Hprefix. apply elem_of_app. by left. }
    apply elem_of_app in Hin as [Hin|Hin]; [by left|right].
    unfold whiteSpace in Hw. rewrite Forall_forall in Hw. by apply Hw. }
  (* the line ends with a semicolon and two line feeds *)
  set (body := $"import " ++ JSON_stringify cssModuleId) in *.
  assert (Hline : cssImportLine cssModuleId = body ++ [";"%char; LF; LF]).
  { unfold cssImportLine, body. by rewrite <-!app_assoc. }
  assert (Hlen : k < length body + 3).
  { rewrite Hline, length_app in Hk. exact Hk. }
  destruct (decide (k <= length body)) as [Hle|Hgt].
  - assert (Hsemi : ";"%char ∈ b).
    { unfold b. rewrite Hline, drop_app_le by done. apply elem_of_app. right. by left. }
    apply Hchars in Hsemi as [Hin|Hspace]; [|done].
    vm_compute in Hin. repeat (apply elem_of_cons in Hin as [Hin|Hin]; [discriminate Hin|]).
    by apply elem_of_nil in Hin.
  - assert (Hb : b = drop (k - length body) [";"%char; LF; LF]).
    { unfold b. rewrite Hline, drop_app_ge by lia. done. }
    assert (Hcases : k - length body = 1 \/ k - length body = 2) by lia.
    rewrite <-app_assoc in Heq.
    destruct Hcases as [Hcase|Hcase]; rewrite Hcase in Hb; rewrite Hb in Heq; discriminate Heq.
Qed.

Lemma addCssImport_line code cssModuleId :
  addCssImport code cssModuleId = cssImportLine cssModuleId ++ code.
Proof. unfold addCssImport, cssImportLine. by rewrite <-!app_assoc. Qed.

(** X15. When the name of the CSS module holds no opening brace, the
    import line that [addCssImport] puts at the top is out of the reach
    of [removeImport]: removing the [ecij] import after adding the CSS
    import gives the same text as doing it before. *)
Theorem removeImport_keeps_css_import (code cssModuleId : str) :
  "{"%char ∉ cssModuleId ->
  removeImport (addCssImport code cssModuleId) =
  addCssImport (removeImport code) cssModuleId.
Proof.
  intros Hid. rewrite !addCssImport_line.
  apply removeImport_before. intros k Hk. by apply cssImportLine_clear.
Qed.

Lemma removeImport_keeps_css_import_witness :
  removeImport (addCssImport $"import { css } from 'ecij'; const a = 1;" $"src/a.ts.css") =
  addCssImport $"const a = 1;" $"src/a.ts.css".
Proof.
  apply (removeImport_keeps_css_import $"import { css } from 'ecij'; const a = 1;" $"src/a.ts.css").
  vm_compute. intros Hin.
  repeat (apply elem_of_cons in Hin as [Hin|Hin]; [discriminate Hin|]).
  by apply elem_of_nil in Hin.
Defined.

(** ** The import of the style module names the module *)

Lemma readStringBody_escape c rest :
  readStringBody (json_escape c ++ rest) = prepend c (readStringBody rest).
Proof.
  destruct c as [[] [] [] [] [] [] [] []]; reflexivity.
Qed.

Lemma readStringBody_escaped s rest :
  readStringBody (flat_map json_escape s ++ [DQUOTE] ++ rest) = Some (s, rest).
Proof.
  induction s as [|c s IH]; [done|].
  cbn [flat_map]. rewrite <-app_assoc, readStringBody_escape, IH. done.
Qed.

Lemma readStringLiteral_stringify s rest :
  readStringLiteral (JSON_stringify s ++ rest) = Some (s, rest).
Proof.
  unfold JSON_stringify. rewrite <-!app_assoc. cbn [app readStringLiteral].
  destruct (ascii_dec DQUOTE DQUOTE); [|done]. apply readStringBody_escaped.
Qed.

Lemma json_escape_one_line c : (LF ∉ json_escape c) /\ ("013"%char ∉ json_escape c).
Proof.
  destruct c as [[] [] [] [] [] [] [] []]; vm_compute; split; intros Hin;
    repeat (apply elem_of_cons in Hin as [Hin|Hin]; [discriminate Hin|]);
    by apply elem_of_nil in Hin.
Qed.

(** X16. The string literal that [JSON.stringify] writes for a module id
    reads back as that id, whatever it holds (quotes, backslashes,
    control characters), and the reading stops right after the closing
    quote; the literal holds no line break. *)
Theorem module_id_round_trip (cssModuleId rest : str) :
  readStringLiteral (JSON_stringify cssModuleId ++ rest) = Some (cssModuleId, rest) /\
  (LF ∉ JSON_stringify cssModuleId) /\ ("013"%char ∉ JSON_stringify cssModuleId).
Proof.
  split; [apply readStringLiteral_stringify|].
  unfold JSON_stringify. rewrite !elem_of_app, !list_elem_of_singleton.
  split; intros [Hin|[Hin|Hin]]; try discriminate Hin;
    apply list_elem_of_In, in_flat_map in Hin as (c & _ & Hin);
    apply list_elem_of_In in Hin; by apply json_escape_one_line in Hin.
Qed.

(** X17. [addCssImport] loses nothing: two results are equal only when
    both the module ids and the codes are. *)
Theorem addCssImport_injective (code1 code2 id1 id2 : str) :
  addCssImport code1 id1 = addCssImport code2 id2 -> id1 = id2 /\ code1 = code2.
Proof.
  unfold addCssImport. intros Heq. apply app_inv_head in Heq.
  apply (f_equal readStringLiteral) in Heq.
  rewrite !readStringLiteral_stringify in Heq. injection Heq as -> Heq.
  split; [done|exact Heq].
Qed.

Lemma addCssImport_injective_witness :
  $"a.css" = $"a.css" /\ $"const a = 1;" = $"const a = 1;".
Proof.
  apply (addCssImport_injective $"const a = 1;" $"const a = 1;" $"a.css" $"a.css"). reflexivity.
Defined.

(** ** The plugin throws only when the host does *)

Lemma returnsWith_ret {A} (x : A) (Q : A -> Prop) : Q x -> returnsWith (mret x) Q.
Proof. intros Hx st. by exists x, st. Qed.

Lemma returnsWith_bind {A B} (m : M A) (f : A -> M B) (Q : A -> Prop) (R : B -> Prop) :
  returnsWith m Q -> (forall x, Q x -> returnsWith (f x) R) -> returnsWith (m ≫= f) R.
Proof.
  intros Hm Hf st. destruct (Hm st) as (x & st1 & Hrun & Hx).
  unfold mbind, M_bind. rewrite Hrun. by apply Hf.
Qed.

Section WellFormedTrees.
Context (config : Configuration) (relativePath : str) (exported : gmap str str).

Lemma hasSegment_handle localName n w :
  wellFormed n ->
  Forall hasSegment (w_declarations w) ->
  Forall hasSegment
    (w_declarations (handleTaggedTemplateExpression config relativePath exported
                       localName n w)).
Proof.
  intros Hn Hw. destruct n as [| |r s e tag quasis es| |]; try exact Hw.
  cbn [handleTaggedTemplateExpression]. destruct (isCssTag tag); [|exact Hw].
  assert (Hpush : Forall hasSegment
            (w_declarations w ++
             [{| className := generateClassName config relativePath
                                (length (w_declarations w)) localName;
                 node := TaggedTemplateExpression r s e tag quasis es;
                 hasInterpolations := bool_decide (0 < length es) |}])).
  { apply Forall_app. split; [exact Hw|]. constructor; [|constructor].
    unfold hasSegment. cbn. destruct Hn as [Hlen _]. by destruct quasis. }
  destruct localName; exact Hpush.
Qed.

Lemma wellFormed_all (l : list Node) :
  (fix all (l : list Node) : Prop :=
     match l with
     | [] => True
     | m :: l' => wellFormed m /\ all l'
     end) l <-> Forall wellFormed l.
Proof.
  induction l as [|m l IH]; [by split; [constructor|]|].
  rewrite Forall_cons, <-IH. done.
Qed.

Lemma hasSegment_visit n w :
  wellFormed n ->
  Forall hasSegment (w_declarations w) ->
  Forall hasSegment (w_declarations (visit config relativePath exported n w)).
Proof.
  revert w.
  induction n as [name|value|r s e tag quasis es IHtag IHes|id init IHid IHinit|cs IHcs]
    using Node_ind; intros w Hn Hw.
  - exact Hw.
  - exact Hw.
  - rewrite visit_tagged.
    assert (Hes : Forall wellFormed es).
    { apply wellFormed_all. by destruct Hn as (_ & _ & Hes). }
    assert (Hstart : Forall hasSegment (w_declarations
              (visit config relativePath exported tag
                 (onTaggedTemplateExpression config relativePath exported
                    (TaggedTemplateExpression r s e tag quasis es) w)))).
    { apply IHtag; [by destruct Hn as (_ & Htag & _)|].
      unfold onTaggedTemplateExpression. case_bool_decide; [exact Hw|].
      by apply hasSegment_handle. }
    revert Hstart.
    generalize (visit config relativePath exported tag
                  (onTaggedTemplateExpression config relativePath exported
                     (TaggedTemplateExpression r s e tag quasis es) w)).
    clear Hn. induction IHes as [|m l Hm _ IHl]; intros w' Hw'; [exact Hw'|].
    apply Forall_cons in Hes as [Hwf Hes]. rewrite visitAll_cons. auto.
  - rewrite visit_declarator. cbv zeta. destruct Hn as [Hid Hinit].
    assert (Hstart : Forall hasSegment (w_declarations
              (visit config relativePath exported id
                 (onVariableDeclarator config relativePath exported id init w)))).
    { apply IHid; [exact Hid|]. unfold onVariableDeclarator.
      destruct init as [i|]; [|exact Hw].
      destruct id; try exact Hw.
      destruct i as [|[]|r s e tag quasis es| |]; try exact Hw.
      by apply (hasSegment_handle _ (TaggedTemplateExpression r s e tag quasis es)
                  (addFromVariableDeclarator r w)). }
    destruct init as [i|]; [by apply IHinit|exact Hstart].
  - rewrite visit_other. apply wellFormed_all in Hn. revert w Hw.
    induction IHcs as [|m l Hm _ IHl]; intros w Hw; [exact Hw|].
    apply Forall_cons in Hn as [Hwf Hn]. rewrite visitAll_cons. auto.
Qed.

End WellFormedTrees.

Lemma hasSegment_analyze config relativePath parseResult :
  wellFormed (program parseResult) ->
  Forall hasSegment (declarations (analyze config relativePath parseResult)).
Proof.
  intros Hwf. unfold analyze. cbn [declarations]. by apply hasSegment_visit; [|constructor].
Qed.

Section Returns.
Context `{Host} (config : Configuration).
Hypothesis Hread : forall filePath, is_Some (readFile filePath).
Hypothesis Hparse : forall filePath sourceText,
  exists parseResult,
    parseSync filePath sourceText = Some parseResult /\ wellFormed (program parseResult).

Lemma parseFile_returns filePath : returnsWith (parseFile config filePath None) (fun _ => True).
Proof.
  intros st. destruct (parsedFileInfoCache st !! filePath) as [cached|] eqn:Hcached.
  - rewrite (parseFile_cached config filePath cached st Hcached). eauto.
  - rewrite (parseFile_miss config filePath st Hcached).
    destruct (Hread filePath) as [sourceText ->].
    destruct (Hparse filePath sourceText) as (parseResult & -> & _). eauto.
Qed.

Lemma resolveValue_returns filePath info identifierName :
  returnsWith (resolveValue config filePath info identifierName) (fun _ => True).
Proof.
  unfold resolveValue.
  destruct (localIdentifiers info !! identifierName); [by apply returnsWith_ret|].
  destruct (importedIdentifiers info !! identifierName) as [entry|];
    [|by apply returnsWith_ret].
  destruct (resolve (source entry) filePath); [|by apply returnsWith_ret].
  eapply returnsWith_bind; [apply parseFile_returns|].
  intros target _. by apply returnsWith_ret.
Qed.

Lemma interpolate_returns filePath info quasis expressions cssContent :
  returnsWith (interpolate config filePath info quasis expressions cssContent) (fun _ => True).
Proof.
  revert expressions cssContent.
  induction quasis as [|quasi quasis IH]; intros expressions cssContent; cbn [interpolate];
    [by apply returnsWith_ret|].
  destruct expressions as [|[name| | | |] expressions];
    try (by apply returnsWith_ret); [apply IH|].
  eapply returnsWith_bind; [apply resolveValue_returns|].
  intros [value|] _; [apply IH|by apply returnsWith_ret].
Qed.

Lemma pass2_returns filePath info ds acc :
  returnsWith (pass2 config filePath info ds acc) (fun _ => True).
Proof.
  revert acc. induction ds as [|d ds IH]; intros acc; cbn [pass2];
    [by apply returnsWith_ret|].
  destruct (hasInterpolations d); [|apply IH].
  eapply returnsWith_bind; [apply interpolate_returns|].
  intros [content|] _; apply IH.
Qed.

Lemma pass1_returns ds acc :
  Forall hasSegment ds -> returnsWith (pass1 ds acc) (fun _ => True).
Proof.
  intros Hds. revert acc. induction Hds as [|d ds Hd _ IH]; intros acc; cbn [pass1];
    [by apply returnsWith_ret|].
  destruct (hasInterpolations d); [apply IH|].
  unfold hasSegment in Hd. destruct (node_quasis (node d)); [done|apply IH].
Qed.

Lemma extractCssFromCode_returns code filePath :
  returnsWith (extractCssFromCode config code filePath) (fun _ => True).
Proof.
  intros st. rewrite extractCssFromCode_unfold.
  destruct (Hparse filePath code) as (parseResult & -> & Hwf). cbv zeta.
  apply returnsWith_bind with (Q := fun _ => True).
  - apply pass1_returns, hasSegment_analyze, Hwf.
  - intros acc _. eapply returnsWith_bind; [apply pass2_returns|].
    intros acc0 _. by apply returnsWith_ret.
Qed.

Lemma handler_returns_always code id st : is_Some (handler config code id st).1.
Proof.
  rewrite handler_unfold. destruct (negb (includes code $"ecij")); [by eexists|].
  destruct (extractCssFromCode_returns code (removeQuery id) st) as (r & st1 & -> & _).
  destruct (negb (hasExtractions r)); [by eexists|].
  destruct (bool_decide (cssContent r <> [])); by eexists.
Qed.
End Returns.

(** X18. The plugin throws only when the host does: with a host that
    reads every file and parses every text into a tree whose templates
    have their literal segments, the transform hook returns for every
    code, id and state. *)
Theorem transform_returns `{Host} (config : Configuration) (code id : str)
    (st : PluginState) :
  (forall filePath, is_Some (readFile filePath)) ->
  (forall filePath sourceText,
     exists parseResult,
       parseSync filePath sourceText = Some parseResult /\
       wellFormed (program parseResult)) ->
  exists result st', handler config code id st = (Some result, st').
Proof.
  intros Hread Hparse.
  destruct (handler_returns_always config Hread Hparse code id st) as [result Hresult].
  destruct (handler config code id st) as [o st'] eqn:Hrun. cbn in Hresult. subst o.
  by exists result, st'.
Qed.

Lemma transform_returns_witness :
  exists result st',
    @handler steadyHost defaultConfiguration basicText $"/proj/src/a.ts" initialState
    = (Some result, st').
Proof.
  apply (@transform_returns steadyHost defaultConfiguration basicText $"/proj/src/a.ts"
           initialState).
  - intros filePath. by exists basicText.
  - intros filePath sourceText. exists basicFile. split; [reflexivity|]. vm_compute. tauto.
Defined.

(** ** What the transform hook leaves alone *)

(** X19. The transform hook registers a style text only when it returns
    rewritten code: when it returns [null] or throws, the registry of
    style texts is as it was. *)
Theorem transform_registers_only_on_rewrite `{Host} (config : Configuration)
    (code id : str) (st : PluginState) :
  (forall rewritten, (handler config code id st).1 <> Some (Some rewritten)) ->
  extractedCssPerFile (handler config code id st).2 = extractedCssPerFile st.
Proof.
  rewrite handler_unfold.
  destruct (negb (includes code $"ecij")); [done|].
  pose proof (keepsStyles_extractCssFromCode config code (removeQuery id) st) as Hkeeps.
  destruct (extractCssFromCode config code (removeQuery id) st) as [[r|] st1];
    cbn [snd] in Hkeeps; [|by intros _].
  destruct (negb (hasExtractions r)); [by intros _|].
  destruct (bool_decide (cssContent r <> [])); cbv zeta; cbn [fst snd]; intros Hnone.
  - by destruct (Hnone _ eq_refl).
  - by destruct (Hnone _ eq_refl).
Qed.

Lemma transform_registers_only_on_rewrite_witness :
  extractedCssPerFile
    (@handler basicHost defaultConfiguration $"const a = 1;" $"/proj/src/b.ts" initialState).2
  = extractedCssPerFile initialState.
Proof.
  apply (@transform_registers_only_on_rewrite basicHost defaultConfiguration
           $"const a = 1;" $"/proj/src/b.ts" initialState).
  intros rewritten. vm_compute. discriminate.
Defined.

(** ** Class names on Windows and on Unix *)

Lemma replaceAll_separators p q :
  sameUpToSeparators p q -> replaceAll p "\"%char "/"%char = replaceAll q "\"%char "/"%char.
Proof.
  unfold replaceAll. induction 1 as [|a b p q Hab _ IH]; [done|].
  cbn [map]. f_equal; [|exact IH].
  destruct Hab as [->|[[-> | ->] [-> | ->]]]; try done;
    by repeat (destruct (ascii_dec _ _); try done).
Qed.

Lemma replaceAll_absent s a b : a <> b -> a ∉ replaceAll s a b.
Proof.
  intros Hne. unfold replaceAll. induction s as [|c s IH]; [apply not_elem_of_nil|].
  cbn [map]. apply not_elem_of_cons. split; [|exact IH].
  destruct (ascii_dec c a); congruence.
Qed.

(** X21. The path that enters the class names holds no backslash, and
    two builds whose relative paths differ only in the separators give
    every file the same analysis, class names included. *)
Theorem class_names_ignore_separators (unix windows : Host) (config : Configuration)
    (unixPath windowsPath : str) (parseResult : ParseResult) :
  sameUpToSeparators (@relative unix (@PROJECT_ROOT unix) unixPath)
                     (@relative windows (@PROJECT_ROOT windows) windowsPath) ->
  ("\"%char ∉ @toRelativePath windows windowsPath) /\
  @toRelativePath unix unixPath = @toRelativePath windows windowsPath /\
  analyze config (@toRelativePath unix unixPath) parseResult
  = analyze config (@toRelativePath windows windowsPath) parseResult.
Proof.
  intros Hsame. split; [by apply replaceAll_absent|].
  assert (Hpath : @toRelativePath unix unixPath = @toRelativePath windows windowsPath)
    by by apply replaceAll_separators.
  split; [exact Hpath|]. by rewrite Hpath.
Qed.

Lemma class_names_ignore_separators_witness :
  analyze defaultConfiguration (@toRelativePath steadyHost $"/proj/src/a.ts") basicFile
  = analyze defaultConfiguration (@toRelativePath windowsHost $"C:\proj\src\a.ts") basicFile.
Proof.
  apply (class_names_ignore_separators steadyHost windowsHost defaultConfiguration
           $"/proj/src/a.ts" $"C:\proj\src\a.ts" basicFile).
  vm_compute. repeat constructor; (by left) || (right; split; by (left + right)).
Defined.
